(** * Stitch-count solvers of knitsketching (libs/nlopt-wasm)

    A shallow embedding of the objective, gradient, constraint, aliasing and
    driver code of [global_sampling.cpp], [local_sampling.cpp] and
    [sr_sampling.cpp], with the properties proved about it.

    Conventions of the embedding:
    - a C++ [double] is a real number of [R]: rounding, infinities and NaN
      are not modelled;
    - a [std::vector<double>] is a [list R]; [v[i]] outside the vector is
      undefined in C++ and is [None] here, so every kernel returns an
      [option];
    - the file-level [static] variables of each solver are the fields of a
      [state] record that the functions receive;
    - the [verbose] diagnostics ([printf], [curr_iter]) are left out: they do
      not touch any value the kernels return. *)

From Stdlib Require Import Reals RList List Lia Lra Bool Arith ZArith.
Import ListNotations.
Local Open Scope R_scope.

(** ** Vectors and the failure monad *)

Definition index_t := nat.
Bind Scope nat_scope with index_t.
Definition vec := list R.

Definition bind {A B : Type} (m : option A) (k : A -> option B) : option B :=
  match m with
  | Some a => k a
  | None => None
  end.

Notation "x <- m ;; k" := (bind m (fun x => k))
  (at level 61, m at next level, right associativity).

(** [v[i]] as an rvalue. *)
Definition rd (v : vec) (i : index_t) : option R := nth_error v i.

Fixpoint upd {A : Type} (v : list A) (i : index_t) (x : A) : list A :=
  match v, i with
  | [], _ => []
  | _ :: t, O => x :: t
  | h :: t, S j => h :: upd t j x
  end.

(** [v[i] = x]. *)
Definition wr {A : Type} (v : list A) (i : index_t) (x : A) : option (list A) :=
  if (i <? length v)%nat then Some (upd v i x) else None.

(** [v[i] += d] and [v[i] -= d]. *)
Definition add_at (v : vec) (i : index_t) (d : R) : option vec :=
  x <- rd v i ;; wr v i (x + d).

Definition sub_at (v : vec) (i : index_t) (d : R) : option vec :=
  x <- rd v i ;; wr v i (x - d).

(** A range-based [for] over [l] whose body may fail, threading the
    mutated variables [s]. *)
Fixpoint for_each {A S : Type} (l : list A) (body : S -> A -> option S) (s : S)
  : option S :=
  match l with
  | [] => Some s
  | a :: l' =>
      match body s a with
      | Some s' => for_each l' body s'
      | None => None
      end
  end.

(** [for(i = 0; i < n; ++i)]. *)
Definition for_range {S : Type} (n : nat) (body : S -> index_t -> option S) (s : S)
  : option S :=
  for_each (seq 0 n) body s.

Definition loss (x : R) : R := x * x.

(** Inner product, used to state the transpose property. *)
Fixpoint dot (a b : vec) : R :=
  match a, b with
  | x :: a', y :: b' => x * y + dot a' b'
  | _, _ => 0
  end.

Definition isnil {A : Type} (l : list A) : bool :=
  match l with
  | [] => true
  | _ => false
  end.


(** [std::floor] and [std::ceil]. *)
Definition floor (x : R) : R := IZR (Int_part x).
Definition ceil (x : R) : R := - floor (- x).

(** [std::vector::resize]: keeps a prefix, pads with zeros. *)
Definition resize (v : vec) (n : nat) : vec :=
  firstn n v ++ repeat 0 (n - length v).

(** ** The optimizer object

    [nlopt::opt] is a third-party class; only what the drivers store in
    it is modelled: each setter records its argument.  [C] is the type of
    the callback data of a constraint. *)

Inductive bounds : Type :=
| Uniform (b : R)          (* set_lower_bounds(double) *)
| PerVariable (b : vec).   (* set_lower_bounds(const std::vector<double>&) *)

Record opt (C : Type) : Type := mkOpt {
  dimension : nat;
  ftol_rel : option R;
  maxeval : option Z;
  maxtime : option R;
  lower_bounds : option bounds;
  upper_bounds : option bounds;
  equality_constraints : list (C * R);
  inequality_constraints : list (C * R)
}.

Arguments mkOpt {C}.
Arguments dimension {C}.
Arguments ftol_rel {C}.
Arguments maxeval {C}.
Arguments maxtime {C}.
Arguments lower_bounds {C}.
Arguments upper_bounds {C}.
Arguments equality_constraints {C}.
Arguments inequality_constraints {C}.

Definition new_opt {C : Type} (n : nat) : opt C :=
  mkOpt n None None None None None [] [].

Definition set_ftol_rel {C} (o : opt C) (t : R) : opt C :=
  mkOpt (dimension o) (Some t) (maxeval o) (maxtime o)
        (lower_bounds o) (upper_bounds o)
        (equality_constraints o) (inequality_constraints o).

Definition set_maxeval {C} (o : opt C) (n : Z) : opt C :=
  mkOpt (dimension o) (ftol_rel o) (Some n) (maxtime o)
        (lower_bounds o) (upper_bounds o)
        (equality_constraints o) (inequality_constraints o).

Definition set_maxtime {C} (o : opt C) (t : R) : opt C :=
  mkOpt (dimension o) (ftol_rel o) (maxeval o) (Some t)
        (lower_bounds o) (upper_bounds o)
        (equality_constraints o) (inequality_constraints o).

Definition set_lower_bounds {C} (o : opt C) (b : bounds) : opt C :=
  mkOpt (dimension o) (ftol_rel o) (maxeval o) (maxtime o)
        (Some b) (upper_bounds o)
        (equality_constraints o) (inequality_constraints o).

Definition set_upper_bounds {C} (o : opt C) (b : bounds) : opt C :=
  mkOpt (dimension o) (ftol_rel o) (maxeval o) (maxtime o)
        (lower_bounds o) (Some b)
        (equality_constraints o) (inequality_constraints o).

Definition add_equality_constraint {C} (o : opt C) (c : C) (tol : R) : opt C :=
  mkOpt (dimension o) (ftol_rel o) (maxeval o) (maxtime o)
        (lower_bounds o) (upper_bounds o)
        (equality_constraints o ++ [(c, tol)]) (inequality_constraints o).

Definition add_inequality_constraint {C} (o : opt C) (c : C) (tol : R) : opt C :=
  mkOpt (dimension o) (ftol_rel o) (maxeval o) (maxtime o)
        (lower_bounds o) (upper_bounds o)
        (equality_constraints o) (inequality_constraints o ++ [(c, tol)]).

(** What [opt.optimize(x, objval)] leaves behind: the vector and the
    objective value it wrote, and either a result code or an exception. *)
Inductive outcome : Type :=
| Returned (res : Z)
| Threw.

Definition optimizer (C : Type) : Type := opt C -> vec -> vec * R * outcome.

(** The user-defined part of the configuration, the same statements in
    the three [solve] functions up to the default evaluation cap. *)
Definition configure_stopping {C} (o : opt C)
    (main_ftol_rel : R) (max_eval : N) (max_time : R) (default_cap : Z) : opt C :=
  let o1 := if Req_dec_T main_ftol_rel 0 then o else set_ftol_rel o main_ftol_rel in
  let o2 := if (max_eval =? 0)%N then set_maxeval o1 default_cap
            else set_maxeval o1 (Z.of_N max_eval) in
  if Req_dec_T max_time 0 then o2 else set_maxtime o2 max_time.

(** ** The finite-difference gradient checker

    An [nlopt::vfunc] with its data pointer bound: from the point and the
    gradient buffer to the value and the buffer as the call leaves it. *)
Definition vfunc : Type := vec -> vec -> option (R * vec).

(** [get_gradient_error], the same text in the three files; [ncdata] is
    [cdata.size()] of the file it is compiled in, and [nograd] is the
    empty [static] vector. *)
Definition get_gradient_error (ncdata : nat) (ns : vec) (f : vfunc)
    (epsilon : R) (relative : bool) : option R :=
  ana <- f ns (repeat 0 (length ns)) ;;
  let grad_ana := snd ana in
  s <- for_range ncdata (fun (s : R * vec) i =>
         let '(max_err, ns_delta) := s in
         x <- rd ns i ;;
         nd_p <- wr ns_delta i (x + epsilon) ;;
         fp <- f nd_p [] ;;
         nd_n <- wr nd_p i (x - epsilon) ;;
         fn <- f nd_n [] ;;
         nd <- wr nd_n i x ;;
         let grad_num := (fst fp - fst fn) / (2 * epsilon) in
         ga <- rd grad_ana i ;;
         let abs_err := Rabs (ga - grad_num) in
         if negb relative then Some (Rmax max_err abs_err, nd)
         else
           let rel_err := if Rlt_dec 1e-8 ga then abs_err / ga else abs_err in
           Some (Rmax max_err rel_err, nd))
       (0, ns) ;;
  Some (fst s).

(** * global_sampling.cpp *)

Module Global.

Record Node : Type := mkNode {
  index : index_t;
  simple : bool;
  inp_edges : list index_t;
  out_edges : list index_t
}.

Definition has_interface_constraint (n : Node) : bool :=
  (0 <? length (inp_edges n))%nat
  && (0 <? length (out_edges n))%nat
  && negb (simple n).

Definition has_range_constraint (n : Node) : bool := simple n.

Definition inp (n : Node) : option index_t := nth_error (inp_edges n) 0.
Definition out (n : Node) : option index_t := nth_error (out_edges n) 0.

(** [VarAlias]; its [index] member is [alias_index] here, and a
    [min_bound] that was never assigned is [None]. *)
Record VarAlias : Type := mkAlias {
  alias_index : index_t;
  pos : list index_t;
  neg : list index_t;
  min_bound : option R
}.

Definition empty (a : VarAlias) : bool := isnil (pos a) && isnil (neg a).

Definition is_valid (a : VarAlias) : bool := isnil (neg a) || negb (isnil (pos a)).

Definition has_constraint (a : VarAlias) : bool := (1 <? length (neg a))%nat.

Inductive AliasingLevel : Type := NONE | TRIVIAL | BASIC | COMPLEX.

Definition level_value (l : AliasingLevel) : nat :=
  match l with
  | NONE => 0
  | TRIVIAL => 1
  | BASIC => 2
  | COMPLEX => 3
  end.

(** The [static] variables, grouped as the source comments group them. *)
Record inputs : Type := mkInputs {
  cdata : vec;
  wdata : vec;
  iwdata : vec;
  nodes : list Node;
  w_c : R;
  w_s : R
}.

(** An entry of [aliasToRed] is [Some r], or [None] for the value
    [std::numeric_limits<index_t>::max()], which indexes no vector. *)
Record aliasing : Type := mkAliasing {
  aliases : list VarAlias;
  aliased : bool;
  reduced : list bool;
  aliasing_level : AliasingLevel;
  redToAlias : list index_t;
  aliasToRed : list (option index_t);
  rvars : vec
}.

Record config : Type := mkConfig {
  use_constraints : bool;
  main_ftol_rel : R;
  max_eval : N;
  max_time : R;
  constraint_tol : R;
  gaussian_start : bool;
  global_shaping : bool
}.

Record outputs : Type := mkOutputs {
  nvars : vec;
  ngrad : vec;
  objval : R
}.

Record state : Type := mkState {
  inp_of : inputs;
  ali_of : aliasing;
  cfg_of : config;
  out_of : outputs
}.

(** [aliasToRed[idx]] used as an index into a reduced vector. *)
Definition red_index (a : aliasing) (idx : index_t) : option index_t :=
  k <- nth_error (aliasToRed a) idx ;; k.

Definition from_reduced_to_aliases (a : aliasing) (rns ns : vec) : option vec :=
  for_range (length ns) (fun ns i =>
    alias <- nth_error (aliases a) i ;;
    if empty alias then
      k <- red_index a i ;;
      x <- rd rns k ;;
      wr ns i x
    else
      v1 <- for_each (pos alias) (fun val idx =>
              k <- red_index a idx ;; x <- rd rns k ;; Some (val + x)) 0 ;;
      v2 <- for_each (neg alias) (fun val idx =>
              k <- red_index a idx ;; x <- rd rns k ;; Some (val - x)) v1 ;;
      wr ns i v2) ns.

Definition from_aliases_to_reduced (a : aliasing) (ns rns : vec)
    (rnsIsZeroed : bool) : option vec :=
  let rns0 := if negb rnsIsZeroed then repeat 0 (length rns) else rns in
  for_range (length ns) (fun rns i =>
    alias <- nth_error (aliases a) i ;;
    g <- rd ns i ;;
    if empty alias then
      k <- red_index a i ;;
      add_at rns k g
    else
      r1 <- for_each (pos alias) (fun rns idx =>
              k <- red_index a idx ;; add_at rns k g) rns ;;
      for_each (neg alias) (fun rns idx =>
              k <- red_index a idx ;; sub_at rns k g) r1) rns0.

Definition set_reduced_from_aliases (a : aliasing) (ns rns : vec) : option vec :=
  for_range (length rns) (fun rns i =>
    j <- nth_error (redToAlias a) i ;;
    x <- rd ns j ;;
    wr rns i x) rns.

(** *** compute_aliases *)

Definition set_pos (a : VarAlias) (p : list index_t) : VarAlias :=
  mkAlias (alias_index a) p (neg a) (min_bound a).

Definition push_neg (a : VarAlias) (k : index_t) : VarAlias :=
  mkAlias (alias_index a) (pos a) (neg a ++ [k]) (min_bound a).

Definition set_min_bound (a : VarAlias) (b : R) : VarAlias :=
  mkAlias (alias_index a) (pos a) (neg a) (Some b).

(** [aliases.assign(aliases.size(), noAlias)] followed by the loop that
    numbers them. *)
Definition reset_aliases (n : nat) : list VarAlias :=
  map (fun i => mkAlias i [] [] None) (seq 0 n).

(** [aliases[target].pos = p] through the reference [alias]. *)
Definition alias_to (al : list VarAlias) (target : index_t) (p : list index_t)
  : option (list VarAlias) :=
  a <- nth_error al target ;; wr al target (set_pos a p).

(** The body of the loop over the nodes.  The inner result [None] is a
    [continue] taken before the node is marked as reduced. *)
Definition alias_node (level : AliasingLevel)
    (s : list VarAlias * list bool) (node : Node)
  : option (list VarAlias * list bool) :=
  let '(al, red) := s in
  r <- nth_error red (index node) ;;
  if r || negb (has_interface_constraint node) then Some s
  else
    let num_inp := length (inp_edges node) in
    let num_out := length (out_edges node) in
    step <-
      (if (num_inp =? 1)%nat && (num_out =? 1)%nat then
         o <- out node ;;
         al1 <- alias_to al o (inp_edges node) ;;
         Some (Some al1)
       else if (num_inp =? 1)%nat || (num_out =? 1)%nat then
         if (level_value level <? level_value BASIC)%nat then Some None
         else if (num_inp =? 1)%nat then
           i <- inp node ;;
           al1 <- alias_to al i (out_edges node) ;;
           Some (Some al1)
         else
           o <- out node ;;
           al1 <- alias_to al o (inp_edges node) ;;
           Some (Some al1)
       else if (level_value level =? level_value COMPLEX)%nat then
         o <- out node ;;
         a <- nth_error al o ;;
         let a1 := set_pos a (inp_edges node) in
         let a2 := fold_left push_neg (tl (out_edges node)) a1 in
         al1 <- wr al o a2 ;;
         Some (Some al1)
       else Some None) ;;
    match step with
    | None => Some s
    | Some al1 =>
        red1 <- wr red (index node) true ;;
        Some (al1, red1)
    end.

(** The loop that creates [redToAlias] and [aliasToRed]. *)
Definition mapping_step (m : list index_t * list (option index_t))
    (alias : VarAlias) : list index_t * list (option index_t) :=
  let '(r2a, a2r) := m in
  let redIdx := length r2a in
  if empty alias then (r2a ++ [alias_index alias], a2r ++ [Some redIdx])
  else (r2a, a2r ++ [None]).

Definition create_mappings (al : list VarAlias)
  : list index_t * list (option index_t) :=
  fold_left mapping_step al ([], []).

Definition compute_aliases (i : inputs) (a : aliasing) : option aliasing :=
  if aliased a then Some a
  else
    let al0 := reset_aliases (length (aliases a)) in
    let red0 := repeat false (length (reduced a)) in
    match aliasing_level a with
    | NONE =>
        Some (mkAliasing al0 true red0 NONE
                         (redToAlias a) (aliasToRed a) (rvars a))
    | level =>
        s <- for_each (nodes i) (alias_node level) (al0, red0) ;;
        let '(al, red) := s in
        let '(r2a, a2r) := create_mappings al in
        Some (mkAliasing al true red level r2a a2r
                         (resize (rvars a) (length r2a)))
    end.

(** *** Objective *)

Definition global_sampling (i : inputs) (ns grad : vec) : option (R * vec) :=
  (* course errors (and possibly gradient) *)
  s0 <- (if (0 <? length grad)%nat then
           for_range (length (cdata i)) (fun (s : R * vec) k =>
             let '(Ec, grad) := s in
             x <- rd ns k ;;
             c <- rd (cdata i) k ;;
             g1 <- wr grad k (w_c i * 2 * (x - c)) ;;
             Some (Ec + loss (x - c), g1)) (0, grad)
         else
           for_range (length (cdata i)) (fun (s : R * vec) k =>
             let '(Ec, grad) := s in
             x <- rd ns k ;;
             c <- rd (cdata i) k ;;
             Some (Ec + loss (x - c), grad)) (0, grad)) ;;
  let '(Ec, grad0) := s0 in
  (* node errors *)
  s1 <- for_each (nodes i) (fun (s : R * vec) node =>
          let '(Es, grad) := s in
          if negb (simple node) || isnil (inp_edges node) || isnil (out_edges node)
          then Some s
          else
            inp <- for_each (inp_edges node) (fun acc idx =>
                     x <- rd ns idx ;; Some (acc + x)) 0 ;;
            out <- for_each (out_edges node) (fun acc idx =>
                     x <- rd ns idx ;; Some (acc + x)) 0 ;;
            let diff := inp - out in
            let range := Rabs diff in
            let Es1 := Es + loss range in
            if isnil grad then Some (Es1, grad)
            else
              let s_grad := w_s i * 2 * diff in
              g1 <- for_each (inp_edges node) (fun g idx => add_at g idx s_grad) grad ;;
              g2 <- for_each (out_edges node) (fun g idx => sub_at g idx s_grad) g1 ;;
              Some (Es1, g2)) (0, grad0) ;;
  let '(Es, grad1) := s1 in
  Some (Ec * w_c i + Es * w_s i, grad1).

(** *** Constraints *)

Definition global_interface_constraint (ns grad : vec) (node : Node)
  : option (R * vec) :=
  s1 <- for_each (inp_edges node) (fun (s : R * vec) idx =>
          let '(value, grad) := s in
          x <- rd ns idx ;;
          g1 <- (if (0 <? length grad)%nat then wr grad idx 1 else Some grad) ;;
          Some (value + x, g1)) (0, grad) ;;
  for_each (out_edges node) (fun (s : R * vec) idx =>
          let '(value, grad) := s in
          x <- rd ns idx ;;
          g1 <- (if (0 <? length grad)%nat then wr grad idx (-1) else Some grad) ;;
          Some (value - x, g1)) s1.

Definition global_alias_constraint (a : aliasing) (rns rgrad : vec)
    (alias : VarAlias) : option (R * vec) :=
  res0 <- min_bound alias ;;
  s1 <- for_each (pos alias) (fun (s : R * vec) idx =>
          let '(res, rgrad) := s in
          k <- red_index a idx ;;
          x <- rd rns k ;;
          g1 <- (if (0 <? length rgrad)%nat then sub_at rgrad k 1 else Some rgrad) ;;
          Some (res - x, g1)) (res0, rgrad) ;;
  for_each (neg alias) (fun (s : R * vec) idx =>
          let '(res, rgrad) := s in
          k <- red_index a idx ;;
          x <- rd rns k ;;
          g1 <- (if (0 <? length rgrad)%nat then add_at rgrad k 1 else Some rgrad) ;;
          Some (res + x, g1)) s1.

Definition global_urange_constraint (i : inputs) (ns grad : vec) (node : Node)
  : option (R * vec) :=
  inp <- inp node ;;
  out <- out node ;;
  x_inp <- rd ns inp ;;
  x_out <- rd ns out ;;
  w <- rd (wdata i) (index node) ;;
  let res := x_inp - x_out * w in
  if negb (length grad =? 0)%nat then
    g1 <- add_at grad inp 1 ;;
    g2 <- sub_at g1 out w ;;
    Some (res, g2)
  else Some (res, grad).

Definition global_lrange_constraint (i : inputs) (ns grad : vec) (node : Node)
  : option (R * vec) :=
  inp <- inp node ;;
  out <- out node ;;
  x_out <- rd ns out ;;
  iw <- rd (iwdata i) (index node) ;;
  x_inp <- rd ns inp ;;
  let res := x_out * iw - x_inp in
  if negb (length grad =? 0)%nat then
    g1 <- sub_at grad inp 1 ;;
    g2 <- add_at g1 out iw ;;
    Some (res, g2)
  else Some (res, grad).

(** *** Reduced wrappers: they go through the [static] buffers [nvars]
    and [ngrad], so they take and return the [outputs]. *)

Definition set_nvars (o : outputs) (v : vec) : outputs :=
  mkOutputs v (ngrad o) (objval o).

Definition set_ngrad (o : outputs) (g : vec) : outputs :=
  mkOutputs (nvars o) g (objval o).

Definition global_reduced_sampling (i : inputs) (a : aliasing) (o : outputs)
    (rns rgrad : vec) : option (R * vec * outputs) :=
  nv <- from_reduced_to_aliases a rns (nvars o) ;;
  let o1 := set_nvars o nv in
  if isnil rgrad then
    r <- global_sampling i nv [] ;;
    Some (fst r, rgrad, o1)
  else
    r <- global_sampling i nv (ngrad o1) ;;
    let '(E, g) := r in
    rg <- from_aliases_to_reduced a g rgrad false ;;
    Some (E, rg, set_ngrad o1 g).

Definition global_reduced_constraint (a : aliasing) (o : outputs)
    (rns rgrad : vec) (node : Node) : option (R * vec * outputs) :=
  nv <- from_reduced_to_aliases a rns (nvars o) ;;
  let o1 := set_nvars o nv in
  if isnil rgrad then
    r <- global_interface_constraint nv [] node ;;
    Some (fst r, rgrad, o1)
  else
    r <- global_interface_constraint nv (ngrad o1) node ;;
    let '(E, g) := r in
    rg <- from_aliases_to_reduced a g rgrad false ;;
    Some (E, rg, set_ngrad o1 g).

(** *** solve *)

(** A registered constraint: the callback and the object its data
    pointer refers to. *)
Inductive constraint : Type :=
| interface_constraint (node : Node)
| reduced_constraint (node : Node)
| alias_constraint (alias : VarAlias)
| urange_constraint (node : Node)
| lrange_constraint (node : Node).

(** "set the problem bounds": the pair [(min_bound, max_bound)]. *)
Definition problem_bounds (cd : vec) : R * R :=
  let '(min_bound, max_bound) :=
    fold_left (fun (b : R * R) val =>
      (Rmin (fst b) (floor (val * 0.5)), Rmax (snd b) (ceil (val * 2.0))))
      cd (1e3, 2) in
  (Rmax 2.0 min_bound, max_bound).

(** "unreduced node constraints". *)
Definition add_node_constraints (none : bool) (a : aliasing) (tol : R)
    (ns : list Node) (o : opt constraint) : option (opt constraint) :=
  for_each ns (fun o node =>
    if has_interface_constraint node then
      r <- nth_error (reduced a) (index node) ;;
      if negb r then
        Some (add_equality_constraint o
                (if none then interface_constraint node
                 else reduced_constraint node) tol)
      else Some o
    else Some o) o.

(** "complex aliasing reductions": the loop assigns [alias.min_bound]
    in place and registers the alias. *)
Definition add_alias_constraints (min_bound tol : R) (al : list VarAlias)
    (o : opt constraint) : list VarAlias * opt constraint :=
  fold_left (fun (s : list VarAlias * opt constraint) alias =>
    if has_constraint alias then
      let a1 := set_min_bound alias min_bound in
      (fst s ++ [a1], add_inequality_constraint (snd s) (alias_constraint a1) tol)
    else (fst s ++ [alias], snd s)) al ([], o).

Definition add_range_constraints (tol : R) (ns : list Node) (o : opt constraint)
  : opt constraint :=
  fold_left (fun o node =>
    if has_range_constraint node then
      add_inequality_constraint
        (add_inequality_constraint o (urange_constraint node) tol)
        (lrange_constraint node) tol
    else o) ns o.

Definition set_aliases (a : aliasing) (al : list VarAlias) : aliasing :=
  mkAliasing al (aliased a) (reduced a) (aliasing_level a)
             (redToAlias a) (aliasToRed a) (rvars a).

Definition set_rvars (a : aliasing) (rv : vec) : aliasing :=
  mkAliasing (aliases a) (aliased a) (reduced a) (aliasing_level a)
             (redToAlias a) (aliasToRed a) rv.

Definition is_none (l : AliasingLevel) : bool :=
  (level_value l =? level_value NONE)%nat.

(** The starting point: [cdata], perturbed and clipped only under
    [gaussian_start]; [noise k] is the [k]-th draw of
    [nlopt_nrand(0.0, 1.0)]. *)
Definition initial_guess (c : config) (cd : vec) (min_bound max_bound : R)
    (noise : nat -> R) : vec :=
  if gaussian_start c then
    map (fun p => Rmax min_bound (Rmin max_bound (snd p + noise (fst p))))
        (combine (seq 0 (length cd)) cd)
  else cd.

(** Everything [solve] does before [opt.optimize]: the state it leaves
    and the optimizer it configured. *)
Definition solve_prepare (st : state) (noise : nat -> R)
  : option (state * opt constraint) :=
  let i := inp_of st in
  let c := cfg_of st in
  a1 <- compute_aliases i (ali_of st) ;;
  let none := is_none (aliasing_level a1) in
  let n := if none then length (nvars (out_of st)) else length (rvars a1) in
  let o1 := configure_stopping (new_opt n)
              (main_ftol_rel c) (max_eval c) (max_time c) 1000 in
  let '(min_bound, max_bound) := problem_bounds (cdata i) in
  let o2 := set_upper_bounds (set_lower_bounds o1 (Uniform min_bound))
              (Uniform max_bound) in
  s3 <- (if use_constraints c then
           o3 <- add_node_constraints none a1 (constraint_tol c) (nodes i) o2 ;;
           Some (add_alias_constraints min_bound (constraint_tol c) (aliases a1) o3)
         else Some (aliases a1, o2)) ;;
  let a2 := set_aliases a1 (fst s3) in
  let o4 := if global_shaping c
            then add_range_constraints (constraint_tol c) (nodes i) (snd s3)
            else snd s3 in
  let nv := initial_guess c (cdata i) min_bound max_bound noise in
  a3 <- (if none then Some a2
         else rv <- set_reduced_from_aliases a2 nv (rvars a2) ;;
              Some (set_rvars a2 rv)) ;;
  Some (mkState i a3 c (set_nvars (out_of st) nv), o4).

(** The vector handed to [opt.optimize]. *)
Definition initial_point (st : state) : vec :=
  if is_none (aliasing_level (ali_of st)) then nvars (out_of st)
  else rvars (ali_of st).

Definition solve (optimize : optimizer constraint) (st : state)
    (noise : nat -> R) : option (Z * state) :=
  p <- solve_prepare st noise ;;
  let '(st1, o) := p in
  let '(x, f, res) := optimize o (initial_point st1) in
  let i := inp_of st1 in
  let c := cfg_of st1 in
  let a := ali_of st1 in
  if is_none (aliasing_level a) then
    let out1 := mkOutputs x (ngrad (out_of st1)) f in
    Some (match res with Returned r => r | Threw => 0%Z end,
          mkState i a c out1)
  else
    let a1 := set_rvars a x in
    match res with
    | Returned r =>
        nv <- from_reduced_to_aliases a1 x (nvars (out_of st1)) ;;
        Some (r, mkState i a1 c (mkOutputs nv (ngrad (out_of st1)) f))
    | Threw =>
        Some (0%Z, mkState i a1 c (mkOutputs (nvars (out_of st1)) (ngrad (out_of st1)) f))
    end.


(** *** Constraint errors; [nograd] is the empty [static] vector. *)

Definition global_constraint_error (i : inputs) (c : config) (ns : vec)
  : option R :=
  for_each (nodes i) (fun err node =>
    if has_interface_constraint node then
      r <- global_interface_constraint ns [] node ;;
      Some (err + Rabs (fst r))
    else if global_shaping c && has_range_constraint node then
      u <- global_urange_constraint i ns [] node ;;
      l <- global_lrange_constraint i ns [] node ;;
      Some (err + (Rabs (fst u) + Rabs (fst l)))
    else Some err) 0.

Definition global_constraint_max_error (i : inputs) (c : config) (ns : vec)
  : option R :=
  for_each (nodes i) (fun max_err node =>
    if has_interface_constraint node then
      r <- global_interface_constraint ns [] node ;;
      Some (Rmax max_err (Rabs (fst r)))
    else if global_shaping c && has_range_constraint node then
      u <- global_urange_constraint i ns [] node ;;
      let max_err := Rmax max_err (Rabs (fst u)) in
      l <- global_lrange_constraint i ns [] node ;;
      Some (Rmax max_err (Rabs (fst l)))
    else Some max_err) 0.

Definition get_num_constraints (st : state) : nat :=
  fold_left (fun num_constraints node =>
    if has_interface_constraint node then (num_constraints + 1)%nat
    else if global_shaping (cfg_of st) && has_range_constraint node
         then (num_constraints + 2)%nat (* upper and lower *)
         else num_constraints) (nodes (inp_of st)) 0%nat.

Definition get_constraint_error (st : state) : option R :=
  global_constraint_error (inp_of st) (cfg_of st) (nvars (out_of st)).

Definition get_constraint_max_error (st : state) : option R :=
  global_constraint_max_error (inp_of st) (cfg_of st) (nvars (out_of st)).

Definition get_constraint_mean_error (st : state) : option R :=
  let nc := get_num_constraints st in
  if (nc =? 0)%nat then Some 0
  else e <- get_constraint_error st ;; Some (e / INR nc).

End Global.

(** * local_sampling.cpp *)

Module Local.

Inductive bound_t : Type :=
| FirstMin | FirstMax | NextMin | NextMax | LastMin | LastMax.

Record DynamicBoundConstraint : Type := mkBound {
  index : index_t;
  type : bound_t
}.

Record inputs : Type := mkInputs {
  cdata : vec;
  ns_start : R;
  ns_end : R;
  F : R;
  iF : R;
  w_c : R;
  w_s : R
}.

(** The algorithms are kept as the integers of [nlopt::algorithm]. *)
Record config : Type := mkConfig {
  verbose : bool;
  curr_iter : nat;
  main_algo : Z;
  local_algo : Z;
  use_constraints : bool;
  main_ftol_rel : R;
  max_eval : N;
  max_time : R;
  local_ftol_rel : R;
  constraint_tol : R;
  seed : Z;
  gaussian_start : bool
}.

Record outputs : Type := mkOutputs {
  nvars : vec;
  ngrad : vec;
  objval : R
}.

Record state : Type := mkState {
  inp_of : inputs;
  cfg_of : config;
  out_of : outputs
}.

(** The initializers of the [static] variables; [AUGLAG] and [LD_LBFGS]
    are the enumerators of nlopt.h, and the variables without an
    initializer are zero-initialized. *)
Definition initial_state (AUGLAG LD_LBFGS : Z) : state :=
  mkState
    (mkInputs [] 0 0 2 0.5 1 0.1)
    (mkConfig false 0 AUGLAG LD_LBFGS true 0 1000 0.0 1e-3 1e-1 0xDEADBEEF false)
    (mkOutputs [] [] 0).

(** *** Objective *)

Definition local_sampling (i : inputs) (ns grad : vec) : option (R * vec) :=
  let N := length ns in
  (* simplicity with fixed first value *)
  x0 <- rd ns 0 ;;
  let diff0 := x0 - ns_start i in
  g0 <- (if negb (length grad =? 0)%nat then add_at grad 0 (w_s i * 2 * diff0)
         else Some grad) ;;
  s1 <- for_range N (fun (s : R * R * vec) k =>
          let '(Ec, Es, grad) := s in
          x <- rd ns k ;;
          c <- rd (cdata i) k ;;
          let diff := x - c in
          g1 <- (if (0 <? length grad)%nat then add_at grad k (w_c i * 2 * diff)
                 else Some grad) ;;
          if (k + 1 <? N)%nat then
            y <- rd ns (k + 1) ;;
            let d := x - y in
            g2 <- (if negb (length g1 =? 0)%nat then
                     h <- add_at g1 (k + 0) (w_s i * 2 * d) ;;
                     sub_at h (k + 1) (w_s i * 2 * d)
                   else Some g1) ;;
            Some (Ec + loss diff, Es + loss d, g2)
          else Some (Ec + loss diff, Es, g1))
        (0, 0 + loss diff0, g0) ;;
  let '(Ec, Es, g1) := s1 in
  (* simplicity with fixed last value *)
  xl <- rd ns (N - 1) ;;
  let diffl := xl - ns_end i in
  g2 <- (if negb (length g1 =? 0)%nat then add_at g1 (N - 1) (w_s i * 2 * diffl)
         else Some g1) ;;
  Some (Ec * w_c i + (Es + loss diffl) * w_s i, g2).

Definition local_constraint (i : inputs) (ns grad : vec)
    (bound : DynamicBoundConstraint) : option (R * vec) :=
  let k := index bound in
  let has_grad := negb (length grad =? 0)%nat in
  match type bound with
  | FirstMin =>
      g <- (if has_grad then wr grad 0 (-1.0) else Some grad) ;;
      x <- rd ns 0 ;;
      Some (ns_start i * iF i - x, g)
  | FirstMax =>
      g <- (if has_grad then wr grad 0 1.0 else Some grad) ;;
      x <- rd ns 0 ;;
      Some (- ns_start i * F i + x, g)
  | NextMin =>
      g <- (if has_grad then
              g1 <- wr grad k (iF i) ;; wr g1 (k + 1) (-1.0)
            else Some grad) ;;
      x <- rd ns k ;;
      y <- rd ns (k + 1) ;;
      Some (x * iF i - y, g)
  | NextMax =>
      g <- (if has_grad then
              g1 <- wr grad k (- F i) ;; wr g1 (k + 1) 1.0
            else Some grad) ;;
      x <- rd ns k ;;
      y <- rd ns (k + 1) ;;
      Some (- x * F i + y, g)
  | LastMin =>
      g <- (if has_grad then wr grad k (-1.0) else Some grad) ;;
      x <- rd ns k ;;
      Some (ns_end i * iF i - x, g)
  | LastMax =>
      g <- (if has_grad then wr grad k 1.0 else Some grad) ;;
      x <- rd ns k ;;
      Some (x - ns_end i * F i, g)
  end.

(** [get_constraints]: for [N >= 1] the entries written fill the
    allocated vector exactly; for [N = 0] the size computation wraps or a
    write falls outside, which is [None]. *)
Definition get_constraints (i : inputs) (use_first use_last : bool)
  : option (list DynamicBoundConstraint) :=
  let N := length (cdata i) in
  if (N =? 0)%nat then None
  else
    Some ((if use_first then [mkBound 0 FirstMin; mkBound 0 FirstMax] else [])
          ++ flat_map (fun k => [mkBound k NextMin; mkBound k NextMax])
                      (seq 0 (N - 1))
          ++ (if use_last then [mkBound (N - 1) LastMin; mkBound (N - 1) LastMax]
              else [])).

(** *** solve *)

(** The loop "set the problem bounds and record initial value": the
    state of [(ns_min, ns_max, nvars)] after it. *)
Definition bounds_and_init (i : inputs) (nv : vec)
  : option (vec * vec * vec) :=
  let n := length nv in
  for_range n (fun (s : vec * vec * vec) k =>
    let '(ns_min, ns_max, nvars) := s in
    cw <- rd (cdata i) k ;;
    let nss_min := Rmax 2.0 (ns_start i * iF i ^ (k + 1)) in
    let nss_max := Rmin 1e4 (ns_start i * F i ^ (k + 1)) in
    let nse_min := Rmax 2.0 (ns_end i * iF i ^ (n - k)) in
    let nse_max := Rmin 1e4 (ns_end i * F i ^ (n - k)) in
    let lo := Rmax nss_min nse_min in
    let hi := Rmin nss_max nse_max in
    mn <- wr ns_min k lo ;;
    mx <- wr ns_max k hi ;;
    let cw1 := if Rlt_dec cw lo then lo
               else if Rlt_dec hi cw then hi
               else cw in
    nv1 <- wr nvars k cw1 ;;
    Some (mn, mx, nv1))
    (repeat 0 n, repeat 0 n, nv).

Definition perturb (ns_min ns_max nv : vec) (noise : nat -> R) : option vec :=
  for_range (length nv) (fun nv k =>
    x <- rd nv k ;;
    lo <- rd ns_min k ;;
    hi <- rd ns_max k ;;
    wr nv k (Rmax lo (Rmin hi (x + noise k)))) nv.

Definition set_nvars (o : outputs) (v : vec) : outputs :=
  mkOutputs v (ngrad o) (objval o).

(** Everything [solve] does before [opt.optimize]. *)
Definition solve_prepare (st : state) (noise : nat -> R)
  : option (state * opt DynamicBoundConstraint) :=
  let i := inp_of st in
  let c := cfg_of st in
  let n := length (nvars (out_of st)) in
  let o1 := configure_stopping (new_opt n)
              (main_ftol_rel c) (max_eval c) (max_time c) 1000 in
  b <- bounds_and_init i (nvars (out_of st)) ;;
  let '(ns_min, ns_max, nv) := b in
  let o2 := set_upper_bounds (set_lower_bounds o1 (PerVariable ns_min))
              (PerVariable ns_max) in
  o3 <- (if use_constraints c then
           cs <- get_constraints i false false ;;
           Some (fold_left (fun o constr =>
                   add_inequality_constraint o constr (constraint_tol c)) cs o2)
         else Some o2) ;;
  nv1 <- (if gaussian_start c then perturb ns_min ns_max nv noise else Some nv) ;;
  Some (mkState i c (set_nvars (out_of st) nv1), o3).

Definition initial_point (st : state) : vec := nvars (out_of st).

Definition set_curr_iter (c : config) (k : nat) : config :=
  mkConfig (verbose c) k (main_algo c) (local_algo c) (use_constraints c)
           (main_ftol_rel c) (max_eval c) (max_time c) (local_ftol_rel c)
           (constraint_tol c) (seed c) (gaussian_start c).

(** [solve]; [evals] is how far the objective advanced [curr_iter]
    while the optimizer ran. *)
Definition solve (optimize : optimizer DynamicBoundConstraint) (evals : nat)
    (st : state) (noise : nat -> R) : option (Z * state) :=
  p <- solve_prepare st noise ;;
  let '(st1, o) := p in
  let '(x, f, res) := optimize o (initial_point st1) in
  Some (match res with Returned r => r | Threw => 0%Z end,
        mkState (inp_of st1) (set_curr_iter (cfg_of st1) evals)
                (mkOutputs x (ngrad (out_of st1)) f)).

(** *** The exported setters *)

Definition reset (st : state) : state :=
  mkState
    (mkInputs [] (ns_start (inp_of st)) (ns_end (inp_of st)) (F (inp_of st))
              (iF (inp_of st)) (w_c (inp_of st)) (w_s (inp_of st)))
    (cfg_of st)
    (mkOutputs [] (ngrad (out_of st)) (objval (out_of st))).

Definition allocate (st : state) (num_edges : nat) : state :=
  let st0 := reset st in
  mkState
    (mkInputs (repeat 0 num_edges) (ns_start (inp_of st0)) (ns_end (inp_of st0))
              (F (inp_of st0)) (iF (inp_of st0)) (w_c (inp_of st0))
              (w_s (inp_of st0)))
    (cfg_of st0)
    (mkOutputs (repeat 0 num_edges) (resize (ngrad (out_of st0)) num_edges)
               (objval (out_of st0))).

Definition with_inputs (st : state) (i : inputs) : state :=
  mkState i (cfg_of st) (out_of st).

Definition with_config (st : state) (c : config) : state :=
  mkState (inp_of st) c (out_of st).

Definition set_cdata (st : state) (k : index_t) (value : R) : option state :=
  let i := inp_of st in
  cd <- wr (cdata i) k value ;;
  Some (with_inputs st
          (mkInputs cd (ns_start i) (ns_end i) (F i) (iF i) (w_c i) (w_s i))).

Definition set_ns_start (st : state) (value : R) : state :=
  let i := inp_of st in
  with_inputs st (mkInputs (cdata i) value (ns_end i) (F i) (iF i) (w_c i) (w_s i)).

Definition set_ns_end (st : state) (value : R) : state :=
  let i := inp_of st in
  with_inputs st (mkInputs (cdata i) (ns_start i) value (F i) (iF i) (w_c i) (w_s i)).

Definition set_shaping (st : state) (shaping : R) : state :=
  let i := inp_of st in
  let F1 := Rmax 1.01 (Rmin 2.0 shaping) in
  with_inputs st
    (mkInputs (cdata i) (ns_start i) (ns_end i) F1 (1.0 / F1) (w_c i) (w_s i)).

Definition set_weights (st : state) (wc ws : R) : state :=
  let i := inp_of st in
  with_inputs st
    (mkInputs (cdata i) (ns_start i) (ns_end i) (F i) (iF i) wc ws).

Definition set_seed (st : state) (s : Z) : state :=
  let c := cfg_of st in
  with_config st
    (mkConfig (verbose c) (curr_iter c) (main_algo c) (local_algo c)
       (use_constraints c) (main_ftol_rel c) (max_eval c) (max_time c)
       (local_ftol_rel c) (constraint_tol c) s (gaussian_start c)).

Definition use_noise (st : state) (noise : bool) : state :=
  let c := cfg_of st in
  with_config st
    (mkConfig (verbose c) (curr_iter c) (main_algo c) (local_algo c)
       (use_constraints c) (main_ftol_rel c) (max_eval c) (max_time c)
       (local_ftol_rel c) (constraint_tol c) (seed c) noise).

Definition set_verbose (st : state) (v : bool) : state :=
  let c := cfg_of st in
  with_config st
    (mkConfig v (curr_iter c) (main_algo c) (local_algo c)
       (use_constraints c) (main_ftol_rel c) (max_eval c) (max_time c)
       (local_ftol_rel c) (constraint_tol c) (seed c) (gaussian_start c)).

Definition set_use_constraints (st : state) (u : bool) : state :=
  let c := cfg_of st in
  with_config st
    (mkConfig (verbose c) (curr_iter c) (main_algo c) (local_algo c)
       u (main_ftol_rel c) (max_eval c) (max_time c)
       (local_ftol_rel c) (constraint_tol c) (seed c) (gaussian_start c)).

Definition set_main_algorithm (st : state) (algo : Z) : state :=
  let c := cfg_of st in
  with_config st
    (mkConfig (verbose c) (curr_iter c) algo (local_algo c)
       (use_constraints c) (main_ftol_rel c) (max_eval c) (max_time c)
       (local_ftol_rel c) (constraint_tol c) (seed c) (gaussian_start c)).

Definition set_local_algorithm (st : state) (algo : Z) : state :=
  let c := cfg_of st in
  with_config st
    (mkConfig (verbose c) (curr_iter c) (main_algo c) algo
       (use_constraints c) (main_ftol_rel c) (max_eval c) (max_time c)
       (local_ftol_rel c) (constraint_tol c) (seed c) (gaussian_start c)).

Definition set_max_eval (st : state) (n : N) : state :=
  let c := cfg_of st in
  with_config st
    (mkConfig (verbose c) (curr_iter c) (main_algo c) (local_algo c)
       (use_constraints c) (main_ftol_rel c) n (max_time c)
       (local_ftol_rel c) (constraint_tol c) (seed c) (gaussian_start c)).

Definition set_max_time (st : state) (t : R) : state :=
  let c := cfg_of st in
  with_config st
    (mkConfig (verbose c) (curr_iter c) (main_algo c) (local_algo c)
       (use_constraints c) (main_ftol_rel c) (max_eval c) t
       (local_ftol_rel c) (constraint_tol c) (seed c) (gaussian_start c)).

Definition set_main_ftol_rel (st : state) (tol : R) : state :=
  let c := cfg_of st in
  with_config st
    (mkConfig (verbose c) (curr_iter c) (main_algo c) (local_algo c)
       (use_constraints c) tol (max_eval c) (max_time c)
       (local_ftol_rel c) (constraint_tol c) (seed c) (gaussian_start c)).

Definition set_local_ftol_rel (st : state) (tol : R) : state :=
  let c := cfg_of st in
  with_config st
    (mkConfig (verbose c) (curr_iter c) (main_algo c) (local_algo c)
       (use_constraints c) (main_ftol_rel c) (max_eval c) (max_time c)
       tol (constraint_tol c) (seed c) (gaussian_start c)).

Definition set_constraint_tol (st : state) (tol : R) : state :=
  let c := cfg_of st in
  with_config st
    (mkConfig (verbose c) (curr_iter c) (main_algo c) (local_algo c)
       (use_constraints c) (main_ftol_rel c) (max_eval c) (max_time c)
       (local_ftol_rel c) tol (seed c) (gaussian_start c)).

(** A call of the exported interface that can change the state.  The
    readers ([get_variable_value], [get_constraint_error], ...) and
    [check_gradient], which restores [verbose], leave it as it is. *)
Inductive call : Type :=
| call_reset
| call_allocate (num_edges : nat)
| call_solve (optimize : optimizer DynamicBoundConstraint) (evals : nat)
             (noise : nat -> R)
| call_set_cdata (k : index_t) (value : R)
| call_set_ns_start (value : R)
| call_set_ns_end (value : R)
| call_set_shaping (shaping : R)
| call_set_weights (wc ws : R)
| call_set_seed (s : Z)
| call_use_noise (noise : bool)
| call_set_verbose (v : bool)
| call_set_use_constraints (u : bool)
| call_set_main_algorithm (algo : Z)
| call_set_local_algorithm (algo : Z)
| call_set_max_eval (n : N)
| call_set_max_time (t : R)
| call_set_main_ftol_rel (tol : R)
| call_set_local_ftol_rel (tol : R)
| call_set_constraint_tol (tol : R).

Definition run (st : state) (c : call) : option state :=
  match c with
  | call_reset => Some (reset st)
  | call_allocate n => Some (allocate st n)
  | call_solve optimize evals noise =>
      r <- solve optimize evals st noise ;; Some (snd r)
  | call_set_cdata k v => set_cdata st k v
  | call_set_ns_start v => Some (set_ns_start st v)
  | call_set_ns_end v => Some (set_ns_end st v)
  | call_set_shaping v => Some (set_shaping st v)
  | call_set_weights wc ws => Some (set_weights st wc ws)
  | call_set_seed s => Some (set_seed st s)
  | call_use_noise b => Some (use_noise st b)
  | call_set_verbose v => Some (set_verbose st v)
  | call_set_use_constraints u => Some (set_use_constraints st u)
  | call_set_main_algorithm a => Some (set_main_algorithm st a)
  | call_set_local_algorithm a => Some (set_local_algorithm st a)
  | call_set_max_eval n => Some (set_max_eval st n)
  | call_set_max_time t => Some (set_max_time st t)
  | call_set_main_ftol_rel t => Some (set_main_ftol_rel st t)
  | call_set_local_ftol_rel t => Some (set_local_ftol_rel st t)
  | call_set_constraint_tol t => Some (set_constraint_tol st t)
  end.

(** The states the solver can be in: those a sequence of calls leads to
    from the initial one. *)
Inductive reachable (AUGLAG LD_LBFGS : Z) : state -> Prop :=
| reachable_initial : reachable AUGLAG LD_LBFGS (initial_state AUGLAG LD_LBFGS)
| reachable_call : forall st c st',
    reachable AUGLAG LD_LBFGS st ->
    run st c = Some st' ->
    reachable AUGLAG LD_LBFGS st'.


(** *** Constraint errors; [nograd] is the empty [static] vector. *)

Definition local_constraint_errors (i : inputs) (ns : vec) : option vec :=
  let N := length ns in
  constraints <- get_constraints i true true ;;
  for_range (N * 2 + 2) (fun err k =>
    b <- nth_error constraints k ;;
    r <- local_constraint i ns [] b ;;
    wr err k (fst r)) (repeat 0 (N * 2 + 2)).

Definition local_constraint_error (i : inputs) (ns : vec) : option R :=
  err <- local_constraint_errors i ns ;;
  Some (fold_left (fun sum e => sum + e) err 0.0).

Definition local_constraint_max_error (i : inputs) (ns : vec) : option R :=
  err <- local_constraint_errors i ns ;;
  Some (fold_left (fun max e => Rmax max e) err 0.0).

End Local.

(** * sr_sampling.cpp *)

Module Shortrow.

Record inputs : Type := mkInputs {
  cdata : vec;
  circular : bool;
  simp_L2 : bool;
  w_w : R;
  w_s : R
}.

Record config : Type := mkConfig {
  main_ftol_rel : R;
  max_eval : N;
  max_time : R;
  gaussian_start : bool
}.

Record outputs : Type := mkOutputs {
  nvars : vec;
  ngrad : vec;
  objval : R
}.

Record state : Type := mkState {
  inp_of : inputs;
  cfg_of : config;
  out_of : outputs
}.

(** [simplicity]: the term it returns and the gradient buffer as it
    leaves it. *)
Definition simplicity (i : inputs) (ns grad : vec) (i0 i1 : index_t)
  : option (R * vec) :=
  x0 <- rd ns i0 ;;
  x1 <- rd ns i1 ;;
  let diff := x0 - x1 in
  if simp_L2 i then
    (* L2 simplicity *)
    g <- (if negb (length grad =? 0)%nat then
            g1 <- add_at grad i0 (w_s i * 2 * diff) ;;
            sub_at g1 i1 (w_s i * 2 * diff)
          else Some grad) ;;
    Some (loss diff, g)
  else
    (* L1 simplicity *)
    let sign := if Rge_dec diff 0 then 1 else -1 in
    g <- (if negb (length grad =? 0)%nat then
            g1 <- wr grad i0 (w_s i * sign) ;;
            wr g1 i1 (- w_s i * sign)
          else Some grad) ;;
    Some (sign * diff, g).

Definition rs_sampling (i : inputs) (ns grad : vec) : option (R * vec) :=
  let N := length ns in
  s1 <- for_range N (fun (s : R * R * vec) k =>
          let '(Ew, Es, grad) := s in
          x <- rd ns k ;;
          c <- rd (cdata i) k ;;
          let diff := x - c in
          g1 <- (if (0 <? length grad)%nat then add_at grad k (w_w i * 2 * diff)
                 else Some grad) ;;
          if (0 <? k)%nat then
            r <- simplicity i ns g1 k (k - 1) ;;
            Some (Ew + loss diff, Es + fst r, snd r)
          else Some (Ew + loss diff, Es, g1))
        (0, 0, grad) ;;
  let '(Ew, Es, g1) := s1 in
  s2 <- (if circular i then
           r <- simplicity i ns g1 0 (N - 1) ;;
           Some (Es + fst r, snd r)
         else Some (Es, g1)) ;;
  Some (Ew * w_w i + fst s2 * w_s i, snd s2).

(** *** solve *)

Definition set_nvars (o : outputs) (v : vec) : outputs :=
  mkOutputs v (ngrad o) (objval o).

(** "set the problem lower bound and initial values". *)
Definition initial_values (i : inputs) (nv : vec) : option vec :=
  for_range (length nv) (fun nv k =>
    c <- rd (cdata i) k ;;
    wr nv k (Rmax 0.0 c)) nv.

Definition perturb (nv : vec) (noise : nat -> R) : option vec :=
  for_range (length nv) (fun nv k =>
    x <- rd nv k ;;
    wr nv k (Rmax 0.0 (x + noise k))) nv.

(** Everything [solve] does before [opt.optimize]; no constraint is
    registered, so the callback data type is [unit]. *)
Definition solve_prepare (st : state) (noise : nat -> R)
  : option (state * opt unit) :=
  let i := inp_of st in
  let c := cfg_of st in
  let n := length (nvars (out_of st)) in
  let o1 := configure_stopping (new_opt n)
              (main_ftol_rel c) (max_eval c) (max_time c) 100 in
  let o2 := set_lower_bounds o1 (Uniform 0) in
  nv <- initial_values i (nvars (out_of st)) ;;
  nv1 <- (if gaussian_start c then perturb nv noise else Some nv) ;;
  Some (mkState i c (set_nvars (out_of st) nv1), o2).

Definition initial_point (st : state) : vec := nvars (out_of st).

Definition solve (optimize : optimizer unit) (st : state) (noise : nat -> R)
  : option (Z * state) :=
  p <- solve_prepare st noise ;;
  let '(st1, o) := p in
  let '(x, f, res) := optimize o (initial_point st1) in
  Some (match res with Returned r => r | Threw => 0%Z end,
        mkState (inp_of st1) (cfg_of st1) (mkOutputs x (ngrad (out_of st1)) f)).

End Shortrow.

(** * Specification-level definitions

    The notions the theorems are stated with.  They are written
    independently of the code above: total functions on lists, sums by
    structural recursion, and boolean well-formedness checks. *)

(** [x[i]] with 0 outside the vector, for statements made under
    hypotheses that keep the index inside. *)
Definition at_ (v : vec) (i : index_t) : R := nth i v 0.

Fixpoint sum_list (l : vec) : R :=
  match l with
  | [] => 0
  | x :: l' => x + sum_list l'
  end.

(** The sum of [x] over the indices [idxs], with repetitions. *)
Definition sum_at (x : vec) (idxs : list index_t) : R :=
  sum_list (map (at_ x) idxs).

(** How many times [i] occurs in [idxs], as a real number. *)
Definition occurrences (i : index_t) (idxs : list index_t) : R :=
  INR (count_occ Nat.eq_dec idxs i).

(** The validity precondition of an aliasing: every index an alias
    refers to exists and is itself not aliased. *)
Definition alias_refs_ok (al : list Global.VarAlias) : bool :=
  forallb (fun a =>
    forallb (fun j =>
      match nth_error al j with
      | Some b => Global.empty b
      | None => false
      end) (Global.pos a ++ Global.neg a)) al.

(** The mappings are the ones [compute_aliases] builds for the aliases. *)
Definition mappings_built (a : Global.aliasing) : Prop :=
  (Global.redToAlias a, Global.aliasToRed a)
  = Global.create_mappings (Global.aliases a).

(** The value [from_reduced_to_aliases] stores at index [i]. *)
Definition alias_value (a : Global.aliasing) (rns : vec) (i : index_t)
  : option R :=
  alias <- nth_error (Global.aliases a) i ;;
  if Global.empty alias then
    k <- Global.red_index a i ;; rd rns k
  else
    v1 <- for_each (Global.pos alias) (fun val idx =>
            k <- Global.red_index a idx ;; x <- rd rns k ;; Some (val + x)) 0 ;;
    for_each (Global.neg alias) (fun val idx =>
            k <- Global.red_index a idx ;; x <- rd rns k ;; Some (val - x)) v1.

(** The global objective as the specification states it. *)
Definition node_active (n : Global.Node) : bool :=
  Global.simple n
  && negb (isnil (Global.inp_edges n))
  && negb (isnil (Global.out_edges n)).

Definition node_diff (x : vec) (n : Global.Node) : R :=
  sum_at x (Global.inp_edges n) - sum_at x (Global.out_edges n).

Fixpoint sum_sq_diff (x c : vec) : R :=
  match x, c with
  | xi :: x', ci :: c' => (xi - ci) * (xi - ci) + sum_sq_diff x' c'
  | _, _ => 0
  end.

Definition Es_spec (x : vec) (ns : list Global.Node) : R :=
  sum_list (map (fun n => node_diff x n * node_diff x n) (filter node_active ns)).

Definition global_grad_spec (i : Global.inputs) (x : vec) (k : index_t) : R :=
  Global.w_c i * 2 * (at_ x k - at_ (Global.cdata i) k)
  + sum_list (map (fun n =>
      Global.w_s i * 2 * node_diff x n * occurrences k (Global.inp_edges n)
      - Global.w_s i * 2 * node_diff x n * occurrences k (Global.out_edges n))
      (filter node_active (Global.nodes i))).

(** Every edge index of every node is below [E]. *)
Definition edges_below (E : nat) (ns : list Global.Node) : bool :=
  forallb (fun n =>
    forallb (fun j => (j <? E)%nat) (Global.inp_edges n ++ Global.out_edges n))
    ns.

(** Two optimizer objects that differ at most in their constraints. *)
Definition same_settings {C : Type} (o o' : opt C) : Prop :=
  maxeval o' = maxeval o
  /\ lower_bounds o' = lower_bounds o
  /\ upper_bounds o' = upper_bounds o.

(** The evaluation cap [solve] sets for a configured [max_eval]. *)
Definition eval_cap (default_cap : Z) (max_eval : N) : Z :=
  if (max_eval =? 0)%N then default_cap else Z.of_N max_eval.

(** The per-position bounds of the local solver: the intersection of
    the box around [ns_start] and the box around [ns_end]. *)
Definition local_lb (i : Local.inputs) (n k : nat) : R :=
  Rmax (Rmax 2.0 (Local.ns_start i * Local.iF i ^ (k + 1)))
       (Rmax 2.0 (Local.ns_end i * Local.iF i ^ (n - k))).

Definition local_ub (i : Local.inputs) (n k : nat) : R :=
  Rmin (Rmin 1e4 (Local.ns_start i * Local.F i ^ (k + 1)))
       (Rmin 1e4 (Local.ns_end i * Local.F i ^ (n - k))).

(** [c] clipped into [[lo, hi]]. *)
Definition clip (lo hi c : R) : R := Rmax lo (Rmin hi c).

(** The full index [j] resolves to an entry of the reduced vector [r]. *)
Definition resolves (a : Global.aliasing) (r : vec) (j : index_t) : Prop :=
  exists k rk, Global.red_index a j = Some k
               /\ (k < length (Global.redToAlias a))%nat /\ rd r k = Some rk.

(** The invariant of the shaping factor of the local solver. *)
Definition shaping_ok (st : Local.state) : Prop :=
  1.01 <= Local.F (Local.inp_of st) <= 2.0
  /\ Local.iF (Local.inp_of st) = 1 / Local.F (Local.inp_of st).

(** The gradient checker as the specification states it. *)

(** The value of [f] at [x], evaluated without a gradient buffer. *)
Definition value_of (f : vfunc) (x : vec) : R :=
  match f x [] with
  | Some r => fst r
  | None => 0
  end.

(** The gradient [f] writes at [x] into a zeroed buffer. *)
Definition analytic_gradient (f : vfunc) (x : vec) : vec :=
  match f x (repeat 0 (length x)) with
  | Some r => snd r
  | None => []
  end.

(** [(f(x + eps*e_i) - f(x - eps*e_i)) / (2*eps)]. *)
Definition central_difference (f : vfunc) (x : vec) (eps : R) (i : index_t) : R :=
  (value_of f (upd x i (at_ x i + eps)) - value_of f (upd x i (at_ x i - eps)))
  / (2 * eps).

(** The relative error of one dimension, as claimed and as computed. *)
Definition claimed_relative_error (ga gn : R) : R :=
  Rabs (ga - gn) / Rmax (Rabs ga) 1e-8.

Definition guarded_relative_error (ga gn : R) : R :=
  if Rlt_dec 1e-8 ga then Rabs (ga - gn) / ga else Rabs (ga - gn).

(** The error the checker computes for dimension [i]. *)
Definition dim_error (f : vfunc) (x : vec) (eps : R) (grad_ana : vec)
    (i : index_t) : R :=
  guarded_relative_error (at_ grad_ana i) (central_difference f x eps i).

(** [m] is the maximum of [e 0 .. e (n-1)], and 0 when there is none. *)
Definition is_max_over (n : nat) (e : nat -> R) (m : R) : Prop :=
  (forall i, (i < n)%nat -> e i <= m)
  /\ (n = 0%nat -> m = 0)
  /\ ((0 < n)%nat -> exists i, (i < n)%nat /\ m = e i).

(** [f] returns on every point of [n] coordinates. *)
Definition returns_on (n : nat) (f : vfunc) : Prop :=
  forall y, length y = n -> f y [] <> None.

(** ** Example data *)

(** A 2-to-2 interface node on four edges, as the COMPLEX level aliases
    it: [x_2 = x_0 + x_1 - x_3]. *)
Definition node_2x2 : Global.Node := Global.mkNode 0 false [0; 1]%nat [2; 3]%nat.

Definition aliasing_2x2 : Global.aliasing :=
  Global.mkAliasing
    [Global.mkAlias 0 [] [] None; Global.mkAlias 1 [] [] None;
     Global.mkAlias 2 [0; 1]%nat [3]%nat None; Global.mkAlias 3 [] [] None]
    true [true] Global.COMPLEX
    [0; 1; 3]%nat [Some 0; Some 1; None; Some 2]%nat [0; 0; 0].

(** A simple node between edge 0 and edge 1, with shaping ratio 2. *)
Definition node_1x1 : Global.Node := Global.mkNode 0 true [0]%nat [1]%nat.

Definition inputs_1x1 : Global.inputs :=
  Global.mkInputs [5; 5] [2] [/ 2] [node_1x1] 1 (/ 10).

(** The alias of [aliasing_2x2] once [solve] has recorded the lower
    bound 2 in it. *)
Definition alias_2x2 : Global.VarAlias :=
  Global.mkAlias 2 [0; 1]%nat [3]%nat (Some 2).

(** Two samples with L1 simplicity, open (not circular). *)
Definition inputs_L1 : Shortrow.inputs :=
  Shortrow.mkInputs [0; 0] false false 1 (/ 10).

(** The 2-to-2 problem of four edges as [allocate(4, 1)], the setters and
    [set_aliasing_level(COMPLEX)] leave it, before the first [solve]. *)
Definition inputs_2x2 : Global.inputs :=
  Global.mkInputs [3; 4; 2; 5] [0] [0] [node_2x2] 1 (/ 10).

Definition fresh_aliasing_2x2 : Global.aliasing :=
  Global.mkAliasing (repeat (Global.mkAlias 0 [] [] (Some 0)) 4)
    false [false] Global.COMPLEX [] [] [].

Definition default_config : Global.config :=
  Global.mkConfig true 0 1000 0.0 1e-1 false false.

Definition state_2x2 : Global.state :=
  Global.mkState inputs_2x2 fresh_aliasing_2x2 default_config
    (Global.mkOutputs [0; 0; 0; 0] [0; 0; 0; 0] 0).

(** States with [max_eval = 0] and no noise, one per solver. *)
Definition global_state_nocap : Global.state :=
  Global.mkState inputs_1x1
    (Global.mkAliasing (repeat (Global.mkAlias 0 [] [] (Some 0)) 2)
       false [false] Global.NONE [] [] [])
    (Global.mkConfig true 0 0 0.0 1e-1 false false)
    (Global.mkOutputs [0; 0] [0; 0] 0).

Definition local_state_nocap : Local.state :=
  Local.mkState
    (Local.mkInputs [4; 8] 4 16 2 0.5 1 0.1)
    (Local.mkConfig false 0 0 0 true 0 0 0.0 1e-3 1e-1 0 false)
    (Local.mkOutputs [0; 0] [0; 0] 0).

Definition shortrow_state_nocap : Shortrow.state :=
  Shortrow.mkState inputs_L1
    (Shortrow.mkConfig 0 0 0.0 false)
    (Shortrow.mkOutputs [0; 0] [0; 0] 0).

Definition no_noise : nat -> R := fun _ => 0.

(** One edge with a large target, no node, no aliasing. *)
Definition global_state_4000 : Global.state :=
  Global.mkState
    (Global.mkInputs [4000] [] [] [] 1 (/ 10))
    (Global.mkAliasing [Global.mkAlias 0 [] [] (Some 0)]
       false [] Global.NONE [] [] [])
    default_config
    (Global.mkOutputs [0] [0] 0).

(** One edge with the target 1, below the hard floor 2 of the bounds. *)
Definition global_state_1 : Global.state :=
  Global.mkState
    (Global.mkInputs [1] [] [] [] 1 (/ 10))
    (Global.mkAliasing [Global.mkAlias 0 [] [] (Some 0)]
       false [] Global.NONE [] [] [])
    default_config
    (Global.mkOutputs [0] [0] 0).

(** A 2-to-3 interface node on five edges: at level COMPLEX its alias
    [x_2 = x_0 + x_1 - x_3 - x_4] has two negative terms. *)
Definition node_2x3 : Global.Node :=
  Global.mkNode 0 false [0; 1]%nat [2; 3; 4]%nat.

Definition global_state_2x3 : Global.state :=
  Global.mkState
    (Global.mkInputs [3; 4; 2; 5; 6] [0] [0] [node_2x3] 1 (/ 10))
    (Global.mkAliasing (repeat (Global.mkAlias 0 [] [] (Some 0)) 5)
       false [false] Global.COMPLEX [] [] [])
    default_config
    (Global.mkOutputs [0; 0; 0; 0; 0] [0; 0; 0; 0; 0] 0).

(** A function of one variable with a negative derivative:
    [f(x) = -x^3], [f'(x) = -3x^2]. *)
Definition neg_cube : vfunc := fun ns grad =>
  x <- rd ns 0 ;;
  g <- (if (0 <? length grad)%nat then wr grad 0 (- 3 * x * x) else Some grad) ;;
  Some (- (x * x * x), g).

(** ** Notions for the further properties *)

(** Every alias carries its own position as [index]. *)
Fixpoint numbered_from (s : nat) (al : list Global.VarAlias) : bool :=
  match al with
  | [] => true
  | b :: al' => (Global.alias_index b =? s)%nat && numbered_from (S s) al'
  end.

Definition aliases_numbered (al : list Global.VarAlias) : bool :=
  numbered_from 0 al.

(** What the node loop of [compute_aliases] keeps true of the aliases. *)
Definition alias_inv (al : list Global.VarAlias) : Prop :=
  forall j b, nth_error al j = Some b ->
              Global.alias_index b = j /\ Global.is_valid b = true.

(** Every node index is below the number of nodes allocated, and every
    edge index below the number of edges. *)
Definition nodes_in_range (num_nodes E : nat) (ns : list Global.Node) : bool :=
  forallb (fun n => (Global.index n <? num_nodes)%nat) ns && edges_below E ns.

(** The callback [solve] registers for an interface node. *)
Definition node_callback (level : Global.AliasingLevel) (n : Global.Node)
  : Global.constraint :=
  if Global.is_none level then Global.interface_constraint n
  else Global.reduced_constraint n.

(** An interface node that the aliasing did not reduce. *)
Definition unreduced (red : list bool) (n : Global.Node) : bool :=
  Global.has_interface_constraint n && negb (nth (Global.index n) red true).

(** A problem without edges or nodes. *)
Definition global_state_empty : Global.state :=
  Global.mkState
    (Global.mkInputs [] [] [] [] 1 (/ 10))
    (Global.mkAliasing [] false [] Global.NONE [] [] [])
    default_config
    (Global.mkOutputs [] [] 0).

(** The 2-to-3 node again, started from a perturbed point. *)
Definition global_state_noisy : Global.state :=
  Global.mkState
    (Global.inp_of global_state_2x3)
    (Global.ali_of global_state_2x3)
    (Global.mkConfig true 0 1000 0.0 1e-1 true false)
    (Global.out_of global_state_2x3).


(** The local and the shortrow example started from a perturbed point. *)
Definition local_state_noisy : Local.state :=
  Local.mkState
    (Local.inp_of local_state_nocap)
    (Local.mkConfig false 0 0 0 true 0 0 0.0 1e-3 1e-1 0 true)
    (Local.out_of local_state_nocap).

Definition shortrow_state_noisy : Shortrow.state :=
  Shortrow.mkState inputs_L1
    (Shortrow.mkConfig 0 0 0.0 true)
    (Shortrow.mkOutputs [0; 0] [0; 0] 0).

(** The squared differences of neighbours along a vector. *)
Fixpoint chain_sq (l : vec) : R :=
  match l with
  | x :: ((y :: _) as t) => (x - y) * (x - y) + chain_sq t
  | _ => 0
  end.

(** The simplicity term of the local objective: the chain of the
    variables, tied to [ns_start] in front and to [ns_end] behind. *)
Definition local_Es_spec (i : Local.inputs) (x : vec) : R :=
  (at_ x 0 - Local.ns_start i) * (at_ x 0 - Local.ns_start i)
  + chain_sq x
  + (at_ x (length x - 1) - Local.ns_end i)
    * (at_ x (length x - 1) - Local.ns_end i).

(** The derivative of the local objective in its [k]-th variable. *)
Definition local_grad_spec (i : Local.inputs) (x : vec) (k : index_t) : R :=
  let before := if (k =? 0)%nat then Local.ns_start i else at_ x (k - 1) in
  let after := if (k + 1 =? length x)%nat then Local.ns_end i
               else at_ x (k + 1) in
  Local.w_c i * 2 * (at_ x k - at_ (Local.cdata i) k)
  + Local.w_s i * 2 * (at_ x k - before)
  + Local.w_s i * 2 * (at_ x k - after).

(** What iteration [s] of the loop of [local_sampling] adds to the
    gradient entry [k], and what the iterations from [s] on add to it. *)
Definition local_step_grad (i : Local.inputs) (x : vec) (s k : nat) : R :=
  (if (k =? s)%nat
   then Local.w_c i * 2 * (at_ x s - at_ (Local.cdata i) s)
        + (if (s + 1 <? length x)%nat
           then Local.w_s i * 2 * (at_ x s - at_ x (s + 1)) else 0)
   else 0)
  - (if ((k =? s + 1) && (s + 1 <? length x))%nat
     then Local.w_s i * 2 * (at_ x s - at_ x (s + 1)) else 0).

Definition local_tail_grad (i : Local.inputs) (x : vec) (s k : nat) : R :=
  (if (s <=? k)%nat
   then Local.w_c i * 2 * (at_ x k - at_ (Local.cdata i) k)
        + (if (k + 1 <? length x)%nat
           then Local.w_s i * 2 * (at_ x k - at_ x (k + 1)) else 0)
   else 0)
  - (if (s + 1 <=? k)%nat
     then Local.w_s i * 2 * (at_ x (k - 1) - at_ x k) else 0).

(** The cost [phi] of the step from each entry to the next, summed
    along a vector. *)
Fixpoint chain_cost (phi : R -> R) (l : vec) : R :=
  match l with
  | x :: ((y :: _) as t) => phi (y - x) + chain_cost phi t
  | _ => 0
  end.

(** The simplicity cost of a difference: squared (L2) or absolute (L1). *)
Definition simp_term (i : Shortrow.inputs) (d : R) : R :=
  if Shortrow.simp_L2 i then d * d else Rabs d.

(** The simplicity term of the shortrow objective: the steps between
    neighbours, and the step that closes the circle. *)
Definition sr_Es_spec (i : Shortrow.inputs) (x : vec) : R :=
  chain_cost (simp_term i) x
  + (if Shortrow.circular i
     then simp_term i (at_ x 0 - at_ x (length x - 1)) else 0).

(** The derivative of the shortrow objective with L2 simplicity in its
    [k]-th variable. *)
Definition sr_grad_spec (i : Shortrow.inputs) (x : vec) (k : index_t) : R :=
  Shortrow.w_w i * 2 * (at_ x k - at_ (Shortrow.cdata i) k)
  + (if (0 <? k)%nat
     then Shortrow.w_s i * 2 * (at_ x k - at_ x (k - 1)) else 0)
  - (if (k + 1 <? length x)%nat
     then Shortrow.w_s i * 2 * (at_ x (k + 1) - at_ x k) else 0)
  + (if Shortrow.circular i
     then (if (k =? 0)%nat
           then Shortrow.w_s i * 2 * (at_ x 0 - at_ x (length x - 1)) else 0)
          - (if (k =? length x - 1)%nat
             then Shortrow.w_s i * 2 * (at_ x 0 - at_ x (length x - 1)) else 0)
     else 0).

(** What iteration [s] of the loop of [rs_sampling] adds to the gradient
    entry [k] with L2 simplicity, and what the iterations from [s] on add. *)
Definition sr_step_grad (i : Shortrow.inputs) (x : vec) (s k : nat) : R :=
  (if (k =? s)%nat
   then Shortrow.w_w i * 2 * (at_ x s - at_ (Shortrow.cdata i) s)
        + (if (0 <? s)%nat
           then Shortrow.w_s i * 2 * (at_ x s - at_ x (s - 1)) else 0)
   else 0)
  - (if (k + 1 =? s)%nat
     then Shortrow.w_s i * 2 * (at_ x s - at_ x (s - 1)) else 0).

Definition sr_tail_grad (i : Shortrow.inputs) (x : vec) (s k : nat) : R :=
  (if (s <=? k)%nat
   then Shortrow.w_w i * 2 * (at_ x k - at_ (Shortrow.cdata i) k)
        + (if (0 <? k)%nat
           then Shortrow.w_s i * 2 * (at_ x k - at_ x (k - 1)) else 0)
   else 0)
  - (if ((s <=? k + 1) && (k + 1 <? length x))%nat
     then Shortrow.w_s i * 2 * (at_ x (k + 1) - at_ x k) else 0).

(** Two samples on a circle with L2 simplicity. *)
Definition inputs_L2 : Shortrow.inputs :=
  Shortrow.mkInputs [1; 3] true true 1 (/ 10).

(** The 2-to-3 problem with its variables at the targets. *)
Definition global_state_at_targets : Global.state :=
  Global.mkState
    (Global.inp_of global_state_2x3)
    (Global.ali_of global_state_2x3)
    default_config
    (Global.mkOutputs [3; 4; 2; 5; 6] [0; 0; 0; 0; 0] 0).

(** The gradient entry [k] as [global_interface_constraint] leaves it:
    [-1] on an out-edge, [1] on an in-edge that is no out-edge, and the
    old entry elsewhere. *)
Definition interface_grad_spec (n : Global.Node) (g : vec) (k : index_t) : R :=
  if existsb (Nat.eqb k) (Global.out_edges n) then -1
  else if existsb (Nat.eqb k) (Global.inp_edges n) then 1
  else at_ g k.

(** A vector the local constraints accept: the first entry within a
    factor [F] of [ns_start], every entry within a factor [F] of the one
    before it, and the last entry within a factor [F] of [ns_end]. *)
Definition local_feasible (i : Local.inputs) (x : vec) : Prop :=
  (Local.ns_start i * Local.iF i <= at_ x 0 <= Local.ns_start i * Local.F i)
  /\ (forall k, (k + 1 < length x)%nat ->
        at_ x k * Local.iF i <= at_ x (k + 1) <= at_ x k * Local.F i)
  /\ (Local.ns_end i * Local.iF i <= at_ x (length x - 1)
      <= Local.ns_end i * Local.F i).

(** The value of a local constraint, read off its type. *)
Definition local_constraint_value (i : Local.inputs) (x : vec)
    (b : Local.DynamicBoundConstraint) : R :=
  let k := Local.index b in
  match Local.type b with
  | Local.FirstMin => Local.ns_start i * Local.iF i - at_ x 0
  | Local.FirstMax => - Local.ns_start i * Local.F i + at_ x 0
  | Local.NextMin => at_ x k * Local.iF i - at_ x (k + 1)
  | Local.NextMax => - at_ x k * Local.F i + at_ x (k + 1)
  | Local.LastMin => Local.ns_end i * Local.iF i - at_ x k
  | Local.LastMax => at_ x k - Local.ns_end i * Local.F i
  end.

(** * Properties *)

(** ** Facts about vectors *)

Lemma length_upd {A : Type} (v : list A) i x : length (upd v i x) = length v.
Proof.
  revert i; induction v as [|h t IH]; intros [|j]; simpl; auto.
Qed.

Lemma nth_error_upd_eq {A : Type} (v : list A) i x :
  (i < length v)%nat -> nth_error (upd v i x) i = Some x.
Proof.
  revert i; induction v as [|h t IH]; intros [|j] H; simpl in *; try lia; auto.
  apply IH; lia.
Qed.

Lemma nth_error_upd_neq {A : Type} (v : list A) i j x :
  i <> j -> nth_error (upd v i x) j = nth_error v j.
Proof.
  revert i j; induction v as [|h t IH]; intros [|i] [|j] H; simpl; auto;
    try congruence.
Qed.

Lemma wr_some {A : Type} (v : list A) i x :
  (i < length v)%nat -> wr v i x = Some (upd v i x).
Proof.
  intros H; unfold wr.
  destruct (Nat.ltb_spec i (length v)); [reflexivity | lia].
Qed.

Lemma wr_inv {A : Type} (v v' : list A) i x :
  wr v i x = Some v' -> (i < length v)%nat /\ v' = upd v i x.
Proof.
  unfold wr; destruct (Nat.ltb_spec i (length v)); intros E; inversion E; auto.
Qed.

Lemma dot_upd (v r : vec) k a b x :
  nth_error v k = Some a -> nth_error r k = Some b ->
  dot (upd v k x) r = dot v r + (x - a) * b.
Proof.
  revert r k; induction v as [|h t IH]; intros [|y r'] [|k] Hv Hr;
    simpl in *; try discriminate.
  - inversion Hv; inversion Hr; subst; ring.
  - rewrite (IH r' k Hv Hr); ring.
Qed.

Lemma add_at_dot (v r : vec) k b d :
  (k < length v)%nat -> nth_error r k = Some b ->
  exists v', add_at v k d = Some v' /\ length v' = length v /\
             dot v' r = dot v r + d * b.
Proof.
  intros Hk Hr.
  destruct (nth_error v k) as [a|] eqn:Ea.
  - exists (upd v k (a + d)); unfold add_at, rd; rewrite Ea; simpl.
    rewrite wr_some by assumption; split; [reflexivity|].
    split; [apply length_upd|].
    rewrite (dot_upd v r k a b _ Ea Hr); ring.
  - apply nth_error_None in Ea; lia.
Qed.

Lemma sub_at_dot (v r : vec) k b d :
  (k < length v)%nat -> nth_error r k = Some b ->
  exists v', sub_at v k d = Some v' /\ length v' = length v /\
             dot v' r = dot v r - d * b.
Proof.
  intros Hk Hr.
  destruct (nth_error v k) as [a|] eqn:Ea.
  - exists (upd v k (a - d)); unfold sub_at, rd; rewrite Ea; simpl.
    rewrite wr_some by assumption; split; [reflexivity|].
    split; [apply length_upd|].
    rewrite (dot_upd v r k a b _ Ea Hr); ring.
  - apply nth_error_None in Ea; lia.
Qed.

Lemma dot_zeros (n : nat) (r : vec) : dot (repeat 0 n) r = 0.
Proof.
  revert r; induction n as [|n IH]; intros [|y r]; simpl; auto.
  rewrite IH; ring.
Qed.

(** ** Loops *)

Lemma bind_some {A B : Type} (m : option A) (k : A -> option B) a :
  m = Some a -> bind m k = k a.
Proof. intros ->; reflexivity. Qed.

(** Use [H : m = Some v] on a [bind] whose scrutinee is convertible to
    [m]. *)
Ltac bind_with H :=
  match type of H with
  | ?lhs = Some _ =>
      match goal with
      | |- context [bind ?m _] => change m with lhs; rewrite H; cbn [bind]
      end
  end.

Lemma skipn_nth_cons {A : Type} (l : list A) s v :
  nth_error l s = Some v -> skipn s l = v :: skipn (S s) l.
Proof.
  revert s; induction l as [|h t IH]; intros [|s] H; simpl in *; try discriminate.
  - inversion H; reflexivity.
  - apply IH; assumption.
Qed.

(** A loop that stores [f i] at each index [i] of a range. *)
Lemma for_each_write (f : nat -> option R) :
  forall n s ns,
    (s + n <= length ns)%nat ->
    (forall i, (s <= i < s + n)%nat -> exists v, f i = Some v) ->
    exists x,
      for_each (seq s n) (fun ns i => v <- f i ;; wr ns i v) ns = Some x
      /\ length x = length ns
      /\ (forall i, (s <= i < s + n)%nat -> nth_error x i = f i)
      /\ (forall i, (i < s \/ s + n <= i)%nat -> nth_error x i = nth_error ns i).
Proof.
  induction n as [|n IH]; intros s ns Hlen Hf; simpl.
  - exists ns; repeat split; auto; intros; lia.
  - destruct (Hf s ltac:(lia)) as [v Hv].
    rewrite Hv; simpl. rewrite wr_some by lia.
    destruct (IH (S s) (upd ns s v)) as (x & Hx & Hl & Hin & Hout).
    + rewrite length_upd; lia.
    + intros i Hi; apply Hf; lia.
    + exists x; rewrite Hx; split; [reflexivity|].
      rewrite length_upd in Hl; split; [assumption|]; split.
      * intros i Hi. destruct (Nat.eq_dec i s) as [->|Hne].
        -- rewrite Hout by lia. rewrite nth_error_upd_eq by lia. auto.
        -- apply Hin; lia.
      * intros i Hi. rewrite Hout by lia.
        apply nth_error_upd_neq; lia.
Qed.

(** ** The aliasing mappings *)

Section Mappings.

Import Global.

Lemma mapping_fold_spec :
  forall al r2a0 a2r0,
    let m := fold_left mapping_step al (r2a0, a2r0) in
    length (snd m) = (length a2r0 + length al)%nat
    /\ (length r2a0 <= length (fst m))%nat
    /\ (forall k, (k < length a2r0)%nat ->
                  nth_error (snd m) k = nth_error a2r0 k)
    /\ (forall k b, nth_error al k = Some b -> empty b = true ->
          exists j, nth_error (snd m) (length a2r0 + k) = Some (Some j)
                    /\ (j < length (fst m))%nat).
Proof.
  induction al as [|a al IH]; intros r2a0 a2r0; simpl.
  - repeat split; auto; try lia. intros [|k] b H; discriminate.
  - destruct (empty a) eqn:Ea.
    + specialize (IH (r2a0 ++ [alias_index a]) (a2r0 ++ [Some (length r2a0)])).
      simpl in IH.
      destruct IH as (H1 & H2 & H3 & H4).
      rewrite !length_app in *; simpl in *.
      split; [lia|]. split; [lia|]. split.
      * intros k Hk. rewrite H3 by lia. apply nth_error_app1; assumption.
      * intros [|k] b Hb Hemp; simpl in Hb.
        -- exists (length r2a0). rewrite Nat.add_0_r.
           rewrite H3 by lia. rewrite nth_error_app2 by lia.
           rewrite Nat.sub_diag; simpl. split; [reflexivity | lia].
        -- destruct (H4 k b Hb Hemp) as (j & Hj & Hlt).
           exists j. replace (length a2r0 + S k)%nat
             with (length a2r0 + 1 + k)%nat by lia. auto.
    + specialize (IH r2a0 (a2r0 ++ [None])).
      simpl in IH.
      destruct IH as (H1 & H2 & H3 & H4).
      rewrite !length_app in *; simpl in *.
      split; [lia|]. split; [lia|]. split.
      * intros k Hk. rewrite H3 by lia. apply nth_error_app1; assumption.
      * intros [|k] b Hb Hemp; simpl in Hb.
        -- inversion Hb; subst; congruence.
        -- destruct (H4 k b Hb Hemp) as (j & Hj & Hlt).
           exists j. replace (length a2r0 + S k)%nat
             with (length a2r0 + 1 + k)%nat by lia. auto.
Qed.

Lemma red_index_unaliased (a : aliasing) i b :
  mappings_built a ->
  nth_error (aliases a) i = Some b -> empty b = true ->
  exists k, red_index a i = Some k /\ (k < length (redToAlias a))%nat.
Proof.
  unfold mappings_built, create_mappings; intros Hm Hb He.
  destruct (mapping_fold_spec (aliases a) [] []) as (_ & _ & _ & H4).
  rewrite <- Hm in H4; simpl in H4.
  destruct (H4 i b Hb He) as (k & Hk & Hlt).
  exists k; unfold red_index; rewrite Hk; auto.
Qed.

End Mappings.

Lemma for_each_ext {A S : Type} (f g : S -> A -> option S) :
  (forall s a, f s a = g s a) ->
  forall l s, for_each l f s = for_each l g s.
Proof.
  intros H l; induction l as [|a l IH]; intros s; simpl; auto.
  rewrite H; destruct (g s a); auto.
Qed.

(** ** Gather and scatter are transposes of each other *)

Section Transpose.

Import Global.

Variable a : aliasing.
Variable r : vec.
Hypothesis Hbuilt : mappings_built a.
Hypothesis Hrefs : alias_refs_ok (aliases a) = true.
Hypothesis Hr : length r = length (redToAlias a).

Lemma unaliased_resolves i b :
  nth_error (aliases a) i = Some b -> empty b = true -> resolves a r i.
Proof.
  intros Hb He.
  destruct (red_index_unaliased a i b Hbuilt Hb He) as (k & Hk & Hlt).
  destruct (nth_error r k) as [rk|] eqn:Erk.
  - exists k, rk; auto.
  - apply nth_error_None in Erk; lia.
Qed.

Lemma referenced_resolves i b j :
  nth_error (aliases a) i = Some b -> In j (pos b ++ neg b) -> resolves a r j.
Proof.
  intros Hb Hj. unfold alias_refs_ok in Hrefs.
  rewrite forallb_forall in Hrefs.
  specialize (Hrefs b (nth_error_In _ _ Hb)).
  rewrite forallb_forall in Hrefs. specialize (Hrefs j Hj).
  destruct (nth_error (aliases a) j) as [c|] eqn:Ec; [|discriminate].
  apply (unaliased_resolves j c Ec Hrefs).
Qed.

(** The two loops over [alias.pos], side by side. *)
Lemma pos_loops idxs :
  (forall j, In j idxs -> resolves a r j) ->
  forall v0 rns g, length rns = length (redToAlias a) ->
  exists S v rns',
    for_each idxs (fun val idx =>
      k <- red_index a idx ;; x <- rd r k ;; Some (val + x)) v0 = Some v
    /\ v = v0 + S
    /\ for_each idxs (fun rns idx =>
         k <- red_index a idx ;; add_at rns k g) rns = Some rns'
    /\ length rns' = length (redToAlias a)
    /\ dot rns' r = dot rns r + g * S.
Proof.
  induction idxs as [|j idxs IH]; intros Hall v0 rns g Hlen; simpl.
  - exists 0, v0, rns; repeat split; auto; ring.
  - destruct (Hall j (or_introl eq_refl)) as (k & rk & Hk & Hlt & Hrk).
    rewrite Hk; simpl; rewrite Hrk; simpl.
    destruct (add_at_dot rns r k rk g) as (rns1 & Hadd & Hl1 & Hd1);
      [lia | exact Hrk |].
    rewrite Hadd.
    destruct (IH (fun j' H => Hall j' (or_intror H)) (v0 + rk) rns1 g)
      as (S & v & rns' & Hv & Hve & Hs & Hl & Hd); [lia|].
    exists (rk + S), v, rns'; rewrite Hv, Hs.
    repeat split; auto; [subst v; ring | rewrite Hd, Hd1; ring].
Qed.

(** The two loops over [alias.neg], side by side. *)
Lemma neg_loops idxs :
  (forall j, In j idxs -> resolves a r j) ->
  forall v0 rns g, length rns = length (redToAlias a) ->
  exists S v rns',
    for_each idxs (fun val idx =>
      k <- red_index a idx ;; x <- rd r k ;; Some (val - x)) v0 = Some v
    /\ v = v0 - S
    /\ for_each idxs (fun rns idx =>
         k <- red_index a idx ;; sub_at rns k g) rns = Some rns'
    /\ length rns' = length (redToAlias a)
    /\ dot rns' r = dot rns r - g * S.
Proof.
  induction idxs as [|j idxs IH]; intros Hall v0 rns g Hlen; simpl.
  - exists 0, v0, rns; repeat split; auto; ring.
  - destruct (Hall j (or_introl eq_refl)) as (k & rk & Hk & Hlt & Hrk).
    rewrite Hk; simpl; rewrite Hrk; simpl.
    destruct (sub_at_dot rns r k rk g) as (rns1 & Hsub & Hl1 & Hd1);
      [lia | exact Hrk |].
    rewrite Hsub.
    destruct (IH (fun j' H => Hall j' (or_intror H)) (v0 - rk) rns1 g)
      as (S & v & rns' & Hv & Hve & Hs & Hl & Hd); [lia|].
    exists (rk + S), v, rns'; rewrite Hv, Hs.
    repeat split; auto; [subst v; ring | rewrite Hd, Hd1; ring].
Qed.

(** One iteration of the scatter loop adds [g_i * x_i] to the inner
    product with [r]. *)
Lemma scatter_step i b g gi rns :
  nth_error (aliases a) i = Some b ->
  rd g i = Some gi ->
  length rns = length (redToAlias a) ->
  exists xi rns',
    alias_value a r i = Some xi
    /\ (alias <- nth_error (aliases a) i ;;
        g0 <- rd g i ;;
        if empty alias then
          k <- red_index a i ;; add_at rns k g0
        else
          r1 <- for_each (pos alias) (fun rns idx =>
                  k <- red_index a idx ;; add_at rns k g0) rns ;;
          for_each (neg alias) (fun rns idx =>
                  k <- red_index a idx ;; sub_at rns k g0) r1) = Some rns'
    /\ length rns' = length (redToAlias a)
    /\ dot rns' r = dot rns r + gi * xi.
Proof.
  intros Hb Hg Hlen. unfold alias_value. rewrite Hb, Hg; simpl.
  destruct (empty b) eqn:Eb.
  - destruct (unaliased_resolves i b Hb Eb) as (k & rk & Hk & Hlt & Hrk).
    rewrite Hk; simpl.
    destruct (add_at_dot rns r k rk gi) as (rns1 & Hadd & Hl1 & Hd1);
      [lia | exact Hrk |].
    exists rk, rns1; repeat split; auto; lia.
  - destruct (pos_loops (pos b)) with (v0 := 0) (rns := rns) (g := gi)
      as (Sp & vp & rp & Hvp & Hvpe & Hsp & Hlp & Hdp); auto.
    { intros j Hj; apply (referenced_resolves i b j Hb).
      apply in_or_app; auto. }
    destruct (neg_loops (neg b)) with (v0 := vp) (rns := rp) (g := gi)
      as (Sn & vn & rn & Hvn & Hvne & Hsn & Hln & Hdn); auto.
    { intros j Hj; apply (referenced_resolves i b j Hb).
      apply in_or_app; auto. }
    rewrite Hvp, Hsp; simpl. rewrite Hvn, Hsn.
    exists vn, rn; repeat split; auto.
    rewrite Hdn, Hdp; subst; ring.
Qed.

Lemma alias_value_defined i :
  (i < length (aliases a))%nat -> exists v, alias_value a r i = Some v.
Proof.
  intros Hi.
  destruct (nth_error (aliases a) i) as [b|] eqn:Eb;
    [|apply nth_error_None in Eb; lia].
  destruct (scatter_step i b (repeat 0 (S i)) 0 (repeat 0 (length (redToAlias a))))
    as (xi & _ & Hx & _); auto.
  - unfold rd. rewrite nth_error_repeat by lia; reflexivity.
  - apply repeat_length.
  - exists xi; assumption.
Qed.

Lemma gather_spec ns :
  length ns = length (aliases a) ->
  exists x, from_reduced_to_aliases a r ns = Some x
            /\ length x = length ns
            /\ forall i, (i < length ns)%nat -> nth_error x i = alias_value a r i.
Proof.
  intros Hlen.
  destruct (for_each_write (alias_value a r) (length ns) 0 ns)
    as (x & Hx & Hl & Hin & _); [lia | |].
  - intros i Hi; apply alias_value_defined; lia.
  - exists x; split; [|split; [assumption | intros i Hi; apply Hin; lia]].
    etransitivity; [|exact Hx]. unfold from_reduced_to_aliases, for_range.
    apply for_each_ext; intros s i. unfold alias_value.
    destruct (nth_error (aliases a) i) as [b|]; simpl; [|reflexivity].
    destruct (empty b); simpl.
    + destruct (red_index a i); reflexivity.
    + destruct (for_each (pos b) _ 0); reflexivity.
Qed.

Lemma scatter_loop g x :
  length g = length (aliases a) ->
  length x = length (aliases a) ->
  (forall i, (i < length (aliases a))%nat -> nth_error x i = alias_value a r i) ->
  forall n s rns,
    (s + n = length (aliases a))%nat ->
    length rns = length (redToAlias a) ->
    exists rns',
      for_each (seq s n) (fun rns i =>
        alias <- nth_error (aliases a) i ;;
        g0 <- rd g i ;;
        if empty alias then
          k <- red_index a i ;; add_at rns k g0
        else
          r1 <- for_each (pos alias) (fun rns idx =>
                  k <- red_index a idx ;; add_at rns k g0) rns ;;
          for_each (neg alias) (fun rns idx =>
                  k <- red_index a idx ;; sub_at rns k g0) r1) rns = Some rns'
      /\ length rns' = length (redToAlias a)
      /\ dot rns' r = dot rns r + dot (skipn s g) (skipn s x).
Proof.
  intros Hg Hx Hval. induction n as [|n IH]; intros s rns Hs Hlen.
  - exists rns; simpl; repeat split; auto.
    rewrite (skipn_all2 g) by lia; simpl; ring.
  - destruct (nth_error (aliases a) s) as [b|] eqn:Eb;
      [|apply nth_error_None in Eb; lia].
    destruct (nth_error g s) as [gs|] eqn:Egs;
      [|apply nth_error_None in Egs; lia].
    destruct (scatter_step s b g gs rns Eb Egs Hlen)
      as (xs & rns1 & Hxs & Hstep & Hl1 & Hd1).
    destruct (IH (S s) rns1) as (rns' & Hloop & Hl & Hd); [lia | assumption |].
    exists rns'. cbn [seq for_each]. rewrite Hstep, Hloop.
    repeat split; auto.
    rewrite Hd, Hd1.
    rewrite (skipn_nth_cons g s gs Egs).
    rewrite (skipn_nth_cons x s xs) by (rewrite Hval by lia; exact Hxs).
    simpl; ring.
Qed.

End Transpose.

(** C1. [from_aliases_to_reduced] is the exact linear transpose of
    [from_reduced_to_aliases]: when the mappings are the ones built for the
    aliases and every index referred to by an alias is itself unaliased,
    then for every reduced vector [r] (length R) and every full vector [g]
    (length E), both functions return, and the sum over [i] of
    [g_i * x_i] equals the sum over [j] of [rg_j * r_j], where
    [x = from_reduced_to_aliases(r)] and [rg = from_aliases_to_reduced(g)]
    (whatever the output buffers held before). *)
Theorem from_aliases_to_reduced_is_transpose :
  forall (a : Global.aliasing) (r g ns rns : vec),
    mappings_built a ->
    alias_refs_ok (Global.aliases a) = true ->
    length r = length (Global.redToAlias a) ->
    length g = length (Global.aliases a) ->
    length ns = length (Global.aliases a) ->
    length rns = length (Global.redToAlias a) ->
    exists x rg,
      Global.from_reduced_to_aliases a r ns = Some x
      /\ Global.from_aliases_to_reduced a g rns false = Some rg
      /\ length x = length (Global.aliases a)
      /\ length rg = length (Global.redToAlias a)
      /\ dot g x = dot rg r.
Proof.
  intros a r g ns rns Hb Hrefs Hr Hg Hns Hrns.
  destruct (gather_spec a r Hb Hrefs Hr ns Hns) as (x & Hx & Hlx & Hval).
  destruct (scatter_loop a r Hb Hrefs Hr g x Hg) with
    (n := length g) (s := 0%nat) (rns := repeat 0 (length rns))
    as (rg & Hrg & Hlrg & Hd).
  - lia.
  - intros i Hi; apply Hval; lia.
  - lia.
  - rewrite repeat_length; assumption.
  - exists x, rg. split; [assumption|]. split; [exact Hrg|].
    split; [lia|]. split; [assumption|].
    rewrite Hd, dot_zeros; simpl; ring.
Qed.

Lemma from_aliases_to_reduced_is_transpose_witness :
  exists x rg,
    Global.from_reduced_to_aliases aliasing_2x2 [1; 2; 3] [0; 0; 0; 0] = Some x
    /\ Global.from_aliases_to_reduced aliasing_2x2 [1; 1; 1; 1] [7; 7; 7] false
       = Some rg
    /\ length x = length (Global.aliases aliasing_2x2)
    /\ length rg = length (Global.redToAlias aliasing_2x2)
    /\ dot [1; 1; 1; 1] x = dot rg [1; 2; 3].
Proof.
  apply (from_aliases_to_reduced_is_transpose
           aliasing_2x2 [1; 2; 3] [1; 1; 1; 1] [0; 0; 0; 0] [7; 7; 7]);
    reflexivity.
Defined.

(** ** The global objective and its gradient *)

Lemma at_nth_error (v : vec) k x : nth_error v k = Some x -> at_ v k = x.
Proof. intros H; unfold at_; apply nth_error_nth; assumption. Qed.

Lemma nth_error_at (v : vec) k :
  (k < length v)%nat -> nth_error v k = Some (at_ v k).
Proof.
  intros H. destruct (nth_error v k) as [x|] eqn:E.
  - rewrite (at_nth_error v k x E); reflexivity.
  - apply nth_error_None in E; lia.
Qed.

Lemma at_upd_eq (v : vec) k x : (k < length v)%nat -> at_ (upd v k x) k = x.
Proof. intros H; apply at_nth_error, nth_error_upd_eq; assumption. Qed.

Lemma at_upd_neq (v : vec) k j x : k <> j -> at_ (upd v k x) j = at_ v j.
Proof.
  intros H; unfold at_.
  destruct (Nat.lt_ge_cases j (length v)) as [Hlt|Hge].
  - apply nth_error_nth. rewrite nth_error_upd_neq by assumption.
    apply nth_error_at; assumption.
  - rewrite !nth_overflow; auto. rewrite length_upd; assumption.
Qed.

Lemma occurrences_nil k : occurrences k [] = 0.
Proof. reflexivity. Qed.

Lemma occurrences_cons_eq k idxs : occurrences k (k :: idxs) = 1 + occurrences k idxs.
Proof.
  unfold occurrences. rewrite count_occ_cons_eq by reflexivity.
  rewrite S_INR; apply Rplus_comm.
Qed.

Lemma occurrences_cons_neq k j idxs :
  j <> k -> occurrences k (j :: idxs) = occurrences k idxs.
Proof.
  intros H; unfold occurrences. rewrite count_occ_cons_neq by assumption.
  reflexivity.
Qed.

Lemma loss_Rabs d : loss (Rabs d) = d * d.
Proof.
  unfold loss, Rabs. destruct (Rcase_abs d); ring.
Qed.

(** [for(idx : idxs) acc += ns[idx]]. *)
Lemma sum_loop (x : vec) (idxs : list index_t) :
  (forall j, In j idxs -> (j < length x)%nat) ->
  forall a0, exists v,
    for_each idxs (fun acc idx => y <- rd x idx ;; Some (acc + y)) a0 = Some v
    /\ v = a0 + sum_at x idxs.
Proof.
  induction idxs as [|j idxs IH]; intros Hall a0; simpl.
  - exists a0; split; [reflexivity | unfold sum_at; simpl; ring].
  - unfold rd at 1. rewrite (nth_error_at x j) by (apply Hall; left; reflexivity).
    simpl.
    destruct (IH (fun j' H => Hall j' (or_intror H)) (a0 + at_ x j)) as (v & Hv & He).
    exists v; split; [assumption|].
    subst v; unfold sum_at; simpl; ring.
Qed.

(** [for(idx : idxs) grad[idx] += s]. *)
Lemma add_loop (idxs : list index_t) s :
  forall g, (forall j, In j idxs -> (j < length g)%nat) ->
  exists g',
    for_each idxs (fun g idx => add_at g idx s) g = Some g'
    /\ length g' = length g
    /\ forall k, at_ g' k = at_ g k + s * occurrences k idxs.
Proof.
  induction idxs as [|j idxs IH]; intros g Hall; simpl.
  - exists g; repeat split; auto. intros k; rewrite occurrences_nil; ring.
  - assert (Hj : (j < length g)%nat) by (apply Hall; left; reflexivity).
    unfold add_at at 1, rd. rewrite (nth_error_at g j Hj); simpl.
    rewrite wr_some by assumption.
    destruct (IH (upd g j (at_ g j + s))) as (g' & Hg' & Hl & Hk).
    { intros j' H; rewrite length_upd; apply Hall; right; assumption. }
    exists g'; split; [assumption|]. rewrite length_upd in Hl.
    split; [assumption|]. intros k; rewrite Hk.
    destruct (Nat.eq_dec j k) as [->|Hne].
    + rewrite at_upd_eq by assumption. rewrite occurrences_cons_eq; ring.
    + rewrite at_upd_neq by assumption.
      rewrite occurrences_cons_neq by assumption; ring.
Qed.

(** [for(idx : idxs) grad[idx] -= s]. *)
Lemma sub_loop (idxs : list index_t) s :
  forall g, (forall j, In j idxs -> (j < length g)%nat) ->
  exists g',
    for_each idxs (fun g idx => sub_at g idx s) g = Some g'
    /\ length g' = length g
    /\ forall k, at_ g' k = at_ g k - s * occurrences k idxs.
Proof.
  induction idxs as [|j idxs IH]; intros g Hall; simpl.
  - exists g; repeat split; auto. intros k; rewrite occurrences_nil; ring.
  - assert (Hj : (j < length g)%nat) by (apply Hall; left; reflexivity).
    unfold sub_at at 1, rd. rewrite (nth_error_at g j Hj); simpl.
    rewrite wr_some by assumption.
    destruct (IH (upd g j (at_ g j - s))) as (g' & Hg' & Hl & Hk).
    { intros j' H; rewrite length_upd; apply Hall; right; assumption. }
    exists g'; split; [assumption|]. rewrite length_upd in Hl.
    split; [assumption|]. intros k; rewrite Hk.
    destruct (Nat.eq_dec j k) as [->|Hne].
    + rewrite at_upd_eq by assumption. rewrite occurrences_cons_eq; ring.
    + rewrite at_upd_neq by assumption.
      rewrite occurrences_cons_neq by assumption; ring.
Qed.

Section GlobalObjective.

Import Global.

Variable i : inputs.
Variable x : vec.
Hypothesis Hx : length x = length (cdata i).

(** The loop over the course errors, with a gradient buffer. *)
Lemma course_loop_grad :
  forall n s Ec0 g0,
    (s + n = length (cdata i))%nat ->
    length g0 = length (cdata i) ->
    exists Ec g,
      for_each (seq s n) (fun (st : R * vec) k =>
        let '(Ec, grad) := st in
        y <- rd x k ;;
        c <- rd (cdata i) k ;;
        g1 <- wr grad k (w_c i * 2 * (y - c)) ;;
        Some (Ec + loss (y - c), g1)) (Ec0, g0) = Some (Ec, g)
      /\ Ec = Ec0 + sum_sq_diff (skipn s x) (skipn s (cdata i))
      /\ length g = length (cdata i)
      /\ (forall k, (s <= k < s + n)%nat ->
            at_ g k = w_c i * 2 * (at_ x k - at_ (cdata i) k))
      /\ (forall k, (k < s)%nat -> at_ g k = at_ g0 k).
Proof.
  induction n as [|n IH]; intros s Ec0 g0 Hs Hg.
  - exists Ec0, g0; simpl. split; [reflexivity|].
    rewrite (skipn_all2 x) by lia; simpl.
    repeat split; auto; try ring. intros; lia.
  - cbn [seq for_each]. unfold rd.
    rewrite (nth_error_at x s) by lia.
    rewrite (nth_error_at (cdata i) s) by lia. simpl.
    rewrite wr_some by lia.
    destruct (IH (S s) (Ec0 + loss (at_ x s - at_ (cdata i) s))
                (upd g0 s (w_c i * 2 * (at_ x s - at_ (cdata i) s))))
      as (Ec & g & Hloop & HEc & Hlen & Hin & Hout);
      [lia | rewrite length_upd; assumption |].
    exists Ec, g. split; [exact Hloop|]. split.
    + rewrite HEc.
      rewrite (skipn_nth_cons x s _ (nth_error_at x s ltac:(lia))).
      rewrite (skipn_nth_cons (cdata i) s _ (nth_error_at (cdata i) s ltac:(lia))).
      unfold loss; simpl; ring.
    + split; [assumption|]. split.
      * intros k Hk. destruct (Nat.eq_dec k s) as [->|Hne].
        -- rewrite Hout by lia. apply at_upd_eq; lia.
        -- apply Hin; lia.
      * intros k Hk. rewrite Hout by lia. apply at_upd_neq; lia.
Qed.

Hypothesis Hedges : edges_below (length (cdata i)) (nodes i) = true.

Lemma edges_in_range n j :
  In n (nodes i) -> In j (inp_edges n ++ out_edges n) ->
  (j < length (cdata i))%nat.
Proof.
  intros Hn Hj. unfold edges_below in Hedges.
  rewrite forallb_forall in Hedges. specialize (Hedges n Hn).
  rewrite forallb_forall in Hedges. apply Nat.ltb_lt, Hedges; assumption.
Qed.

(** The loop over the nodes. *)
Lemma node_loop :
  forall ns, (forall n, In n ns -> In n (nodes i)) ->
  forall Es0 g0,
    length g0 = length (cdata i) ->
    exists Es g,
      for_each ns (fun (s : R * vec) node =>
        let '(Es, grad) := s in
        if negb (simple node) || isnil (inp_edges node) || isnil (out_edges node)
        then Some s
        else
          inp <- for_each (inp_edges node) (fun acc idx =>
                   y <- rd x idx ;; Some (acc + y)) 0 ;;
          out <- for_each (out_edges node) (fun acc idx =>
                   y <- rd x idx ;; Some (acc + y)) 0 ;;
          let diff := inp - out in
          let range := Rabs diff in
          let Es1 := Es + loss range in
          if isnil grad then Some (Es1, grad)
          else
            let s_grad := w_s i * 2 * diff in
            g1 <- for_each (inp_edges node) (fun g idx => add_at g idx s_grad) grad ;;
            g2 <- for_each (out_edges node) (fun g idx => sub_at g idx s_grad) g1 ;;
            Some (Es1, g2)) (Es0, g0) = Some (Es, g)
      /\ Es = Es0 + Es_spec x ns
      /\ length g = length (cdata i)
      /\ forall k,
           at_ g k = at_ g0 k
             + sum_list (map (fun n =>
                 w_s i * 2 * node_diff x n * occurrences k (inp_edges n)
                 - w_s i * 2 * node_diff x n * occurrences k (out_edges n))
                 (filter node_active ns)).
Proof.
  induction ns as [|n ns IH]; intros Hsub Es0 g0 Hg.
  - exists Es0, g0; simpl; unfold Es_spec; simpl.
    repeat split; auto; intros; ring.
  - assert (Hn : In n (nodes i)) by (apply Hsub; left; reflexivity).
    assert (Hrest : forall n', In n' ns -> In n' (nodes i))
      by (intros n' H; apply Hsub; right; assumption).
    cbn [for_each].
    destruct (node_active n) eqn:Hact.
    + (* a simple node with inputs and outputs *)
      unfold node_active in Hact.
      apply andb_prop in Hact; destruct Hact as [Hact Hout].
      apply andb_prop in Hact; destruct Hact as [Hsimple Hinp].
      rewrite Hsimple. apply negb_true_iff in Hinp, Hout.
      rewrite Hinp, Hout. cbn [negb orb].
      destruct (sum_loop x (inp_edges n)) with (a0 := 0) as (vi & Hvi & Evi).
      { intros j Hj; rewrite Hx; apply (edges_in_range n j Hn).
        apply in_or_app; auto. }
      destruct (sum_loop x (out_edges n)) with (a0 := 0) as (vo & Hvo & Evo).
      { intros j Hj; rewrite Hx; apply (edges_in_range n j Hn).
        apply in_or_app; auto. }
      rewrite Hvi, Hvo; cbn [bind].
      assert (Hdiff : vi - vo = node_diff x n)
        by (unfold node_diff; subst; ring).
      assert (Hnonnil : isnil g0 = false).
      { destruct (inp_edges n) as [|j l] eqn:Ej; [discriminate|].
        assert (j < length (cdata i))%nat
          by (apply (edges_in_range n j Hn); rewrite Ej; left; reflexivity).
        destruct g0; simpl in *; [lia | reflexivity]. }
      rewrite Hnonnil.
      destruct (add_loop (inp_edges n) (w_s i * 2 * (vi - vo)) g0)
        as (g1 & Hg1 & Hl1 & Hk1).
      { intros j Hj; rewrite Hg; apply (edges_in_range n j Hn).
        apply in_or_app; auto. }
      destruct (sub_loop (out_edges n) (w_s i * 2 * (vi - vo)) g1)
        as (g2 & Hg2 & Hl2 & Hk2).
      { intros j Hj; rewrite Hl1, Hg; apply (edges_in_range n j Hn).
        apply in_or_app; auto. }
      rewrite Hg1; cbn [bind]. rewrite Hg2; cbn [bind].
      destruct (IH Hrest (Es0 + loss (Rabs (vi - vo))) g2)
        as (Es & g & Hloop & HEs & Hlen & Hk); [lia|].
      exists Es, g. split; [exact Hloop|]. split.
      * rewrite HEs, loss_Rabs, Hdiff. unfold Es_spec; simpl.
        unfold node_active at 2. rewrite Hsimple, Hinp, Hout; simpl. ring.
      * split; [assumption|]. intros k. rewrite Hk, Hk2, Hk1, Hdiff. simpl.
        unfold node_active at 2. rewrite Hsimple, Hinp, Hout; simpl. ring.
    + (* no error associated *)
      assert (Hskip : negb (simple n) || isnil (inp_edges n)
                      || isnil (out_edges n) = true).
      { unfold node_active in Hact.
        destruct (simple n), (isnil (inp_edges n)), (isnil (out_edges n));
          simpl in *; congruence. }
      rewrite Hskip.
      destruct (IH Hrest Es0 g0 Hg) as (Es & g & Hloop & HEs & Hlen & Hk).
      exists Es, g. split; [exact Hloop|]. split.
      * rewrite HEs. unfold Es_spec; simpl. rewrite Hact. reflexivity.
      * split; [assumption|]. intros k; rewrite Hk; simpl. rewrite Hact.
        reflexivity.
Qed.

End GlobalObjective.

(** C2. For an input [x] of length E with [cdata] of length E, all node
    edge indices below E and a caller-zeroed gradient array of length E,
    [global_sampling] returns [Ec*w_c + Es*w_s], where [Ec] is the sum of
    the [(x_i - c_i)^2] and [Es] the sum of [(inp - out)^2] over exactly the
    simple nodes with an in-edge and an out-edge; and the final gradient
    is [w_c*2*(x_i - c_i)] plus, for each such node with [diff = inp - out],
    [+w_s*2*diff] per occurrence of [i] among its in-edges and
    [-w_s*2*diff] per occurrence among its out-edges. *)
Theorem global_sampling_value_and_gradient :
  forall (i : Global.inputs) (x : vec),
    length x = length (Global.cdata i) ->
    edges_below (length (Global.cdata i)) (Global.nodes i) = true ->
    exists E grad,
      Global.global_sampling i x (repeat 0 (length (Global.cdata i)))
        = Some (E, grad)
      /\ E = sum_sq_diff x (Global.cdata i) * Global.w_c i
             + Es_spec x (Global.nodes i) * Global.w_s i
      /\ length grad = length (Global.cdata i)
      /\ forall k, (k < length (Global.cdata i))%nat ->
                   at_ grad k = global_grad_spec i x k.
Proof.
  intros i x Hx Hedges. unfold Global.global_sampling, for_range.
  destruct (Nat.eq_dec (length (Global.cdata i)) 0) as [HE|HE].
  - (* no variable at all: the branch without gradient *)
    destruct (node_loop i x Hx Hedges) with (ns := Global.nodes i) (Es0 := 0)
      (g0 := @nil R) as (Es & g & Hloop & HEs & Hlen & Hk); auto.
    rewrite HE.
    cbn [repeat length Nat.ltb Nat.leb seq for_each bind].
    bind_with Hloop.
    exists (0 * Global.w_c i + Es * Global.w_s i), g.
    split; [reflexivity|]. split.
    + destruct x; [|simpl in Hx; lia]. rewrite HEs; simpl; ring.
    + split; [lia | intros; lia].
  - rewrite repeat_length.
    destruct (Nat.ltb_spec 0 (length (Global.cdata i))) as [_|Hz]; [|lia].
    destruct (course_loop_grad i x Hx (length (Global.cdata i)) 0 0
                (repeat 0 (length (Global.cdata i))))
      as (Ec & g & Hloop & HEc & Hlen & Hin & _);
      [lia | apply repeat_length |].
    bind_with Hloop.
    destruct (node_loop i x Hx Hedges) with (ns := Global.nodes i) (Es0 := 0)
      (g0 := g) as (Es & g' & Hloop' & HEs & Hlen' & Hk); auto.
    bind_with Hloop'.
    exists (Ec * Global.w_c i + Es * Global.w_s i), g'.
    split; [reflexivity|]. split.
    + rewrite HEc, HEs; simpl; ring.
    + split; [assumption|]. intros k Hlt.
      rewrite Hk, Hin by lia. reflexivity.
Qed.

Lemma global_sampling_value_and_gradient_witness :
  exists E grad,
    Global.global_sampling inputs_1x1 [6; 4]
      (repeat 0 (length (Global.cdata inputs_1x1))) = Some (E, grad)
    /\ E = sum_sq_diff [6; 4] (Global.cdata inputs_1x1) * Global.w_c inputs_1x1
           + Es_spec [6; 4] (Global.nodes inputs_1x1) * Global.w_s inputs_1x1
    /\ length grad = length (Global.cdata inputs_1x1)
    /\ forall k, (k < length (Global.cdata inputs_1x1))%nat ->
                 at_ grad k = global_grad_spec inputs_1x1 [6; 4] k.
Proof.
  apply (global_sampling_value_and_gradient inputs_1x1 [6; 4]); reflexivity.
Defined.

(** ** Constraint gradients: overwritten or accumulated *)

(** C3 (fails on the code).  The interface-equality constraint overwrites
    the gradient entries it touches, but [global_urange_constraint],
    [global_lrange_constraint] and [global_alias_constraint] update them with
    [+=] and [-=]: on a buffer that holds 5 and 7 beforehand, the upper-range
    constraint leaves [5 + 1] and [7 - w] instead of [1] and [-w], and
    likewise for the other two. *)
Theorem range_and_alias_constraints_accumulate :
  Global.global_interface_constraint [3; 4; 1; 2] [5; 7; 5; 7] node_2x2
    = Some (0 + 3 + 4 - 1 - 2, [1; 1; -1; -1])
  /\ Global.global_urange_constraint inputs_1x1 [3; 4] [5; 7] node_1x1
     = Some (3 - 4 * 2, [5 + 1; 7 - 2])
  /\ Global.global_lrange_constraint inputs_1x1 [3; 4] [5; 7] node_1x1
     = Some (4 * / 2 - 3, [5 - 1; 7 + / 2])
  /\ Global.global_alias_constraint aliasing_2x2 [3; 4; 2] [5; 7; 5] alias_2x2
     = Some (2 - 3 - 4 + 2, [5 - 1; 7 - 1; 5 + 1])
  /\ 5 + 1 <> 1 /\ 7 - 2 <> - 2
  /\ 5 - 1 <> - 1 /\ 7 + / 2 <> / 2.
Proof.
  repeat split; try reflexivity; lra.
Qed.

(** ** The shortrow objective with L1 simplicity *)

(** C4 (fails on the code).  With [simp_L2 = false], [simplicity] assigns
    [grad[i0] = w_s*sign] and [grad[i1] = -w_s*sign] instead of adding them:
    at [x = (1, 0)], [c = (0, 0)], [w_w = 1], [w_s = 1/10] the value is
    [1 + 1/10] as claimed, but the gradient left in a zeroed buffer is
    [(1/10, -1/10)], where the accumulated gradient is
    [(2 + 1/10, -1/10)]: the accuracy term of position 0 is lost. *)
Theorem rs_sampling_L1_overwrites_gradient :
  exists E grad,
    Shortrow.rs_sampling inputs_L1 [1; 0] [0; 0] = Some (E, grad)
    /\ E = 1 + / 10
    /\ at_ grad 0 = / 10
    /\ at_ grad 1 = - / 10
    /\ at_ grad 0 <> 1 * 2 * (1 - 0) + / 10.
Proof.
  unfold Shortrow.rs_sampling, for_range; cbn.
  unfold Shortrow.simplicity; cbn.
  destruct (Rge_dec (0 - 1) 0) as [H|H]; [lra|].
  cbn. eexists; eexists. split; [reflexivity|].
  unfold at_, loss; cbn. repeat split; lra.
Qed.

(** ** Aliasing at level COMPLEX *)

Lemma configure_stopping_constraints {C : Type} (o : opt C) ftol n t cap :
  equality_constraints (configure_stopping o ftol n t cap) = equality_constraints o
  /\ inequality_constraints (configure_stopping o ftol n t cap)
     = inequality_constraints o.
Proof.
  unfold configure_stopping.
  destruct (Req_dec_T ftol 0), (N.eqb n 0), (Req_dec_T t 0); split; reflexivity.
Qed.

(** C7 (fails on the code).  For the node with in-edges 0, 1 and out-edges
    2, 3, [compute_aliases] at level COMPLEX does produce
    [aliases[2] = {pos: [0, 1], neg: [3]}], but [has_constraint] of that
    alias is [false], because it tests [neg.size() > 1]; and [solve] then
    registers no inequality for it, although constraints are in use. *)
Theorem complex_alias_of_2x2_has_no_constraint :
  exists a',
    Global.compute_aliases inputs_2x2 fresh_aliasing_2x2 = Some a'
    /\ nth_error (Global.aliases a') 2
       = Some (Global.mkAlias 2 [0; 1]%nat [3]%nat None)
    /\ Global.reduced a' = [true]
    /\ Global.has_constraint (Global.mkAlias 2 [0; 1]%nat [3]%nat None) = false
    /\ exists st' o,
         Global.solve_prepare state_2x2 (fun _ => 0) = Some (st', o)
         /\ inequality_constraints o = []
         /\ equality_constraints o = [].
Proof.
  eexists. split; [reflexivity|].
  split; [reflexivity|]. split; [reflexivity|]. split; [reflexivity|].
  eexists; eexists. split; [reflexivity|].
  cbn. split.
  - rewrite (proj2 (configure_stopping_constraints _ _ _ _ _)); reflexivity.
  - rewrite (proj1 (configure_stopping_constraints _ _ _ _ _)); reflexivity.
Qed.

(** ** The drivers: what [solve] hands to the optimizer *)

Lemma same_settings_refl {C : Type} (o : opt C) : same_settings o o.
Proof. repeat split. Qed.

Lemma same_settings_trans {C : Type} (o1 o2 o3 : opt C) :
  same_settings o1 o2 -> same_settings o2 o3 -> same_settings o1 o3.
Proof.
  unfold same_settings; intros (A1 & A2 & A3) (B1 & B2 & B3).
  repeat split; congruence.
Qed.

Lemma add_equality_same {C : Type} (o : opt C) c tol :
  same_settings o (add_equality_constraint o c tol).
Proof. repeat split. Qed.

Lemma add_inequality_same {C : Type} (o : opt C) c tol :
  same_settings o (add_inequality_constraint o c tol).
Proof. repeat split. Qed.

Lemma configure_stopping_spec {C : Type} (o : opt C) ftol n t cap :
  maxeval (configure_stopping o ftol n t cap) = Some (eval_cap cap n)
  /\ lower_bounds (configure_stopping o ftol n t cap) = lower_bounds o
  /\ upper_bounds (configure_stopping o ftol n t cap) = upper_bounds o.
Proof.
  unfold configure_stopping, eval_cap.
  destruct (Req_dec_T ftol 0), (N.eqb n 0), (Req_dec_T t 0);
    repeat split; reflexivity.
Qed.

Section GlobalDriver.

Import Global.

Lemma add_node_constraints_same none a tol ns :
  forall o o', add_node_constraints none a tol ns o = Some o' ->
               same_settings o o'.
Proof.
  unfold add_node_constraints.
  induction ns as [|n ns IH]; intros o o' H; simpl in H.
  - inversion H; apply same_settings_refl.
  - destruct (has_interface_constraint n).
    + destruct (nth_error (reduced a) (index n)) as [r|]; simpl in H;
        [|discriminate].
      destruct r; simpl in H.
      * apply IH; assumption.
      * eapply same_settings_trans; [apply add_equality_same|].
        apply IH; eassumption.
    + apply IH; assumption.
Qed.

Lemma add_alias_constraints_spec mb tol al :
  forall done o,
    let r := fold_left (fun (s : list VarAlias * opt constraint) alias =>
      if has_constraint alias then
        let a1 := set_min_bound alias mb in
        (fst s ++ [a1], add_inequality_constraint (snd s) (alias_constraint a1) tol)
      else (fst s ++ [alias], snd s)) al (done, o) in
    same_settings o (snd r)
    /\ (forall b, In b (fst r) ->
          In b done
          \/ (has_constraint b = true -> min_bound b = Some mb)).
Proof.
  induction al as [|a al IH]; intros done o; simpl.
  - split; [apply same_settings_refl | auto].
  - destruct (has_constraint a) eqn:Hc; simpl.
    + destruct (IH (done ++ [set_min_bound a mb])
                  (add_inequality_constraint o
                     (alias_constraint (set_min_bound a mb)) tol))
        as (Hs & Hin).
      split.
      * eapply same_settings_trans; [apply add_inequality_same | exact Hs].
      * intros b Hb. destruct (Hin b Hb) as [Hd|Hd]; [|auto].
        apply in_app_or in Hd. destruct Hd as [Hd|[<-|[]]]; auto.
    + destruct (IH (done ++ [a]) o) as (Hs & Hin).
      split; [exact Hs|].
      intros b Hb. destruct (Hin b Hb) as [Hd|Hd]; [|auto].
      apply in_app_or in Hd. destruct Hd as [Hd|[<-|[]]]; auto.
      right; congruence.
Qed.

Lemma add_range_constraints_same tol ns :
  forall o, same_settings o (add_range_constraints tol ns o).
Proof.
  unfold add_range_constraints.
  induction ns as [|n ns IH]; intros o; simpl.
  - apply same_settings_refl.
  - destruct (has_range_constraint n); [|apply IH].
    eapply same_settings_trans; [|apply IH].
    eapply same_settings_trans; apply add_inequality_same.
Qed.

(** What a successful [solve_prepare] leaves in the state and in the
    optimizer. *)
Lemma solve_prepare_inv st noise st' o :
  solve_prepare st noise = Some (st', o) ->
  let i := inp_of st in
  let c := cfg_of st in
  let pb := problem_bounds (cdata i) in
  inp_of st' = i
  /\ cfg_of st' = c
  /\ maxeval o = Some (eval_cap 1000 (max_eval c))
  /\ lower_bounds o = Some (Uniform (fst pb))
  /\ upper_bounds o = Some (Uniform (snd pb))
  /\ (use_constraints c = true ->
      forall b, In b (aliases (ali_of st')) -> has_constraint b = true ->
                min_bound b = Some (fst pb))
  /\ nvars (out_of st') = initial_guess c (cdata i) (fst pb) (snd pb) noise
  /\ (is_none (aliasing_level (ali_of st')) = false ->
      exists rv0,
        set_reduced_from_aliases (ali_of st') (nvars (out_of st')) rv0
        = Some (rvars (ali_of st'))).
Proof.
  intros H i c pb. unfold solve_prepare in H. fold i c in H.
  destruct (compute_aliases i (ali_of st)) as [a1|] eqn:Ha;
    cbn [bind] in H; [|discriminate].
  fold pb in H. destruct pb as [mn mx] eqn:Hpb.
  set (o1 := configure_stopping _ _ _ _ _) in H.
  set (o2 := set_upper_bounds _ _) in H.
  assert (Ho2 : maxeval o2 = Some (eval_cap 1000 (max_eval c))
                /\ lower_bounds o2 = Some (Uniform mn)
                /\ upper_bounds o2 = Some (Uniform mx)).
  { subst o2 o1; cbn.
    split; [|split; reflexivity].
    apply (proj1 (configure_stopping_spec _ _ _ _ _)). }
  destruct ((if use_constraints c
             then o3 <- add_node_constraints (is_none (aliasing_level a1)) a1
                          (constraint_tol c) (nodes i) o2 ;;
                  Some (add_alias_constraints mn (constraint_tol c) (aliases a1) o3)
             else Some (aliases a1, o2))) as [s3|] eqn:Hs3;
    cbn [bind] in H; [|discriminate].
  assert (Hs3' : same_settings o2 (snd s3)
                 /\ (use_constraints c = true ->
                     forall b, In b (fst s3) -> has_constraint b = true ->
                               min_bound b = Some mn)).
  { destruct (use_constraints c).
    - destruct (add_node_constraints _ a1 _ _ o2) as [o3|] eqn:Hn;
        cbn [bind] in Hs3; [|discriminate].
      inversion Hs3; subst s3; clear Hs3.
      destruct (add_alias_constraints_spec mn (constraint_tol c) (aliases a1) [] o3)
        as (Hsame & Hin).
      split.
      + eapply same_settings_trans;
          [eapply add_node_constraints_same; eassumption | exact Hsame].
      + intros _ b Hb Hc. destruct (Hin b Hb) as [[]|Hm]; auto.
    - inversion Hs3; subst s3; split;
        [apply same_settings_refl | discriminate]. }
  destruct Hs3' as (Hsame & Hmb).
  set (o4 := if global_shaping c then _ else _) in H.
  assert (Ho4 : same_settings o2 o4).
  { subst o4. destruct (global_shaping c); [|exact Hsame].
    eapply same_settings_trans; [exact Hsame|].
    apply add_range_constraints_same. }
  destruct Ho4 as (E1 & E2 & E3). destruct Ho2 as (F1 & F2 & F3).
  destruct (is_none (aliasing_level a1)) eqn:Hnone; cbn [bind] in H.
  - inversion H; subst st' o; clear H. cbn.
    repeat split; try congruence; auto.
  - destruct (set_reduced_from_aliases _ _ _) as [rv|] eqn:Hrv;
      cbn [bind] in H; [|discriminate].
    inversion H; subst st' o; clear H. cbn.
    repeat split; try congruence; auto.
    intros _. eexists. exact Hrv.
Qed.

End GlobalDriver.

(** The converse reading of a loop that stores [f i] at each index. *)
Lemma for_each_write_inv (f : nat -> option R) :
  forall n s ns x,
    for_each (seq s n) (fun ns i => v <- f i ;; wr ns i v) ns = Some x ->
    length x = length ns
    /\ (forall i, (s <= i < s + n)%nat ->
          exists v, f i = Some v /\ nth_error x i = Some v)
    /\ (forall i, (i < s \/ s + n <= i)%nat -> nth_error x i = nth_error ns i).
Proof.
  induction n as [|n IH]; intros s ns x H; simpl in H.
  - inversion H; subst. repeat split; auto. intros; lia.
  - destruct (f s) as [v|] eqn:Hv; simpl in H; [|discriminate].
    destruct (wr ns s v) as [ns1|] eqn:Hw; [|discriminate].
    apply wr_inv in Hw. destruct Hw as [Hlt ->].
    destruct (IH _ _ _ H) as (Hl & Hin & Hout).
    rewrite length_upd in Hl. split; [assumption|]. split.
    + intros i Hi. destruct (Nat.eq_dec i s) as [->|Hne].
      * exists v. split; [assumption|].
        rewrite Hout by lia. apply nth_error_upd_eq; assumption.
      * apply Hin; lia.
    + intros i Hi. rewrite Hout by lia. apply nth_error_upd_neq; lia.
Qed.

Section ShortrowDriver.

Import Shortrow.

Lemma sr_solve_prepare_inv st noise st' o :
  solve_prepare st noise = Some (st', o) ->
  let i := inp_of st in
  let c := cfg_of st in
  inp_of st' = i
  /\ cfg_of st' = c
  /\ maxeval o = Some (eval_cap 100 (max_eval c))
  /\ lower_bounds o = Some (Uniform 0)
  /\ (gaussian_start c = false ->
      length (nvars (out_of st')) = length (nvars (out_of st))
      /\ forall k, (k < length (nvars (out_of st)))%nat ->
           exists ck, nth_error (cdata i) k = Some ck
                      /\ nth_error (nvars (out_of st')) k = Some (Rmax 0 ck)).
Proof.
  intros H i c. unfold solve_prepare in H. fold i c in H.
  destruct (initial_values i (nvars (out_of st))) as [nv|] eqn:Hnv;
    cbn [bind] in H; [|discriminate].
  set (o1 := configure_stopping _ _ _ _ _) in H.
  assert (Hcap : maxeval o1 = Some (eval_cap 100 (max_eval c)))
    by apply (proj1 (configure_stopping_spec _ _ _ _ _)).
  destruct (gaussian_start c) eqn:Hg.
  - destruct (perturb nv noise) as [nv1|]; cbn [bind] in H; [|discriminate].
    inversion H; subst st' o; cbn.
    repeat split; auto; discriminate.
  - cbn [bind] in H. inversion H; subst st' o; cbn.
    do 4 (split; [auto|]). intros _.
    unfold initial_values, for_range in Hnv.
    rewrite (for_each_ext _ (fun ns k =>
               v <- (ck <- rd (cdata i) k ;; Some (Rmax 0.0 ck)) ;; wr ns k v))
      in Hnv.
    + apply for_each_write_inv in Hnv. destruct Hnv as (Hl & Hin & _).
      split; [exact Hl|].
      intros k Hk. destruct (Hin k ltac:(lia)) as (v & Hv & Hx).
      unfold rd in Hv.
      destruct (nth_error (cdata i) k) as [ck|]; [|discriminate].
      exists ck. split; [reflexivity|]. simpl in Hv.
      replace 0.0 with 0 in Hv by lra. congruence.
    + intros s k. destruct (rd (cdata i) k); reflexivity.
Qed.

End ShortrowDriver.

Lemma clip_by_tests lo hi c :
  lo <= hi ->
  (if Rlt_dec c lo then lo else if Rlt_dec hi c then hi else c) = clip lo hi c.
Proof.
  intros H. unfold clip, Rmax, Rmin.
  destruct (Rlt_dec c lo), (Rlt_dec hi c), (Rle_dec hi c);
    try destruct (Rle_dec lo hi); try destruct (Rle_dec lo c); lra.
Qed.

Section LocalDriver.

Import Local.

Variable i : inputs.
Variable n : nat.

Lemma bounds_loop :
  forall m s lo0 hi0 nv0 lo hi nv,
    for_each (seq s m) (fun (st : vec * vec * vec) k =>
      let '(ns_min, ns_max, nvars) := st in
      cw <- rd (cdata i) k ;;
      let nss_min := Rmax 2.0 (ns_start i * iF i ^ (k + 1)) in
      let nss_max := Rmin 1e4 (ns_start i * F i ^ (k + 1)) in
      let nse_min := Rmax 2.0 (ns_end i * iF i ^ (n - k)) in
      let nse_max := Rmin 1e4 (ns_end i * F i ^ (n - k)) in
      let lo := Rmax nss_min nse_min in
      let hi := Rmin nss_max nse_max in
      mn <- wr ns_min k lo ;;
      mx <- wr ns_max k hi ;;
      let cw1 := if Rlt_dec cw lo then lo
                 else if Rlt_dec hi cw then hi
                 else cw in
      nv1 <- wr nvars k cw1 ;;
      Some (mn, mx, nv1)) (lo0, hi0, nv0) = Some (lo, hi, nv) ->
    (length lo = length lo0 /\ length hi = length hi0
     /\ length nv = length nv0)
    /\ (forall k, (s <= k < s + m)%nat ->
          exists cw,
            nth_error (cdata i) k = Some cw
            /\ nth_error lo k = Some (local_lb i n k)
            /\ nth_error hi k = Some (local_ub i n k)
            /\ nth_error nv k
               = Some (if Rlt_dec cw (local_lb i n k) then local_lb i n k
                       else if Rlt_dec (local_ub i n k) cw then local_ub i n k
                       else cw))
    /\ (forall k, (k < s)%nat ->
          nth_error lo k = nth_error lo0 k
          /\ nth_error hi k = nth_error hi0 k
          /\ nth_error nv k = nth_error nv0 k).
Proof.
  induction m as [|m IH]; intros s lo0 hi0 nv0 lo hi nv H.
  - simpl in H; inversion H; subst. repeat split; auto. intros; lia.
  - cbn [seq for_each] in H.
    destruct (rd (cdata i) s) as [cw|] eqn:Hcw; cbn [bind] in H; [|discriminate].
    cbv zeta in H. fold (local_lb i n s) in H. fold (local_ub i n s) in H.
    destruct (wr lo0 s (local_lb i n s)) as [lo1|] eqn:Hlo;
      cbn [bind] in H; [|discriminate].
    destruct (wr hi0 s (local_ub i n s)) as [hi1|] eqn:Hhi;
      cbn [bind] in H; [|discriminate].
    destruct (wr nv0 s _) as [nv1|] eqn:Hnv; cbn [bind] in H; [|discriminate].
    apply wr_inv in Hlo, Hhi, Hnv.
    destruct Hlo as [Llo ->], Hhi as [Lhi ->], Hnv as [Lnv ->].
    destruct (IH _ _ _ _ _ _ _ H) as ((L1 & L2 & L3) & Hin & Hout).
    rewrite length_upd in L1, L2, L3.
    split; [auto|]. split.
    + intros k Hk. destruct (Nat.eq_dec k s) as [->|Hne].
      * exists cw. destruct (Hout s ltac:(lia)) as (O1 & O2 & O3).
        rewrite O1, O2, O3, !nth_error_upd_eq by assumption. auto.
      * apply Hin; lia.
    + intros k Hk. destruct (Hout k ltac:(lia)) as (O1 & O2 & O3).
      rewrite O1, O2, O3, !nth_error_upd_neq by lia. auto.
Qed.

End LocalDriver.

Lemma fold_add_inequality_same {C : Type} tol (cs : list C) :
  forall o : opt C,
    same_settings o
      (fold_left (fun o constr => add_inequality_constraint o constr tol) cs o).
Proof.
  induction cs as [|b cs IHcs]; intros o; simpl.
  - apply same_settings_refl.
  - eapply same_settings_trans; [apply add_inequality_same | apply IHcs].
Qed.

Section LocalPrepare.

Import Local.

Lemma local_solve_prepare_inv st noise st' o :
  solve_prepare st noise = Some (st', o) ->
  let i := inp_of st in
  let c := cfg_of st in
  let n := length (nvars (out_of st)) in
  inp_of st' = i
  /\ cfg_of st' = c
  /\ maxeval o = Some (eval_cap 1000 (max_eval c))
  /\ exists lb ub,
       lower_bounds o = Some (PerVariable lb)
       /\ upper_bounds o = Some (PerVariable ub)
       /\ length lb = n /\ length ub = n
       /\ (forall k, (k < n)%nat ->
             nth_error lb k = Some (local_lb i n k)
             /\ nth_error ub k = Some (local_ub i n k))
       /\ (gaussian_start c = false ->
           length (nvars (out_of st')) = n
           /\ forall k, (k < n)%nat ->
                exists cw,
                  nth_error (cdata i) k = Some cw
                  /\ nth_error (nvars (out_of st')) k
                     = Some (if Rlt_dec cw (local_lb i n k) then local_lb i n k
                             else if Rlt_dec (local_ub i n k) cw
                                  then local_ub i n k
                             else cw)).
Proof.
  intros H i c n. unfold solve_prepare in H. fold i c n in H.
  destruct (bounds_and_init i (nvars (out_of st))) as [[[lb ub] nv]|] eqn:Hb;
    cbn [bind] in H; [|discriminate].
  unfold bounds_and_init, for_range in Hb. fold n in Hb.
  apply bounds_loop in Hb.
  destruct Hb as ((L1 & L2 & L3) & Hin & _).
  rewrite repeat_length in L1, L2. fold n in L3.
  set (o1 := configure_stopping _ _ _ _ _) in H.
  set (o2 := set_upper_bounds _ _) in H.
  assert (Ho2 : maxeval o2 = Some (eval_cap 1000 (max_eval c))
                /\ lower_bounds o2 = Some (PerVariable lb)
                /\ upper_bounds o2 = Some (PerVariable ub)).
  { subst o2 o1; cbn. split; [|split; reflexivity].
    apply (proj1 (configure_stopping_spec _ _ _ _ _)). }
  destruct ((if use_constraints c
             then cs <- get_constraints i false false ;;
                  Some (fold_left (fun o constr =>
                    add_inequality_constraint o constr (constraint_tol c)) cs o2)
             else Some o2)) as [o3|] eqn:Ho3; cbn [bind] in H; [|discriminate].
  assert (Hsame : same_settings o2 o3).
  { destruct (use_constraints c).
    - destruct (get_constraints i false false) as [cs|];
        cbn [bind] in Ho3; [|discriminate].
      inversion Ho3; subst o3; clear Ho3.
      apply fold_add_inequality_same.
    - inversion Ho3; apply same_settings_refl. }
  destruct Hsame as (E1 & E2 & E3). destruct Ho2 as (F1 & F2 & F3).
  assert (Hbounds : forall k, (k < n)%nat ->
            nth_error lb k = Some (local_lb i n k)
            /\ nth_error ub k = Some (local_ub i n k)).
  { intros k Hk. destruct (Hin k ltac:(lia)) as (cw & _ & A & B & _). auto. }
  destruct (gaussian_start c) eqn:Hg.
  - destruct (perturb lb ub nv noise) as [nv1|]; cbn [bind] in H; [|discriminate].
    inversion H; subst st' o; cbn.
    do 3 (split; [congruence|]). exists lb, ub.
    repeat split; try congruence; try apply Hbounds; auto; discriminate.
  - cbn [bind] in H. inversion H; subst st' o; cbn.
    do 3 (split; [congruence|]). exists lb, ub.
    do 5 (split; [first [congruence | assumption]|]).
    intros _. split; [assumption|].
    intros k Hk. destruct (Hin k ltac:(lia)) as (cw & A & _ & _ & B).
    exists cw; auto.
Qed.

End LocalPrepare.

(** ** The default evaluation cap *)

(** C8 as stated fails for the shortrow solver: with [max_eval = 0] its
    [solve] sets the cap to 100, not to 1000. *)
Lemma shortrow_default_cap_is_not_1000 :
  exists st' o,
    Shortrow.max_eval (Shortrow.cfg_of shortrow_state_nocap) = 0%N
    /\ Shortrow.solve_prepare shortrow_state_nocap no_noise = Some (st', o)
    /\ maxeval o = Some 100%Z
    /\ maxeval o <> Some 1000%Z.
Proof.
  eexists; eexists. split; [reflexivity|]. split; [reflexivity|].
  cbn. rewrite (proj1 (configure_stopping_spec _ _ _ _ _)).
  split; [reflexivity | discriminate].
Qed.

(** C8 (amended).  When the configured [max_eval] is 0, [solve] applies a
    default evaluation cap to the optimizer: 1000 in the global and in the
    local solver, 100 in the shortrow solver. *)
Theorem default_evaluation_cap :
  (forall st noise st' o,
     Global.max_eval (Global.cfg_of st) = 0%N ->
     Global.solve_prepare st noise = Some (st', o) ->
     maxeval o = Some 1000%Z)
  /\ (forall st noise st' o,
        Local.max_eval (Local.cfg_of st) = 0%N ->
        Local.solve_prepare st noise = Some (st', o) ->
        maxeval o = Some 1000%Z)
  /\ (forall st noise st' o,
        Shortrow.max_eval (Shortrow.cfg_of st) = 0%N ->
        Shortrow.solve_prepare st noise = Some (st', o) ->
        maxeval o = Some 100%Z).
Proof.
  split; [|split]; intros st noise st' o Hzero H.
  - apply solve_prepare_inv in H. destruct H as (_ & _ & Hcap & _).
    rewrite Hcap, Hzero; reflexivity.
  - apply local_solve_prepare_inv in H. destruct H as (_ & _ & Hcap & _).
    rewrite Hcap, Hzero; reflexivity.
  - apply sr_solve_prepare_inv in H. destruct H as (_ & _ & Hcap & _).
    rewrite Hcap, Hzero; reflexivity.
Qed.

Lemma default_evaluation_cap_witness :
  (exists st' o,
     Global.solve_prepare global_state_nocap no_noise = Some (st', o)
     /\ maxeval o = Some 1000%Z)
  /\ (exists st' o,
        Local.solve_prepare local_state_nocap no_noise = Some (st', o)
        /\ maxeval o = Some 1000%Z)
  /\ (exists st' o,
        Shortrow.solve_prepare shortrow_state_nocap no_noise = Some (st', o)
        /\ maxeval o = Some 100%Z).
Proof.
  split; [|split]; eexists; eexists; (split; [reflexivity|]).
  - eapply (proj1 default_evaluation_cap global_state_nocap no_noise);
      reflexivity.
  - eapply (proj1 (proj2 default_evaluation_cap) local_state_nocap no_noise);
      reflexivity.
  - eapply (proj2 (proj2 default_evaluation_cap) shortrow_state_nocap no_noise);
      reflexivity.
Defined.

(** ** The bounds of the global solver *)

Lemma floor_spec x : floor x <= x < floor x + 1.
Proof.
  unfold floor. destruct (base_Int_part x) as [H1 H2]. lra.
Qed.

Lemma ceil_spec x : ceil x - 1 < x <= ceil x.
Proof.
  unfold ceil. destruct (floor_spec (- x)) as [H1 H2]. lra.
Qed.

Lemma floor_IZR z : floor (IZR z) = IZR z.
Proof.
  unfold floor. f_equal. symmetry. apply Int_part_spec. lra.
Qed.

Lemma bounds_fold (f g : R -> R) :
  forall cd m M,
    cd <> [] ->
    fold_left (fun (b : R * R) val => (Rmin (fst b) (f val), Rmax (snd b) (g val)))
      cd (m, M)
    = (Rmin m (MinRlist (map f cd)), Rmax M (MaxRlist (map g cd))).
Proof.
  induction cd as [|c cd IH]; intros m M Hne; [congruence|].
  destruct cd as [|c' cd'].
  - reflexivity.
  - change (fold_left _ (c :: c' :: cd') (m, M))
      with (fold_left (fun (b : R * R) val =>
              (Rmin (fst b) (f val), Rmax (snd b) (g val)))
              (c' :: cd') (Rmin m (f c), Rmax M (g c))).
    rewrite IH by discriminate.
    change (MinRlist (map f (c :: c' :: cd')))
      with (Rmin (f c) (MinRlist (map f (c' :: cd')))).
    change (MaxRlist (map g (c :: c' :: cd')))
      with (Rmax (g c) (MaxRlist (map g (c' :: cd')))).
    rewrite Rmin_assoc, Rmax_assoc. reflexivity.
Qed.

Lemma problem_bounds_spec cd :
  cd <> [] ->
  Global.problem_bounds cd
  = (Rmax 2.0 (Rmin 1e3 (MinRlist (map (fun c => floor (c * 0.5)) cd))),
     Rmax 2 (MaxRlist (map (fun c => ceil (c * 2.0)) cd))).
Proof.
  intros Hne. unfold Global.problem_bounds.
  rewrite (bounds_fold (fun c => floor (c * 0.5)) (fun c => ceil (c * 2.0)))
    by assumption.
  reflexivity.
Qed.

(** C6 as stated fails when every target is 2002 or more: for
    [cdata = [4000]] the lower bound handed to the optimizer is 1000, the
    value [min_bound] was initialised with, where the claim gives
    [max(2, floor(4000 * 0.5)) = 2000]. *)
Lemma global_lower_bound_is_capped :
  exists st' o,
    Global.solve_prepare global_state_4000 no_noise = Some (st', o)
    /\ lower_bounds o = Some (Uniform 1000)
    /\ lower_bounds o
       <> Some (Uniform (Rmax 2.0 (MinRlist (map (fun c => floor (c * 0.5))
                  (Global.cdata (Global.inp_of global_state_4000)))))).
Proof.
  assert (H : exists st' o,
             Global.solve_prepare global_state_4000 no_noise = Some (st', o))
    by (eexists; eexists; reflexivity).
  destruct H as (st' & o & H). exists st', o. split; [exact H|].
  apply solve_prepare_inv in H. destruct H as (_ & _ & _ & Hlow & _).
  rewrite problem_bounds_spec in Hlow by discriminate.
  unfold global_state_4000 in Hlow |- *.
  cbn [Global.cdata Global.inp_of map MinRlist fst] in Hlow |- *.
  assert (Hfl : floor (4000 * 0.5) = 2000).
  { replace (4000 * 0.5) with (IZR 2000) by lra. apply floor_IZR. }
  rewrite Hfl in *.
  assert (Hcode : Rmax 2.0 (Rmin 1e3 2000) = 1000).
  { unfold Rmax, Rmin.
    destruct (Rle_dec 1e3 2000); [|lra].
    destruct (Rle_dec 2.0 1e3); lra. }
  rewrite Hcode in Hlow. split; [exact Hlow|].
  rewrite Hlow. intros Heq. inversion Heq as [Hb].
  unfold Rmax in Hb. destruct (Rle_dec 2.0 2000); lra.
Qed.

(** C6 (amended).  For a non-empty [cdata], the global [solve] hands the
    optimizer the uniform lower bound
    [max(2.0, min(1e3, min_i floor(c_i * 0.5)))] and the uniform upper bound
    [max(2, max_i ceil(c_i * 2.0))]; and when constraints are in use, that
    lower bound is the [min_bound] recorded in every alias that gets an
    inequality constraint. *)
Theorem global_bounds_from_cdata :
  forall st noise st' o,
    Global.cdata (Global.inp_of st) <> [] ->
    Global.solve_prepare st noise = Some (st', o) ->
    let cd := Global.cdata (Global.inp_of st) in
    let lower := Rmax 2.0 (Rmin 1e3 (MinRlist (map (fun c => floor (c * 0.5)) cd))) in
    let upper := Rmax 2 (MaxRlist (map (fun c => ceil (c * 2.0)) cd)) in
    lower_bounds o = Some (Uniform lower)
    /\ upper_bounds o = Some (Uniform upper)
    /\ (Global.use_constraints (Global.cfg_of st) = true ->
        forall b, In b (Global.aliases (Global.ali_of st')) ->
                  Global.has_constraint b = true ->
                  Global.min_bound b = Some lower).
Proof.
  intros st noise st' o Hne H cd lower upper.
  apply solve_prepare_inv in H.
  destruct H as (_ & _ & _ & Hlow & Hup & Hmb & _).
  rewrite problem_bounds_spec in Hlow, Hup, Hmb by assumption.
  auto.
Qed.

Lemma global_bounds_from_cdata_witness :
  exists st' o,
    Global.solve_prepare global_state_2x3 no_noise = Some (st', o)
    /\ let cd := Global.cdata (Global.inp_of global_state_2x3) in
       let lower :=
         Rmax 2.0 (Rmin 1e3 (MinRlist (map (fun c => floor (c * 0.5)) cd))) in
       let upper := Rmax 2 (MaxRlist (map (fun c => ceil (c * 2.0)) cd)) in
       lower_bounds o = Some (Uniform lower)
       /\ upper_bounds o = Some (Uniform upper)
       /\ (Global.use_constraints (Global.cfg_of global_state_2x3) = true ->
           forall b, In b (Global.aliases (Global.ali_of st')) ->
                     Global.has_constraint b = true ->
                     Global.min_bound b = Some lower).
Proof.
  eexists; eexists. split; [reflexivity|].
  apply (global_bounds_from_cdata global_state_2x3 no_noise);
    [discriminate | reflexivity].
Defined.

(** The alias of the 2-to-3 node does get the bound recorded. *)
Lemma alias_2x3_records_min_bound :
  exists st' o b,
    Global.solve_prepare global_state_2x3 no_noise = Some (st', o)
    /\ nth_error (Global.aliases (Global.ali_of st')) 2 = Some b
    /\ Global.has_constraint b = true
    /\ Global.neg b = [3; 4]%nat
    /\ exists lb, Global.min_bound b = Some lb
                  /\ lower_bounds o = Some (Uniform lb).
Proof.
  eexists; eexists; eexists. split; [reflexivity|].
  split; [reflexivity|]. split; [reflexivity|]. split; [reflexivity|].
  eexists. split; reflexivity.
Qed.

(** ** The initial point without noise *)

(** C9 as stated fails for the global solver: with [gaussian_start = false]
    and [cdata = [1]] the point handed to the optimizer is [[1]], below the
    lower bound (at least 2) that the same call hands over; clipping is done
    only inside the [gaussian_start] branch. *)
Lemma global_initial_point_is_not_clipped :
  exists st' o lb ub,
    Global.gaussian_start (Global.cfg_of global_state_1) = false
    /\ Global.solve_prepare global_state_1 no_noise = Some (st', o)
    /\ lower_bounds o = Some (Uniform lb)
    /\ upper_bounds o = Some (Uniform ub)
    /\ Global.initial_point st' = [1]
    /\ Global.initial_point st'
       <> map (clip lb ub) (Global.cdata (Global.inp_of global_state_1)).
Proof.
  eexists; eexists; eexists; eexists.
  split; [reflexivity|]. split; [reflexivity|].
  split; [reflexivity|]. split; [reflexivity|]. split; [reflexivity|].
  intros H. inversion H as [H1]. unfold clip in H1.
  match type of H1 with
  | _ = Rmax (Rmax ?a ?b) ?c =>
      pose proof (Rmax_l (Rmax a b) c); pose proof (Rmax_l a b)
  end.
  lra.
Qed.

Lemma resize_length v n : length (resize v n) = n.
Proof.
  unfold resize. rewrite length_app, length_firstn, repeat_length. lia.
Qed.

(** [set_reduced_from_aliases] fills the reduced vector it is given and
    keeps its size. *)
Lemma set_reduced_length a ns rns rv :
  Global.set_reduced_from_aliases a ns rns = Some rv ->
  length rv = length rns.
Proof.
  unfold Global.set_reduced_from_aliases, for_range. intros H.
  rewrite (for_each_ext _ (fun rns k =>
             v <- (j <- nth_error (Global.redToAlias a) k ;; rd ns j) ;;
             wr rns k v)) in H.
  - apply for_each_write_inv in H. destruct H as (Hl & _). exact Hl.
  - intros s k. destruct (nth_error (Global.redToAlias a) k); reflexivity.
Qed.

(** [compute_aliases] sizes [rvars] after [redToAlias] when it recomputes
    the aliasing, and keeps both when it returns the cached one. *)
Lemma compute_aliases_rvars_length i a a' :
  Global.compute_aliases i a = Some a' ->
  Global.aliased a = false
  \/ length (Global.rvars a) = length (Global.redToAlias a) ->
  Global.aliasing_level a' <> Global.NONE ->
  length (Global.rvars a') = length (Global.redToAlias a').
Proof.
  unfold Global.compute_aliases. intros H Hwf Hl.
  destruct (Global.aliased a) eqn:Hal.
  - inversion H; subst a'.
    destruct Hwf as [Hf|Hlen]; [discriminate|exact Hlen].
  - cbv zeta in H.
    destruct (Global.aliasing_level a) eqn:Hlev;
      try (inversion H; subst a'; cbn in Hl; congruence);
      (destruct (for_each (Global.nodes i) _ _) as [[al red]|];
       cbn [bind] in H; [|discriminate];
       destruct (Global.create_mappings al) as [r2a a2r];
       inversion H; subst a'; cbn; apply resize_length).
Qed.

(** The aliasing [solve] leaves is the one [compute_aliases] returns, up
    to the [min_bound] of its aliases and the content of [rvars]. *)
Lemma solve_prepare_reduced st noise st' o :
  Global.solve_prepare st noise = Some (st', o) ->
  exists a1,
    Global.compute_aliases (Global.inp_of st) (Global.ali_of st) = Some a1
    /\ Global.aliasing_level (Global.ali_of st') = Global.aliasing_level a1
    /\ Global.redToAlias (Global.ali_of st') = Global.redToAlias a1
    /\ length (Global.rvars (Global.ali_of st')) = length (Global.rvars a1).
Proof.
  intros H. unfold Global.solve_prepare in H.
  destruct (Global.compute_aliases (Global.inp_of st) (Global.ali_of st))
    as [a1|]; cbn [bind] in H; [|discriminate].
  exists a1. split; [reflexivity|].
  destruct (Global.problem_bounds (Global.cdata (Global.inp_of st)))
    as [mn mx].
  match type of H with
  | bind ?m _ = _ => destruct m as [s3|]
  end; cbn [bind] in H; [|discriminate].
  destruct (Global.is_none (Global.aliasing_level a1)); cbn [bind] in H.
  - inversion H; subst st' o. cbn. auto.
  - destruct (Global.set_reduced_from_aliases _ _ _) as [rv|] eqn:Hrv;
      cbn [bind] in H; [|discriminate].
    apply set_reduced_length in Hrv.
    inversion H; subst st' o. cbn. auto.
Qed.

Lemma is_none_spec l : Global.is_none l = true <-> l = Global.NONE.
Proof. destruct l; cbn; split; congruence. Qed.

(** C9 (amended).  When [gaussian_start] is false, the initial point
    handed to the optimizer is: for shortrow, [max(0, c_i)] per position;
    for local, [c_i] clipped into the bounds [[lb_i, ub_i]] handed over with
    it; for global, the target vector [c] itself, not clipped, copied
    through [redToAlias] when an aliasing level is set: the reduced start
    then has one entry per entry of [redToAlias], the [k]-th being
    [c] at [redToAlias[k]].  Its size is that of [rvars], which
    [compute_aliases] fits to [redToAlias] when this call computes the
    aliasing; for a cached aliasing the fit is a precondition. *)
Theorem initial_point_without_noise :
  (forall st noise st' o,
     Shortrow.gaussian_start (Shortrow.cfg_of st) = false ->
     Shortrow.solve_prepare st noise = Some (st', o) ->
     let n := length (Shortrow.nvars (Shortrow.out_of st)) in
     length (Shortrow.initial_point st') = n
     /\ forall k, (k < n)%nat ->
          at_ (Shortrow.initial_point st') k
          = Rmax 0 (at_ (Shortrow.cdata (Shortrow.inp_of st)) k))
  /\ (forall st noise st' o,
        Local.gaussian_start (Local.cfg_of st) = false ->
        Local.solve_prepare st noise = Some (st', o) ->
        let n := length (Local.nvars (Local.out_of st)) in
        exists lb ub,
          lower_bounds o = Some (PerVariable lb)
          /\ upper_bounds o = Some (PerVariable ub)
          /\ length (Local.initial_point st') = n
          /\ forall k, (k < n)%nat ->
               let c := at_ (Local.cdata (Local.inp_of st)) k in
               at_ (Local.initial_point st') k
               = (if Rlt_dec c (at_ lb k) then at_ lb k
                  else if Rlt_dec (at_ ub k) c then at_ ub k
                  else c)
               /\ (at_ lb k <= at_ ub k ->
                   at_ (Local.initial_point st') k
                   = clip (at_ lb k) (at_ ub k) c))
  /\ (forall st noise st' o,
        Global.gaussian_start (Global.cfg_of st) = false ->
        Global.solve_prepare st noise = Some (st', o) ->
        let cd := Global.cdata (Global.inp_of st) in
        let a := Global.ali_of st' in
        Global.nvars (Global.out_of st') = cd
        /\ (Global.aliasing_level a = Global.NONE ->
            Global.initial_point st' = cd)
        /\ (Global.aliasing_level a <> Global.NONE ->
            forall k, (k < length (Global.initial_point st'))%nat ->
              exists j c,
                nth_error (Global.redToAlias a) k = Some j
                /\ nth_error cd j = Some c
                /\ nth_error (Global.initial_point st') k = Some c)
        /\ (Global.aliasing_level a <> Global.NONE ->
            Global.aliased (Global.ali_of st) = false
            \/ length (Global.rvars (Global.ali_of st))
               = length (Global.redToAlias (Global.ali_of st)) ->
            length (Global.initial_point st') = length (Global.redToAlias a)
            /\ forall k, (k < length (Global.redToAlias a))%nat ->
                 exists j,
                   nth_error (Global.redToAlias a) k = Some j
                   /\ (j < length cd)%nat
                   /\ at_ (Global.initial_point st') k = at_ cd j)).
Proof.
  split; [|split]; intros st noise st' o Hg H.
  - (* shortrow *)
    apply sr_solve_prepare_inv in H. destruct H as (_ & _ & _ & _ & Hx).
    destruct (Hx Hg) as (Hl & Hk). intros n.
    split; [exact Hl|]. intros k Hlt.
    destruct (Hk k Hlt) as (ck & Hc & Hv).
    unfold Shortrow.initial_point.
    rewrite (at_nth_error _ _ _ Hv), (at_nth_error _ _ _ Hc). reflexivity.
  - (* local *)
    apply local_solve_prepare_inv in H.
    destruct H as (_ & _ & _ & lb & ub & Hlo & Hup & Llb & Lub & Hb & Hx).
    destruct (Hx Hg) as (Hl & Hk). intros n.
    exists lb, ub. split; [exact Hlo|]. split; [exact Hup|].
    split; [exact Hl|]. intros k Hlt c.
    destruct (Hk k Hlt) as (cw & Hc & Hv).
    destruct (Hb k Hlt) as (Hlbk & Hubk).
    unfold Local.initial_point.
    assert (Hval : at_ (Local.nvars (Local.out_of st')) k
                   = (if Rlt_dec c (at_ lb k) then at_ lb k
                      else if Rlt_dec (at_ ub k) c then at_ ub k else c)).
    { subst c.
      rewrite (at_nth_error _ _ _ Hv), (at_nth_error _ _ _ Hc),
        (at_nth_error _ _ _ Hlbk), (at_nth_error _ _ _ Hubk).
      reflexivity. }
    split; [exact Hval|].
    intros Hle. rewrite Hval. apply clip_by_tests; assumption.
  - (* global *)
    pose proof (solve_prepare_reduced _ _ _ _ H) as Hred.
    apply solve_prepare_inv in H.
    destruct H as (_ & _ & _ & _ & _ & _ & Hnv & Hrv). intros cd a.
    assert (Hcd : Global.nvars (Global.out_of st') = cd).
    { rewrite Hnv. unfold Global.initial_guess. rewrite Hg. reflexivity. }
    assert (Hentries :
      Global.aliasing_level a <> Global.NONE ->
      Global.initial_point st' = Global.rvars a
      /\ forall k, (k < length (Global.rvars a))%nat ->
           exists j c,
             nth_error (Global.redToAlias a) k = Some j
             /\ nth_error cd j = Some c
             /\ nth_error (Global.rvars a) k = Some c).
    { intros Hlevel.
      assert (Hfalse : Global.is_none (Global.aliasing_level a) = false).
      { destruct (Global.is_none (Global.aliasing_level a)) eqn:E; auto.
        apply is_none_spec in E; contradiction. }
      split.
      { unfold Global.initial_point. fold a. rewrite Hfalse. reflexivity. }
      intros k Hk.
      destruct (Hrv Hfalse) as (rv0 & Hset). fold a in Hset.
      unfold Global.set_reduced_from_aliases, for_range in Hset.
      rewrite (for_each_ext _ (fun rns k =>
                 v <- (j <- nth_error (Global.redToAlias a) k ;;
                       rd (Global.nvars (Global.out_of st')) j) ;;
                 wr rns k v)) in Hset.
      * apply for_each_write_inv in Hset. destruct Hset as (Hl & Hin & _).
        destruct (Hin k ltac:(lia)) as (v & Hv & Hx).
        destruct (nth_error (Global.redToAlias a) k) as [j|]; [|discriminate].
        cbn [bind] in Hv. rewrite Hcd in Hv.
        exists j, v. auto.
      * intros s k0.
        destruct (nth_error (Global.redToAlias a) k0); reflexivity. }
    split; [exact Hcd|]. split; [|split].
    + intros Hnone. unfold Global.initial_point. fold a.
      rewrite (proj2 (is_none_spec _) Hnone). exact Hcd.
    + intros Hlevel k Hk. destruct (Hentries Hlevel) as (Hip & Hall).
      rewrite Hip in Hk |- *. apply Hall; assumption.
    + intros Hlevel Hwf. destruct (Hentries Hlevel) as (Hip & Hall).
      destruct Hred as (a1 & Ha1 & Elev & Er2a & Elen). fold a in Elev, Er2a, Elen.
      assert (Hfit : length (Global.rvars a) = length (Global.redToAlias a)).
      { rewrite Elen, Er2a.
        apply (compute_aliases_rvars_length _ _ _ Ha1 Hwf). congruence. }
      rewrite Hip. split; [exact Hfit|].
      intros k Hk. rewrite <- Hfit in Hk.
      destruct (Hall k Hk) as (j & c & Hj & Hc & Hv).
      exists j. split; [exact Hj|]. split.
      * apply nth_error_Some. congruence.
      * rewrite (at_nth_error _ _ _ Hv), (at_nth_error _ _ _ Hc). reflexivity.
Qed.

Lemma initial_point_without_noise_witness :
  (exists st' o,
     Shortrow.solve_prepare shortrow_state_nocap no_noise = Some (st', o)
     /\ length (Shortrow.initial_point st') = 2%nat
     /\ forall k, (k < 2)%nat ->
          at_ (Shortrow.initial_point st') k
          = Rmax 0 (at_ (Shortrow.cdata (Shortrow.inp_of shortrow_state_nocap)) k))
  /\ (exists st' o,
        Local.solve_prepare local_state_nocap no_noise = Some (st', o)
        /\ exists lb ub,
             lower_bounds o = Some (PerVariable lb)
             /\ upper_bounds o = Some (PerVariable ub)
             /\ length (Local.initial_point st') = 2%nat
             /\ forall k, (k < 2)%nat ->
                  let c := at_ (Local.cdata (Local.inp_of local_state_nocap)) k in
                  at_ (Local.initial_point st') k
                  = (if Rlt_dec c (at_ lb k) then at_ lb k
                     else if Rlt_dec (at_ ub k) c then at_ ub k
                     else c)
                  /\ (at_ lb k <= at_ ub k ->
                      at_ (Local.initial_point st') k
                      = clip (at_ lb k) (at_ ub k) c))
  /\ (exists st' o,
        Global.solve_prepare global_state_2x3 no_noise = Some (st', o)
        /\ Global.nvars (Global.out_of st')
           = Global.cdata (Global.inp_of global_state_2x3)
        /\ (Global.aliasing_level (Global.ali_of st') = Global.NONE ->
            Global.initial_point st'
            = Global.cdata (Global.inp_of global_state_2x3))
        /\ (Global.aliasing_level (Global.ali_of st') <> Global.NONE ->
            forall k, (k < length (Global.initial_point st'))%nat ->
              exists j c,
                nth_error (Global.redToAlias (Global.ali_of st')) k = Some j
                /\ nth_error (Global.cdata (Global.inp_of global_state_2x3)) j
                   = Some c
                /\ nth_error (Global.initial_point st') k = Some c)
        /\ (length (Global.initial_point st')
            = length (Global.redToAlias (Global.ali_of st'))
            /\ forall k,
                 (k < length (Global.redToAlias (Global.ali_of st')))%nat ->
                 exists j,
                   nth_error (Global.redToAlias (Global.ali_of st')) k = Some j
                   /\ (j < length (Global.cdata
                                     (Global.inp_of global_state_2x3)))%nat
                   /\ at_ (Global.initial_point st') k
                      = at_ (Global.cdata (Global.inp_of global_state_2x3)) j)).
Proof.
  split; [|split]; eexists; eexists; (split; [reflexivity|]).
  - eapply (proj1 initial_point_without_noise
             shortrow_state_nocap no_noise); reflexivity.
  - eapply (proj1 (proj2 initial_point_without_noise)
             local_state_nocap no_noise); reflexivity.
  - generalize (proj2 (proj2 initial_point_without_noise)
                  global_state_2x3 no_noise _ _ eq_refl eq_refl).
    intros (H1 & H2 & H3 & H4).
    split; [exact H1|]. split; [exact H2|]. split; [exact H3|].
    apply H4; [cbn; discriminate | left; reflexivity].
Defined.

(** ** The gradient checker *)

Lemma upd_upd {A : Type} (v : list A) i a b : upd (upd v i a) i b = upd v i b.
Proof.
  revert i; induction v as [|h t IH]; intros [|i]; simpl; auto.
  rewrite IH; reflexivity.
Qed.

Lemma upd_same {A : Type} (v : list A) i x :
  nth_error v i = Some x -> upd v i x = v.
Proof.
  revert i; induction v as [|h t IH]; intros [|i] H; simpl in *; auto.
  - inversion H; reflexivity.
  - rewrite IH by assumption; reflexivity.
Qed.

Lemma guarded_relative_error_nonneg ga gn : 0 <= guarded_relative_error ga gn.
Proof.
  unfold guarded_relative_error. pose proof (Rabs_pos (ga - gn)).
  destruct (Rlt_dec 1e-8 ga) as [Hlt|_]; [|assumption].
  apply Rmult_le_pos; [assumption|].
  left. apply Rinv_0_lt_compat. lra.
Qed.

Section Checker.

Variable n : nat.
Variable f : vfunc.
Variable x : vec.
Variable eps : R.
Hypothesis Hx : length x = n.
Hypothesis Hf : returns_on n f.

Variable grad_ana : vec.
Hypothesis Hga : (n <= length grad_ana)%nat.

Lemma f_value y : length y = n -> exists r, f y [] = Some r /\ fst r = value_of f y.
Proof.
  intros Hy. unfold value_of. destruct (f y []) as [r|] eqn:E.
  - exists r; auto.
  - exfalso; apply (Hf y Hy); assumption.
Qed.

(** The loop over the dimensions, in relative mode: it restores
    [ns_delta] and keeps the running maximum. *)
Lemma checker_loop :
  forall m s mx0,
    (s + m <= n)%nat ->
    exists mx,
      for_each (seq s m) (fun (st : R * vec) i =>
        let '(max_err, ns_delta) := st in
        xi <- rd x i ;;
        nd_p <- wr ns_delta i (xi + eps) ;;
        fp <- f nd_p [] ;;
        nd_n <- wr nd_p i (xi - eps) ;;
        fn <- f nd_n [] ;;
        nd <- wr nd_n i xi ;;
        let grad_num := (fst fp - fst fn) / (2 * eps) in
        ga <- rd grad_ana i ;;
        let abs_err := Rabs (ga - grad_num) in
        if negb true then Some (Rmax max_err abs_err, nd)
        else
          let rel_err := if Rlt_dec 1e-8 ga then abs_err / ga else abs_err in
          Some (Rmax max_err rel_err, nd)) (mx0, x) = Some (mx, x)
      /\ mx0 <= mx
      /\ (forall i, (s <= i < s + m)%nat -> dim_error f x eps grad_ana i <= mx)
      /\ (mx = mx0
          \/ exists i, (s <= i < s + m)%nat /\ mx = dim_error f x eps grad_ana i).
Proof.
  induction m as [|m IH]; intros s mx0 Hs.
  - exists mx0; simpl. repeat split; auto; try lra. intros; lia.
  - cbn [seq for_each].
    assert (Hxs : nth_error x s = Some (at_ x s)) by (apply nth_error_at; lia).
    unfold rd at 1. rewrite Hxs; cbn [bind].
    rewrite wr_some by lia; cbn [bind].
    destruct (f_value (upd x s (at_ x s + eps))) as (fp & Hfp & Vp);
      [rewrite length_upd; assumption|].
    rewrite Hfp; cbn [bind].
    rewrite wr_some by (rewrite length_upd; lia); cbn [bind].
    rewrite upd_upd.
    destruct (f_value (upd x s (at_ x s - eps))) as (fn & Hfn & Vn);
      [rewrite length_upd; assumption|].
    rewrite Hfn; cbn [bind].
    rewrite wr_some by (rewrite length_upd; lia); cbn [bind].
    rewrite upd_upd, (upd_same x s _ Hxs).
    unfold rd. rewrite (nth_error_at grad_ana s) by lia; cbn [bind negb].
    rewrite Vp, Vn.
    change (if Rlt_dec 1e-8 (at_ grad_ana s)
            then Rabs (at_ grad_ana s
                       - (value_of f (upd x s (at_ x s + eps))
                          - value_of f (upd x s (at_ x s - eps))) / (2 * eps))
                 / at_ grad_ana s
            else Rabs (at_ grad_ana s
                       - (value_of f (upd x s (at_ x s + eps))
                          - value_of f (upd x s (at_ x s - eps))) / (2 * eps)))
      with (dim_error f x eps grad_ana s).
    destruct (IH (S s) (Rmax mx0 (dim_error f x eps grad_ana s)))
      as (mx & Hloop & Hle & Hub & Hatt); [lia|].
    exists mx. split; [exact Hloop|].
    pose proof (Rmax_l mx0 (dim_error f x eps grad_ana s)).
    pose proof (Rmax_r mx0 (dim_error f x eps grad_ana s)).
    split; [lra|]. split.
    + intros i Hi. destruct (Nat.eq_dec i s) as [->|Hne]; [lra|].
      apply Hub; lia.
    + destruct Hatt as [Heq|(i & Hi & Heq)].
      * unfold Rmax in Heq. destruct (Rle_dec mx0 (dim_error f x eps grad_ana s)).
        -- right. exists s. split; [lia | assumption].
        -- left; assumption.
      * right. exists i. split; [lia | assumption].
Qed.

End Checker.

(** C5 as stated fails where an analytic gradient is not above [1e-8]:
    for [f(x) = -x^3] at [x = 1] with [eps = 1], the analytic gradient is
    [-3] and the central difference [-4]; the checker returns the absolute
    error 1, where the claimed formula gives [1 / max(3, 1e-8) = 1/3]. *)
Lemma gradient_error_of_negative_gradient :
  get_gradient_error 1 [1] neg_cube 1 true = Some 1
  /\ analytic_gradient neg_cube [1] = [- 3 * 1 * 1]
  /\ claimed_relative_error (at_ (analytic_gradient neg_cube [1]) 0)
       (central_difference neg_cube [1] 1 0) = 1 / 3
  /\ ~ is_max_over 1
         (fun i => claimed_relative_error (at_ (analytic_gradient neg_cube [1]) i)
                     (central_difference neg_cube [1] 1 i)) 1.
Proof.
  assert (Hclaim : claimed_relative_error (at_ (analytic_gradient neg_cube [1]) 0)
                     (central_difference neg_cube [1] 1 0) = 1 / 3).
  { unfold claimed_relative_error, central_difference, value_of,
      analytic_gradient, at_; cbn.
    replace (-3 * 1 * 1 - (- ((1 + 1) * (1 + 1) * (1 + 1))
                           - - ((1 - 1) * (1 - 1) * (1 - 1))) / (2 * 1))
      with 1 by lra.
    replace (-3 * 1 * 1) with (-3) by lra.
    rewrite Rabs_R1. rewrite Rabs_left by lra.
    replace (- (-3)) with 3 by lra.
    unfold Rmax.
    match goal with |- context [Rle_dec ?a ?b] => destruct (Rle_dec a b) end;
      lra. }
  split; [|split; [reflexivity|split; [exact Hclaim|]]].
  - unfold get_gradient_error, for_range; cbn.
    match goal with |- context [Rlt_dec ?a ?b] => destruct (Rlt_dec a b) end;
      [lra|].
    cbn. f_equal.
    replace (-3 * 1 * 1 - (- ((1 + 1) * (1 + 1) * (1 + 1))
                           - - ((1 - 1) * (1 - 1) * (1 - 1))) / (2 * 1))
      with 1 by lra.
    rewrite Rabs_R1. unfold Rmax.
    match goal with |- context [Rle_dec ?a ?b] => destruct (Rle_dec a b) end;
      lra.
  - intros (_ & _ & Hatt). destruct (Hatt ltac:(lia)) as (i & Hi & Heq).
    replace i with 0%nat in Heq by lia. rewrite Hclaim in Heq. lra.
Qed.

(** C5 (amended).  For every function [f] that returns on the points of
    [n = cdata.size()] coordinates, every such point [x] and every
    [eps > 0], the gradient checker in relative mode returns the maximum
    over [i < n] (0 if [n = 0]) of: [|ga_i - gn_i| / ga_i] when
    [ga_i > 1e-8], and the absolute error [|ga_i - gn_i|] otherwise; where
    [ga] is the analytic gradient of [f] at [x] and [gn_i] the central
    difference [(f(x + eps*e_i) - f(x - eps*e_i)) / (2*eps)]. *)
Theorem gradient_error_relative :
  forall (n : nat) (f : vfunc) (x : vec) (eps : R),
    0 < eps ->
    length x = n ->
    returns_on n f ->
    f x (repeat 0 (length x)) <> None ->
    (n <= length (analytic_gradient f x))%nat ->
    exists m,
      get_gradient_error n x f eps true = Some m
      /\ is_max_over n
           (fun i => guarded_relative_error (at_ (analytic_gradient f x) i)
                       (central_difference f x eps i)) m.
Proof.
  intros n f x eps Heps Hx Hf Hana Hlen.
  unfold get_gradient_error, for_range.
  unfold analytic_gradient in Hlen |- *.
  destruct (f x (repeat 0 (length x))) as [ana|]; [|congruence].
  cbn [bind].
  destruct (checker_loop n f x eps Hx Hf (snd ana) Hlen n 0 0)
    as (mx & Hloop & Hle & Hub & Hatt); [lia|].
  bind_with Hloop. exists mx. split; [reflexivity|].
  split; [|split].
  - intros i Hi. apply Hub; lia.
  - intros ->. destruct Hatt as [Heq|(i & Hi & _)]; [assumption | lia].
  - intros Hpos. destruct Hatt as [Heq|(i & Hi & Heq)].
    + exists 0%nat. split; [assumption|].
      pose proof (Hub 0%nat ltac:(lia)) as H0.
      pose proof (guarded_relative_error_nonneg (at_ (snd ana) 0)
                    (central_difference f x eps 0)).
      unfold dim_error in H0. lra.
    + exists i. split; [lia | assumption].
Qed.

Lemma gradient_error_relative_witness :
  exists m,
    get_gradient_error 1 [1] neg_cube 1 true = Some m
    /\ is_max_over 1
         (fun i => guarded_relative_error (at_ (analytic_gradient neg_cube [1]) i)
                     (central_difference neg_cube [1] 1 i)) m.
Proof.
  apply (gradient_error_relative 1 neg_cube [1] 1).
  - lra.
  - reflexivity.
  - intros [|a [|b y]] Hy; simpl in Hy; discriminate.
  - cbn. discriminate.
  - cbn. lia.
Defined.

(** ** The shaping factor of the local solver *)

Section Shaping.

Import Local.

Lemma solve_keeps_inputs optimize evals st noise r :
  solve optimize evals st noise = Some r -> inp_of (snd r) = inp_of st.
Proof.
  unfold solve. intros H.
  destruct (solve_prepare st noise) as [[st1 o]|] eqn:Hp;
    cbn [bind] in H; [|discriminate].
  apply local_solve_prepare_inv in Hp. destruct Hp as (Hi & _).
  destruct (optimize o (initial_point st1)) as [[x f] res].
  inversion H; subst r. cbn. exact Hi.
Qed.

Lemma clamp_range v : 1.01 <= Rmax 1.01 (Rmin 2.0 v) <= 2.0.
Proof.
  unfold Rmax, Rmin.
  destruct (Rle_dec 2.0 v); destruct (Rle_dec 1.01 _); lra.
Qed.

Lemma set_shaping_ok st v : shaping_ok (set_shaping st v).
Proof.
  unfold shaping_ok, set_shaping; cbn. split; [apply clamp_range|].
  replace 1.0 with 1 by lra. reflexivity.
Qed.

(** Every call other than [set_shaping] leaves [F] and [iF] as they
    are. *)
Lemma other_calls_keep_shaping st c st' :
  run st c = Some st' ->
  (forall v, c <> call_set_shaping v) ->
  F (inp_of st') = F (inp_of st) /\ iF (inp_of st') = iF (inp_of st).
Proof.
  intros H Hc. destruct c; cbn in H;
    try (inversion H; subst st'; cbn; split; reflexivity).
  - (* solve *)
    destruct (solve optimize evals st noise) as [r|] eqn:Hs;
      cbn [bind] in H; [|discriminate].
    inversion H; subst st'.
    rewrite (solve_keeps_inputs _ _ _ _ _ Hs). split; reflexivity.
  - (* set_cdata *)
    unfold set_cdata in H.
    destruct (wr (cdata (inp_of st)) k value); cbn [bind] in H; [|discriminate].
    inversion H; subst st'; cbn; split; reflexivity.
  - (* set_shaping *)
    exfalso. apply (Hc shaping). reflexivity.
Qed.

End Shaping.

(** C10.  In every reachable state of the local solver, [F] lies in
    [[1.01, 2.0]] and [iF = 1/F].  The initial state ([F = 2], [iF = 0.5])
    is reachable; every call but [set_shaping] leaves [F] and [iF]
    untouched; and [set_shaping] accepts every argument [v], storing it
    clamped into [[1.01, 2.0]]. *)
Theorem shaping_factor_invariant :
  forall (AUGLAG LD_LBFGS : Z) (st : Local.state),
    Local.reachable AUGLAG LD_LBFGS st ->
    (1.01 <= Local.F (Local.inp_of st) <= 2.0
     /\ Local.iF (Local.inp_of st) = 1 / Local.F (Local.inp_of st))
    /\ (forall c st',
          Local.run st c = Some st' ->
          (forall v, c <> Local.call_set_shaping v) ->
          Local.F (Local.inp_of st') = Local.F (Local.inp_of st)
          /\ Local.iF (Local.inp_of st') = Local.iF (Local.inp_of st))
    /\ (forall v,
          exists st',
            Local.run st (Local.call_set_shaping v) = Some st'
            /\ Local.F (Local.inp_of st') = Rmax 1.01 (Rmin 2.0 v)
            /\ (v < 1.01 -> Local.F (Local.inp_of st') = 1.01)
            /\ (1.01 <= v <= 2.0 -> Local.F (Local.inp_of st') = v)
            /\ (2.0 < v -> Local.F (Local.inp_of st') = 2.0)).
Proof.
  intros A L st Hreach. split; [|split].
  - induction Hreach as [|st c st' Hreach IH Hrun].
    + cbn. split; lra.
    + destruct c;
        try (destruct (other_calls_keep_shaping st _ st' Hrun) as [E1 E2];
             [discriminate | rewrite E1, E2; exact IH]).
      cbn in Hrun. inversion Hrun; subst st'.
      apply set_shaping_ok.
  - intros c st' Hrun Hc. apply (other_calls_keep_shaping st c st' Hrun Hc).
  - intros v. exists (Local.set_shaping st v). split; [reflexivity|].
    cbn. split; [reflexivity|].
    unfold Rmax, Rmin.
    repeat split; intros Hv;
      destruct (Rle_dec 2.0 v); destruct (Rle_dec 1.01 _); lra.
Qed.

Lemma shaping_factor_invariant_witness :
  (1.01 <= Local.F (Local.inp_of (Local.set_shaping (Local.initial_state 36 11) 5))
   <= 2.0
   /\ Local.iF (Local.inp_of (Local.set_shaping (Local.initial_state 36 11) 5))
      = 1 / Local.F (Local.inp_of (Local.set_shaping (Local.initial_state 36 11) 5)))
  /\ (forall c st',
        Local.run (Local.set_shaping (Local.initial_state 36 11) 5) c = Some st' ->
        (forall v, c <> Local.call_set_shaping v) ->
        Local.F (Local.inp_of st')
        = Local.F (Local.inp_of (Local.set_shaping (Local.initial_state 36 11) 5))
        /\ Local.iF (Local.inp_of st')
           = Local.iF (Local.inp_of (Local.set_shaping (Local.initial_state 36 11) 5)))
  /\ (forall v,
        exists st',
          Local.run (Local.set_shaping (Local.initial_state 36 11) 5)
            (Local.call_set_shaping v) = Some st'
          /\ Local.F (Local.inp_of st') = Rmax 1.01 (Rmin 2.0 v)
          /\ (v < 1.01 -> Local.F (Local.inp_of st') = 1.01)
          /\ (1.01 <= v <= 2.0 -> Local.F (Local.inp_of st') = v)
          /\ (2.0 < v -> Local.F (Local.inp_of st') = 2.0)).
Proof.
  apply (shaping_factor_invariant 36 11
           (Local.set_shaping (Local.initial_state 36 11) 5)).
  apply (Local.reachable_call 36 11 (Local.initial_state 36 11)
           (Local.call_set_shaping 5)).
  - apply Local.reachable_initial.
  - reflexivity.
Defined.

(** * Further properties *)

(** ** What [compute_aliases] establishes *)

Lemma numbered_from_spec al :
  forall s,
    numbered_from s al = true
    <-> (forall j b, nth_error al j = Some b ->
                     Global.alias_index b = (s + j)%nat).
Proof.
  induction al as [|a al IH]; intros s; simpl.
  - split; [intros _ [|j] b H; discriminate | reflexivity].
  - rewrite andb_true_iff, Nat.eqb_eq, IH. split.
    + intros [Ha Hrest] [|j] b H; simpl in H.
      * inversion H; subst; lia.
      * rewrite (Hrest j b H); lia.
    + intros H. split.
      * rewrite (H 0%nat a eq_refl); lia.
      * intros j b Hb. rewrite (H (S j) b Hb); lia.
Qed.

Lemma nth_error_map_seq {A : Type} (g : nat -> A) n s j :
  (j < n)%nat -> nth_error (map g (seq s n)) j = Some (g (s + j)%nat).
Proof.
  revert s j; induction n as [|n IH]; intros s [|j] H; simpl; try lia.
  - rewrite Nat.add_0_r; reflexivity.
  - rewrite IH by lia. f_equal; f_equal; lia.
Qed.

Lemma nth_error_upd {A : Type} (v : list A) i j x b :
  nth_error (upd v i x) j = Some b ->
  (j = i /\ b = x) \/ (j <> i /\ nth_error v j = Some b).
Proof.
  intros H. destruct (Nat.eq_dec j i) as [->|Hne].
  - left. split; [reflexivity|].
    assert (Hi : (i < length (upd v i x))%nat)
      by (apply nth_error_Some; congruence).
    rewrite length_upd in Hi.
    rewrite nth_error_upd_eq in H by assumption. congruence.
  - right. rewrite nth_error_upd_neq in H by congruence. auto.
Qed.

Section ComputeAliases.

Import Global.

Lemma reset_aliases_inv n : alias_inv (reset_aliases n).
Proof.
  intros j b H. unfold reset_aliases in H.
  assert (Hj : (j < length (map (fun i => mkAlias i [] [] None) (seq 0 n)))%nat)
    by (apply nth_error_Some; congruence).
  rewrite length_map, length_seq in Hj.
  rewrite nth_error_map_seq in H by assumption.
  inversion H; subst. split; reflexivity.
Qed.

Lemma reset_aliases_empty n b : In b (reset_aliases n) -> empty b = true.
Proof.
  unfold reset_aliases. rewrite in_map_iff. intros (j & <- & _). reflexivity.
Qed.

Lemma upd_alias_inv al o b' :
  alias_inv al -> alias_index b' = o -> is_valid b' = true ->
  alias_inv (upd al o b').
Proof.
  intros Hinv Hidx Hval j b H.
  destruct (nth_error_upd _ _ _ _ _ H) as [[-> ->]|[_ Hold]]; auto.
Qed.

Lemma alias_to_inv al o p al' :
  alias_to al o p = Some al' -> p <> [] -> alias_inv al ->
  alias_inv al' /\ length al' = length al.
Proof.
  unfold alias_to. intros H Hp Hinv.
  destruct (nth_error al o) as [a|] eqn:Ha; cbn [bind] in H; [|discriminate].
  apply wr_inv in H. destruct H as [Hlt ->].
  split; [|apply length_upd].
  apply upd_alias_inv; auto.
  - cbn. apply (Hinv o a Ha).
  - unfold is_valid; cbn. destruct p; [congruence|]. apply orb_true_r.
Qed.

Lemma fold_push_neg_fields l :
  forall a, alias_index (fold_left push_neg l a) = alias_index a
            /\ pos (fold_left push_neg l a) = pos a
            /\ neg (fold_left push_neg l a) = neg a ++ l.
Proof.
  induction l as [|k l IH]; intros a; simpl.
  - rewrite app_nil_r; auto.
  - destruct (IH (push_neg a k)) as (H1 & H2 & H3).
    rewrite H1, H2, H3; cbn. rewrite <- app_assoc. auto.
Qed.

Lemma interface_edges_nonempty node :
  has_interface_constraint node = true ->
  inp_edges node <> [] /\ out_edges node <> [].
Proof.
  unfold has_interface_constraint.
  destruct (inp_edges node), (out_edges node); cbn; intros H;
    try discriminate; split; discriminate.
Qed.

(** One iteration of the node loop. *)
Lemma alias_node_inv level al red node al' red' :
  alias_node level (al, red) node = Some (al', red') ->
  alias_inv al ->
  alias_inv al' /\ length al' = length al /\ length red' = length red.
Proof.
  unfold alias_node. intros H Hinv.
  destruct (nth_error red (index node)) as [r|]; cbn [bind] in H; [|discriminate].
  destruct (r || negb (has_interface_constraint node)) eqn:Hskip.
  { inversion H; subst; auto. }
  apply orb_false_iff in Hskip. destruct Hskip as [_ Hic].
  apply negb_false_iff in Hic.
  destruct (interface_edges_nonempty node Hic) as [Hin Hout].
  cbv zeta in H.
  match type of H with
  | bind ?m _ = _ => destruct m as [[al1|]|] eqn:Hstep
  end; cbn [bind] in H; try discriminate.
  - (* an alias was created, the node is marked *)
    destruct (wr red (index node) true) as [red1|] eqn:Hred;
      cbn [bind] in H; [|discriminate].
    apply wr_inv in Hred. destruct Hred as [_ ->].
    inversion H; subst al' red'; clear H. rewrite length_upd.
    assert (Hgoal : alias_inv al1 /\ length al1 = length al);
      [|destruct Hgoal; auto].
    destruct ((length (inp_edges node) =? 1)%nat
              && (length (out_edges node) =? 1)%nat).
    + destruct (out node) as [o|]; cbn [bind] in Hstep; [|discriminate].
      destruct (alias_to al o (inp_edges node)) as [al2|] eqn:Hto;
        cbn [bind] in Hstep; [|discriminate].
      inversion Hstep; subst al2.
      apply (alias_to_inv _ _ _ _ Hto Hin Hinv).
    + destruct ((length (inp_edges node) =? 1)%nat
                || (length (out_edges node) =? 1)%nat).
      * destruct (level_value level <? level_value BASIC)%nat;
          [discriminate|].
        destruct (length (inp_edges node) =? 1)%nat.
        -- destruct (inp node) as [k|]; cbn [bind] in Hstep; [|discriminate].
           destruct (alias_to al k (out_edges node)) as [al2|] eqn:Hto;
             cbn [bind] in Hstep; [|discriminate].
           inversion Hstep; subst al2.
           apply (alias_to_inv _ _ _ _ Hto Hout Hinv).
        -- destruct (out node) as [o|]; cbn [bind] in Hstep; [|discriminate].
           destruct (alias_to al o (inp_edges node)) as [al2|] eqn:Hto;
             cbn [bind] in Hstep; [|discriminate].
           inversion Hstep; subst al2.
           apply (alias_to_inv _ _ _ _ Hto Hin Hinv).
      * destruct (level_value level =? level_value COMPLEX)%nat;
          [|discriminate].
        destruct (out node) as [o|]; cbn [bind] in Hstep; [|discriminate].
        destruct (nth_error al o) as [a0|] eqn:Ha0;
          cbn [bind] in Hstep; [|discriminate].
        cbv zeta in Hstep.
        destruct (wr al o _) as [al2|] eqn:Hw; cbn [bind] in Hstep;
          [|discriminate].
        inversion Hstep; subst al2. apply wr_inv in Hw.
        destruct Hw as [Hlt ->]. split; [|apply length_upd].
        destruct (fold_push_neg_fields (tl (out_edges node))
                    (set_pos a0 (inp_edges node))) as (F1 & F2 & F3).
        apply upd_alias_inv; auto.
        -- rewrite F1; cbn. apply (Hinv o a0 Ha0).
        -- unfold is_valid. rewrite F2; cbn.
           destruct (inp_edges node); [congruence|]. apply orb_true_r.
  - (* continue *)
    inversion H; subst; auto.
Qed.

Lemma alias_loop_inv level ns :
  forall al red al' red',
    for_each ns (alias_node level) (al, red) = Some (al', red') ->
    alias_inv al ->
    alias_inv al' /\ length al' = length al /\ length red' = length red.
Proof.
  induction ns as [|n ns IH]; intros al red al' red' H Hinv;
    cbn [for_each] in H.
  - inversion H; subst; auto.
  - destruct (alias_node level (al, red) n) as [[al1 red1]|] eqn:Hn;
      [|discriminate].
    destruct (alias_node_inv _ _ _ _ _ _ Hn Hinv) as (I1 & L1 & L2).
    destruct (IH _ _ _ _ H I1) as (I2 & L3 & L4).
    split; [exact I2 | split; congruence].
Qed.

Lemma create_mappings_lengths al :
  length (snd (create_mappings al)) = length al.
Proof.
  unfold create_mappings.
  destruct (mapping_fold_spec al [] []) as (H & _). exact H.
Qed.

(** Everything [compute_aliases] establishes when it recomputes. *)
Lemma compute_aliases_post i a a' :
  aliased a = false ->
  compute_aliases i a = Some a' ->
  aliased a' = true
  /\ aliasing_level a' = aliasing_level a
  /\ length (aliases a') = length (aliases a)
  /\ length (reduced a') = length (reduced a)
  /\ alias_inv (aliases a')
  /\ (aliasing_level a <> NONE ->
      mappings_built a'
      /\ length (aliasToRed a') = length (aliases a')
      /\ length (rvars a') = length (redToAlias a'))
  /\ (aliasing_level a = NONE ->
      (forall b, In b (aliases a') -> empty b = true)
      /\ redToAlias a' = redToAlias a
      /\ aliasToRed a' = aliasToRed a
      /\ rvars a' = rvars a).
Proof.
  intros Hfresh H. unfold compute_aliases in H. rewrite Hfresh in H.
  cbv zeta in H.
  assert (Hloop : forall level,
            aliasing_level a = level -> level <> NONE ->
            (s <- for_each (nodes i) (alias_node level)
                   (reset_aliases (length (aliases a)),
                    repeat false (length (reduced a))) ;;
             (let '(al, red) := s in
              let '(r2a, a2r) := create_mappings al in
              Some (mkAliasing al true red level r2a a2r
                      (resize (rvars a) (length r2a))))) = Some a' ->
            aliased a' = true
            /\ aliasing_level a' = aliasing_level a
            /\ length (aliases a') = length (aliases a)
            /\ length (reduced a') = length (reduced a)
            /\ alias_inv (aliases a')
            /\ mappings_built a'
            /\ length (aliasToRed a') = length (aliases a')
            /\ length (rvars a') = length (redToAlias a')).
  { intros level Hl Hne H0.
    destruct (for_each (nodes i) (alias_node level) _) as [[al red]|] eqn:Hfe;
      cbn [bind] in H0; [|discriminate].
    destruct (alias_loop_inv _ _ _ _ _ _ Hfe (reset_aliases_inv _))
      as (I & L1 & L2).
    unfold reset_aliases in L1. rewrite length_map, length_seq in L1.
    rewrite repeat_length in L2.
    destruct (create_mappings al) as [r2a a2r] eqn:Hm.
    inversion H0; subst a'; cbn.
    do 4 (split; [auto|]). split; [exact I|].
    split; [unfold mappings_built; cbn; symmetry; exact Hm|].
    split; [|apply resize_length].
    pose proof (create_mappings_lengths al) as Hl2.
    rewrite Hm in Hl2. exact Hl2. }
  destruct (aliasing_level a) eqn:Hlevel.
  - inversion H; subst a'; cbn.
    split; [reflexivity|]. split; [reflexivity|].
    split; [unfold reset_aliases; rewrite length_map, length_seq; reflexivity|].
    split; [apply repeat_length|].
    split; [apply reset_aliases_inv|].
    split; [congruence|]. intros _.
    split; [intros b Hb; apply (reset_aliases_empty _ _ Hb) | auto].
  - destruct (Hloop TRIVIAL eq_refl ltac:(discriminate) H)
      as (A & B & C & D & E0 & F0 & G & K).
    do 4 (split; [assumption|]). split; [exact E0|].
    split; [auto | discriminate].
  - destruct (Hloop BASIC eq_refl ltac:(discriminate) H)
      as (A & B & C & D & E0 & F0 & G & K).
    do 4 (split; [assumption|]). split; [exact E0|].
    split; [auto | discriminate].
  - destruct (Hloop COMPLEX eq_refl ltac:(discriminate) H)
      as (A & B & C & D & E0 & F0 & G & K).
    do 4 (split; [assumption|]). split; [exact E0|].
    split; [auto | discriminate].
Qed.

End ComputeAliases.

Section ComputeAliasesTotal.

Import Global.

Lemma alias_to_total (al : list VarAlias) o p :
  (o < length al)%nat -> exists al', alias_to al o p = Some al'.
Proof.
  intros Ho. unfold alias_to.
  destruct (nth_error al o) as [a|] eqn:Ha;
    [|apply nth_error_None in Ha; lia].
  cbn [bind]. rewrite wr_some by assumption. eauto.
Qed.

Lemma alias_node_total level al red node :
  (index node < length red)%nat ->
  (forall j, In j (inp_edges node ++ out_edges node) -> (j < length al)%nat) ->
  exists s', alias_node level (al, red) node = Some s'.
Proof.
  intros Hidx Hedges. unfold alias_node.
  destruct (nth_error red (index node)) as [r|] eqn:Hr;
    [|apply nth_error_None in Hr; lia].
  cbn [bind].
  destruct (r || negb (has_interface_constraint node)) eqn:Hskip; [eauto|].
  apply orb_false_iff in Hskip. destruct Hskip as [_ Hic].
  apply negb_false_iff in Hic. unfold has_interface_constraint in Hic.
  destruct (inp_edges node) as [|i0 li] eqn:Ei; [discriminate|].
  destruct (out_edges node) as [|o0 lo] eqn:Eo; [cbn in Hic; discriminate|].
  assert (Hi0 : (i0 < length al)%nat) by (apply Hedges; left; reflexivity).
  assert (Ho0 : (o0 < length al)%nat)
    by (apply Hedges; apply in_or_app; right; left; reflexivity).
  unfold inp, out. rewrite Ei, Eo. cbn [nth_error bind]. cbv zeta.
  assert (Hmark : forall al1 : list VarAlias,
            exists s', (red1 <- wr red (index node) true ;; Some (al1, red1))
                       = Some s').
  { intros al1. rewrite wr_some by assumption. cbn [bind]. eauto. }
  destruct (alias_to_total al o0 (i0 :: li) Ho0) as (alo & Halo).
  destruct (alias_to_total al i0 (o0 :: lo) Hi0) as (ali & Hali).
  destruct ((length (i0 :: li) =? 1)%nat && (length (o0 :: lo) =? 1)%nat).
  - rewrite Halo; cbn [bind]. apply Hmark.
  - destruct ((length (i0 :: li) =? 1)%nat || (length (o0 :: lo) =? 1)%nat).
    + destruct (level_value level <? level_value BASIC)%nat;
        [cbn [bind]; eauto|].
      destruct (length (i0 :: li) =? 1)%nat.
      * rewrite Hali; cbn [bind]. apply Hmark.
      * rewrite Halo; cbn [bind]. apply Hmark.
    + destruct (level_value level =? level_value COMPLEX)%nat;
        [|cbn [bind]; eauto].
      destruct (nth_error al o0) as [a0|] eqn:Ha0;
        [|apply nth_error_None in Ha0; lia].
      cbn [bind]. rewrite wr_some by assumption. cbn [bind]. apply Hmark.
Qed.

Lemma alias_loop_total level ns :
  forall al red,
    alias_inv al ->
    (forall n, In n ns ->
       (index n < length red)%nat
       /\ forall j, In j (inp_edges n ++ out_edges n) -> (j < length al)%nat) ->
    exists s', for_each ns (alias_node level) (al, red) = Some s'.
Proof.
  induction ns as [|n ns IH]; intros al red Hinv Hall; cbn [for_each].
  - eauto.
  - destruct (Hall n (or_introl eq_refl)) as [Hidx Hedges].
    destruct (alias_node_total level al red n Hidx Hedges) as ([al1 red1] & Hn).
    rewrite Hn.
    destruct (alias_node_inv _ _ _ _ _ _ Hn Hinv) as (I1 & L1 & L2).
    apply IH; [exact I1|].
    intros n' Hn'. destruct (Hall n' (or_intror Hn')) as [A B].
    rewrite L1, L2. auto.
Qed.

Lemma nodes_in_range_spec num_nodes E ns n :
  nodes_in_range num_nodes E ns = true -> In n ns ->
  (index n < num_nodes)%nat
  /\ forall j, In j (inp_edges n ++ out_edges n) -> (j < E)%nat.
Proof.
  unfold nodes_in_range, edges_below. rewrite andb_true_iff.
  intros [H1 H2] Hn.
  rewrite forallb_forall in H1, H2. split.
  - apply Nat.ltb_lt, H1; assumption.
  - intros j Hj. specialize (H2 n Hn). rewrite forallb_forall in H2.
    apply Nat.ltb_lt, H2; assumption.
Qed.

End ComputeAliasesTotal.

(** X1.  On a problem whose node indices are below the number of nodes
    and whose edge indices are below the number of edges,
    [compute_aliases] returns; the state it returns is flagged as aliased
    and has the same level and the same numbers of aliases and nodes. *)
Theorem compute_aliases_returns :
  forall (i : Global.inputs) (a : Global.aliasing),
    nodes_in_range (length (Global.reduced a)) (length (Global.aliases a))
      (Global.nodes i) = true ->
    exists a',
      Global.compute_aliases i a = Some a'
      /\ Global.aliased a' = true
      /\ Global.aliasing_level a' = Global.aliasing_level a
      /\ length (Global.aliases a') = length (Global.aliases a)
      /\ length (Global.reduced a') = length (Global.reduced a).
Proof.
  intros i a Hrange.
  destruct (Global.aliased a) eqn:Hal.
  - exists a. unfold Global.compute_aliases. rewrite Hal. auto.
  - assert (Hret : exists a', Global.compute_aliases i a = Some a').
    { unfold Global.compute_aliases. rewrite Hal. cbv zeta.
      assert (Hloop : forall level,
                exists s',
                  for_each (Global.nodes i) (Global.alias_node level)
                    (Global.reset_aliases (length (Global.aliases a)),
                     repeat false (length (Global.reduced a))) = Some s').
      { intros level. apply alias_loop_total; [apply reset_aliases_inv|].
        intros n Hn.
        destruct (nodes_in_range_spec _ _ _ n Hrange Hn) as [A B].
        unfold Global.reset_aliases.
        rewrite repeat_length, length_map, length_seq. auto. }
      destruct (Global.aliasing_level a); [eauto| | |];
        match goal with
        | |- context [for_each _ (Global.alias_node ?l) _] =>
            destruct (Hloop l) as ([al red] & Hs); rewrite Hs; cbn [bind];
            destruct (Global.create_mappings al); eauto
        end. }
    destruct Hret as (a' & Ha'). exists a'. split; [exact Ha'|].
    destruct (compute_aliases_post i a a' Hal Ha') as (A & B & C & D & _).
    auto.
Qed.

Lemma compute_aliases_returns_witness :
  exists a',
    Global.compute_aliases inputs_2x2 fresh_aliasing_2x2 = Some a'
    /\ Global.aliased a' = true
    /\ Global.aliasing_level a' = Global.aliasing_level fresh_aliasing_2x2
    /\ length (Global.aliases a') = length (Global.aliases fresh_aliasing_2x2)
    /\ length (Global.reduced a') = length (Global.reduced fresh_aliasing_2x2).
Proof.
  apply (compute_aliases_returns inputs_2x2 fresh_aliasing_2x2). reflexivity.
Defined.

Lemma mapping_count al :
  forall r2a0 a2r0,
    length (fst (fold_left Global.mapping_step al (r2a0, a2r0)))
    = (length r2a0 + length (filter Global.empty al))%nat.
Proof.
  induction al as [|a al IH]; intros r2a0 a2r0; simpl.
  - lia.
  - destruct (Global.empty a); rewrite IH.
    + rewrite length_app; simpl; lia.
    + reflexivity.
Qed.

(** X2.  When [compute_aliases] recomputes at a level above NONE, the state
    it returns has the mappings of its aliases, each alias carries its own
    position as index, [aliasToRed] has one entry per edge, and the number
    of reduced variables ([redToAlias], [rvars]) is the number of unaliased
    edges. *)
Theorem compute_aliases_builds_mappings :
  forall (i : Global.inputs) (a a' : Global.aliasing),
    Global.aliased a = false ->
    Global.aliasing_level a <> Global.NONE ->
    Global.compute_aliases i a = Some a' ->
    mappings_built a'
    /\ aliases_numbered (Global.aliases a') = true
    /\ length (Global.aliasToRed a') = length (Global.aliases a')
    /\ length (Global.redToAlias a')
       = length (filter Global.empty (Global.aliases a'))
    /\ length (Global.rvars a') = length (Global.redToAlias a').
Proof.
  intros i a a' Hal Hlevel H.
  destruct (compute_aliases_post i a a' Hal H)
    as (_ & _ & _ & _ & Hinv & Hm & _).
  destruct (Hm Hlevel) as (Hb & L1 & L2).
  split; [exact Hb|]. split.
  - apply numbered_from_spec. intros j b Hb0. apply (Hinv j b Hb0).
  - split; [exact L1|]. split; [|exact L2].
    unfold mappings_built, Global.create_mappings in Hb.
    pose proof (mapping_count (Global.aliases a') [] []) as Hc.
    rewrite <- Hb in Hc. exact Hc.
Qed.

Lemma compute_aliases_builds_mappings_witness :
  exists a',
    Global.compute_aliases inputs_2x2 fresh_aliasing_2x2 = Some a'
    /\ mappings_built a'
    /\ aliases_numbered (Global.aliases a') = true
    /\ length (Global.aliasToRed a') = length (Global.aliases a')
    /\ length (Global.redToAlias a')
       = length (filter Global.empty (Global.aliases a'))
    /\ length (Global.rvars a') = length (Global.redToAlias a').
Proof.
  eexists. split; [reflexivity|].
  apply (compute_aliases_builds_mappings inputs_2x2 fresh_aliasing_2x2);
    [reflexivity | discriminate | reflexivity].
Defined.

(** X3.  No alias that [compute_aliases] produces is purely negative:
    every alias of the state it returns has no negative term or at least
    one positive term. *)
Theorem compute_aliases_keeps_aliases_valid :
  forall (i : Global.inputs) (a a' : Global.aliasing),
    Global.aliased a = false ->
    Global.compute_aliases i a = Some a' ->
    forall b, In b (Global.aliases a') -> Global.is_valid b = true.
Proof.
  intros i a a' Hal H b Hb.
  destruct (compute_aliases_post i a a' Hal H) as (_ & _ & _ & _ & Hinv & _).
  destruct (In_nth_error _ _ Hb) as (j & Hj).
  apply (Hinv j b Hj).
Qed.

Lemma compute_aliases_keeps_aliases_valid_witness :
  exists a',
    Global.compute_aliases inputs_2x2 fresh_aliasing_2x2 = Some a'
    /\ forall b, In b (Global.aliases a') -> Global.is_valid b = true.
Proof.
  eexists. split; [reflexivity|].
  apply (compute_aliases_keeps_aliases_valid inputs_2x2 fresh_aliasing_2x2);
    reflexivity.
Defined.

(** X4.  At level NONE, [compute_aliases] leaves every alias empty and
    returns before the mappings are rebuilt: [redToAlias], [aliasToRed] and
    [rvars] stay as they were. *)
Theorem compute_aliases_at_level_none :
  forall (i : Global.inputs) (a a' : Global.aliasing),
    Global.aliased a = false ->
    Global.aliasing_level a = Global.NONE ->
    Global.compute_aliases i a = Some a' ->
    (forall b, In b (Global.aliases a') -> Global.empty b = true)
    /\ Global.redToAlias a' = Global.redToAlias a
    /\ Global.aliasToRed a' = Global.aliasToRed a
    /\ Global.rvars a' = Global.rvars a.
Proof.
  intros i a a' Hal Hlevel H.
  destruct (compute_aliases_post i a a' Hal H) as (_ & _ & _ & _ & _ & _ & Hn).
  apply Hn; assumption.
Qed.

Lemma compute_aliases_at_level_none_witness :
  exists a',
    Global.compute_aliases inputs_1x1 (Global.ali_of global_state_nocap)
    = Some a'
    /\ (forall b, In b (Global.aliases a') -> Global.empty b = true)
    /\ Global.redToAlias a' = Global.redToAlias (Global.ali_of global_state_nocap)
    /\ Global.aliasToRed a' = Global.aliasToRed (Global.ali_of global_state_nocap)
    /\ Global.rvars a' = Global.rvars (Global.ali_of global_state_nocap).
Proof.
  eexists. split; [reflexivity|].
  apply (compute_aliases_at_level_none inputs_1x1
           (Global.ali_of global_state_nocap)); reflexivity.
Defined.

(** X5.  The result of [compute_aliases] is cached: called again on the
    state it returned, with whatever nodes, it returns that state
    unchanged. *)
Theorem compute_aliases_is_cached :
  forall (i i2 : Global.inputs) (a a' : Global.aliasing),
    Global.compute_aliases i a = Some a' ->
    Global.compute_aliases i2 a' = Some a'.
Proof.
  intros i i2 a a' H.
  assert (Hflag : Global.aliased a' = true).
  { destruct (Global.aliased a) eqn:Hal.
    - unfold Global.compute_aliases in H. rewrite Hal in H.
      inversion H; subst; assumption.
    - apply (compute_aliases_post i a a' Hal H). }
  unfold Global.compute_aliases. rewrite Hflag. reflexivity.
Qed.

Lemma compute_aliases_is_cached_witness :
  exists a',
    Global.compute_aliases inputs_2x2 fresh_aliasing_2x2 = Some a'
    /\ Global.compute_aliases inputs_1x1 a' = Some a'.
Proof.
  eexists. split; [reflexivity|].
  apply (compute_aliases_is_cached inputs_2x2 inputs_1x1 fresh_aliasing_2x2).
  reflexivity.
Defined.

(** ** Gather, projection and the alias inequality *)

Lemma mapping_fold_inverse :
  forall al r2a0 a2r0,
    let m := fold_left Global.mapping_step al (r2a0, a2r0) in
    (forall k, (k < length r2a0)%nat ->
               nth_error (fst m) k = nth_error r2a0 k)
    /\ (forall k, (length r2a0 <= k < length (fst m))%nat ->
          exists j b,
            nth_error al j = Some b
            /\ Global.empty b = true
            /\ nth_error (fst m) k = Some (Global.alias_index b)
            /\ nth_error (snd m) (length a2r0 + j) = Some (Some k)).
Proof.
  induction al as [|a al IH]; intros r2a0 a2r0; simpl.
  - split; [reflexivity | intros; lia].
  - destruct (Global.empty a) eqn:Ea.
    + specialize (IH (r2a0 ++ [Global.alias_index a])
                     (a2r0 ++ [Some (length r2a0)])).
      destruct (mapping_fold_spec al (r2a0 ++ [Global.alias_index a])
                  (a2r0 ++ [Some (length r2a0)])) as (_ & _ & Hpre & _).
      simpl in IH, Hpre. destruct IH as (Hp & Hk).
      rewrite !length_app in *; simpl in *. split.
      * intros k Hlt. rewrite Hp by lia. apply nth_error_app1; assumption.
      * intros k Hrange.
        destruct (Nat.eq_dec k (length r2a0)) as [->|Hne].
        -- exists 0%nat, a. split; [reflexivity|]. split; [assumption|].
           split.
           ++ rewrite Hp by lia. rewrite nth_error_app2 by lia.
              rewrite Nat.sub_diag; reflexivity.
           ++ rewrite Nat.add_0_r, Hpre by lia.
              rewrite nth_error_app2 by lia.
              rewrite Nat.sub_diag; reflexivity.
        -- destruct (Hk k ltac:(lia)) as (j & b & Hb & He & H1 & H2).
           exists (S j), b. repeat split; auto.
           replace (length a2r0 + S j)%nat with (length a2r0 + 1 + j)%nat by lia.
           exact H2.
    + specialize (IH r2a0 (a2r0 ++ [None])).
      simpl in IH. destruct IH as (Hp & Hk).
      rewrite !length_app in *; simpl in *. split; [exact Hp|].
      intros k Hrange.
      destruct (Hk k Hrange) as (j & b & Hb & He & H1 & H2).
      exists (S j), b. repeat split; auto.
      replace (length a2r0 + S j)%nat with (length a2r0 + 1 + j)%nat by lia.
      exact H2.
Qed.

(** X6.  Round trip between the two coordinate systems: expanding a reduced
    vector with [from_reduced_to_aliases] and projecting the result back
    with [set_reduced_from_aliases] gives the reduced vector again. *)
Theorem set_reduced_after_gather_is_identity :
  forall (a : Global.aliasing) (r ns rns : vec),
    mappings_built a ->
    aliases_numbered (Global.aliases a) = true ->
    alias_refs_ok (Global.aliases a) = true ->
    length r = length (Global.redToAlias a) ->
    length ns = length (Global.aliases a) ->
    length rns = length (Global.redToAlias a) ->
    exists x,
      Global.from_reduced_to_aliases a r ns = Some x
      /\ Global.set_reduced_from_aliases a x rns = Some r.
Proof.
  intros a r ns rns Hb Hnum Hrefs Hr Hns Hrns.
  destruct (gather_spec a r Hb Hrefs Hr ns Hns) as (x & Hx & Hlx & Hval).
  exists x. split; [exact Hx|].
  assert (Hf : forall k, (k < length rns)%nat ->
             (j <- nth_error (Global.redToAlias a) k ;; rd x j)
             = nth_error r k).
  { intros k Hk.
    destruct (mapping_fold_inverse (Global.aliases a) [] []) as (_ & Hinv).
    unfold mappings_built, Global.create_mappings in Hb.
    rewrite <- Hb in Hinv. simpl in Hinv.
    destruct (Hinv k ltac:(lia)) as (j & b & Hbj & He & H1 & H2).
    assert (Hidx : Global.alias_index b = j).
    { rewrite (proj1 (numbered_from_spec _ 0) Hnum j b Hbj). reflexivity. }
    rewrite H1, Hidx; cbn [bind]. unfold rd.
    assert (Hj : (j < length (Global.aliases a))%nat)
      by (apply nth_error_Some; congruence).
    rewrite Hval by lia. unfold alias_value.
    rewrite Hbj; cbn [bind]. rewrite He.
    unfold Global.red_index. rewrite H2; cbn [bind]. reflexivity. }
  unfold Global.set_reduced_from_aliases, for_range.
  rewrite (for_each_ext _ (fun rns k =>
             v <- (j <- nth_error (Global.redToAlias a) k ;; rd x j) ;;
             wr rns k v)).
  - destruct (for_each_write
                (fun k => j <- nth_error (Global.redToAlias a) k ;; rd x j)
                (length rns) 0 rns) as (y & Hy & Hly & Hin & _); [lia | |].
    + intros k Hk. rewrite Hf by lia.
      destruct (nth_error r k) as [v|] eqn:E; [eauto|].
      apply nth_error_None in E; lia.
    + rewrite Hy. f_equal. apply nth_error_ext. intros k.
      destruct (Nat.lt_ge_cases k (length rns)) as [Hlt|Hge].
      * rewrite Hin by lia. apply Hf; assumption.
      * rewrite (proj2 (nth_error_None y k)) by lia.
        rewrite (proj2 (nth_error_None r k)) by lia. reflexivity.
  - intros s k. destruct (nth_error (Global.redToAlias a) k); reflexivity.
Qed.

Lemma set_reduced_after_gather_is_identity_witness :
  exists x,
    Global.from_reduced_to_aliases aliasing_2x2 [1; 2; 3] [0; 0; 0; 0] = Some x
    /\ Global.set_reduced_from_aliases aliasing_2x2 x [7; 7; 7] = Some [1; 2; 3].
Proof.
  apply (set_reduced_after_gather_is_identity
           aliasing_2x2 [1; 2; 3] [0; 0; 0; 0] [7; 7; 7]); reflexivity.
Defined.

Section AliasConstraint.

Import Global.

Variable a : aliasing.
Variable r : vec.

(** The loop of the constraint over [alias.pos], without a gradient
    buffer, beside the loop of the gather. *)
Lemma constraint_pos_loop (idxs : list index_t) :
  (forall j, In j idxs -> resolves a r j) ->
  forall res0 v0,
  exists S v res,
    for_each idxs (fun val idx =>
      k <- red_index a idx ;; x <- rd r k ;; Some (val + x)) v0 = Some v
    /\ v = v0 + S
    /\ for_each idxs (fun (s : R * vec) idx =>
         let '(res, rgrad) := s in
         k <- red_index a idx ;;
         x <- rd r k ;;
         g1 <- (if (0 <? length rgrad)%nat then sub_at rgrad k 1
                else Some rgrad) ;;
         Some (res - x, g1)) (res0, []) = Some (res, [])
    /\ res = res0 - S.
Proof.
  induction idxs as [|j idxs IH]; intros Hall res0 v0; cbn [for_each].
  - exists 0, v0, res0. repeat split; ring.
  - destruct (Hall j (or_introl eq_refl)) as (k & rk & Hk & _ & Hrk).
    rewrite Hk; cbn [bind]. rewrite Hrk; cbn [bind].
    destruct (IH (fun j' H => Hall j' (or_intror H)) (res0 - rk) (v0 + rk))
      as (S & v & res & Hv & Ev & Hres & Eres).
    exists (rk + S), v, res.
    split; [exact Hv|]. split; [subst; ring|].
    split; [exact Hres | subst; ring].
Qed.

Lemma constraint_neg_loop (idxs : list index_t) :
  (forall j, In j idxs -> resolves a r j) ->
  forall res0 v0,
  exists S v res,
    for_each idxs (fun val idx =>
      k <- red_index a idx ;; x <- rd r k ;; Some (val - x)) v0 = Some v
    /\ v = v0 - S
    /\ for_each idxs (fun (s : R * vec) idx =>
         let '(res, rgrad) := s in
         k <- red_index a idx ;;
         x <- rd r k ;;
         g1 <- (if (0 <? length rgrad)%nat then add_at rgrad k 1
                else Some rgrad) ;;
         Some (res + x, g1)) (res0, []) = Some (res, [])
    /\ res = res0 + S.
Proof.
  induction idxs as [|j idxs IH]; intros Hall res0 v0; cbn [for_each].
  - exists 0, v0, res0. repeat split; ring.
  - destruct (Hall j (or_introl eq_refl)) as (k & rk & Hk & _ & Hrk).
    rewrite Hk; cbn [bind]. rewrite Hrk; cbn [bind].
    destruct (IH (fun j' H => Hall j' (or_intror H)) (res0 + rk) (v0 - rk))
      as (S & v & res & Hv & Ev & Hres & Eres).
    exists (rk + S), v, res.
    split; [exact Hv|]. split; [subst; ring|].
    split; [exact Hres | subst; ring].
Qed.

End AliasConstraint.

(** X7.  The alias inequality is the lower bound of the aliased variable:
    for an aliased edge [i], the value of [global_alias_constraint] at a
    reduced point [r] is [min_bound - x_i], where [x] is the full vector
    that [from_reduced_to_aliases] expands [r] to; so the constraint holds
    ([<= 0]) exactly when [x_i >= min_bound]. *)
Theorem alias_constraint_bounds_aliased_value :
  forall (a : Global.aliasing) (r ns : vec) (i : index_t)
         (alias : Global.VarAlias) (mb : R),
    mappings_built a ->
    alias_refs_ok (Global.aliases a) = true ->
    length r = length (Global.redToAlias a) ->
    length ns = length (Global.aliases a) ->
    nth_error (Global.aliases a) i = Some alias ->
    Global.empty alias = false ->
    exists x g,
      Global.from_reduced_to_aliases a r ns = Some x
      /\ Global.global_alias_constraint a r [] (Global.set_min_bound alias mb)
         = Some (g, [])
      /\ g = mb - at_ x i
      /\ (g <= 0 <-> mb <= at_ x i).
Proof.
  intros a r ns i alias mb Hb Hrefs Hr Hns Hi He.
  destruct (gather_spec a r Hb Hrefs Hr ns Hns) as (x & Hx & Hlx & Hval).
  assert (Hlt : (i < length ns)%nat).
  { rewrite Hns. apply nth_error_Some. congruence. }
  specialize (Hval i Hlt). unfold alias_value in Hval.
  rewrite Hi in Hval; cbn [bind] in Hval. rewrite He in Hval.
  assert (Hpos : forall j, In j (Global.pos alias) -> resolves a r j).
  { intros j Hj. apply (referenced_resolves a r Hb Hrefs Hr i alias j Hi).
    apply in_or_app; auto. }
  assert (Hneg : forall j, In j (Global.neg alias) -> resolves a r j).
  { intros j Hj. apply (referenced_resolves a r Hb Hrefs Hr i alias j Hi).
    apply in_or_app; auto. }
  destruct (constraint_pos_loop a r (Global.pos alias) Hpos mb 0)
    as (Sp & vp & rp & Hvp & Evp & Hrp & Erp).
  destruct (constraint_neg_loop a r (Global.neg alias) Hneg rp vp)
    as (Sn & vn & rn & Hvn & Evn & Hrn & Ern).
  rewrite Hvp in Hval; cbn [bind] in Hval. rewrite Hvn in Hval.
  exists x, rn. split; [exact Hx|].
  assert (Hg : rn = mb - at_ x i).
  { rewrite (at_nth_error x i vn Hval). subst. ring. }
  split.
  - unfold Global.global_alias_constraint. cbn [Global.min_bound
      Global.set_min_bound Global.pos Global.neg bind].
    bind_with Hrp. exact Hrn.
  - split; [exact Hg|]. rewrite Hg. split; intros; lra.
Qed.

Lemma alias_constraint_bounds_aliased_value_witness :
  exists x g,
    Global.from_reduced_to_aliases aliasing_2x2 [3; 4; 2] [0; 0; 0; 0] = Some x
    /\ Global.global_alias_constraint aliasing_2x2 [3; 4; 2] []
         (Global.set_min_bound (Global.mkAlias 2 [0; 1]%nat [3]%nat None) 2)
       = Some (g, [])
    /\ g = 2 - at_ x 2
    /\ (g <= 0 <-> 2 <= at_ x 2).
Proof.
  apply (alias_constraint_bounds_aliased_value aliasing_2x2 [3; 4; 2]
           [0; 0; 0; 0] 2%nat (Global.mkAlias 2 [0; 1]%nat [3]%nat None) 2);
    reflexivity.
Defined.

(** ** The constraints [solve] registers *)

Section Registration.

Import Global.

Lemma add_node_constraints_spec none a tol ns :
  forall o o',
    add_node_constraints none a tol ns o = Some o' ->
    equality_constraints o'
    = equality_constraints o
      ++ map (fun n => (if none then interface_constraint n
                        else reduced_constraint n, tol))
             (filter (unreduced (reduced a)) ns)
    /\ inequality_constraints o' = inequality_constraints o.
Proof.
  unfold add_node_constraints.
  induction ns as [|n ns IH]; intros o o' H; cbn [for_each] in H.
  - inversion H; subst. cbn. rewrite app_nil_r. auto.
  - cbn [filter]. unfold unreduced at 1.
    destruct (has_interface_constraint n) eqn:Hic.
    + destruct (nth_error (reduced a) (index n)) as [r|] eqn:Hr;
        cbn [bind] in H; [|discriminate].
      rewrite (nth_error_nth _ _ true Hr).
      destruct r; cbn [negb andb] in H |- *.
      * apply IH; assumption.
      * destruct (IH _ _ H) as (E1 & E2). rewrite E1, E2. cbn.
        rewrite <- app_assoc. auto.
    + cbn [andb]. apply IH; assumption.
Qed.

Lemma has_constraint_set_min_bound b mb :
  has_constraint (set_min_bound b mb) = has_constraint b.
Proof. reflexivity. Qed.

Lemma add_alias_constraints_lists mb tol al :
  forall done o,
    let r := fold_left (fun (s : list VarAlias * opt constraint) alias =>
      if has_constraint alias then
        let a1 := set_min_bound alias mb in
        (fst s ++ [a1], add_inequality_constraint (snd s) (alias_constraint a1) tol)
      else (fst s ++ [alias], snd s)) al (done, o) in
    equality_constraints (snd r) = equality_constraints o
    /\ inequality_constraints (snd r)
       = inequality_constraints o
         ++ map (fun b => (alias_constraint b, tol))
                (filter has_constraint (skipn (length done) (fst r)))
    /\ firstn (length done) (fst r) = done.
Proof.
  induction al as [|b al IH]; intros done o; cbn [fold_left].
  - cbn. rewrite skipn_all, app_nil_r, firstn_all. auto.
  - destruct (has_constraint b) eqn:Hc; cbn [fst snd].
    + destruct (IH (done ++ [set_min_bound b mb])
                  (add_inequality_constraint o
                     (alias_constraint (set_min_bound b mb)) tol))
        as (E1 & E2 & E3).
      cbv zeta in *. rewrite length_app in E2, E3; cbn [length] in E2, E3.
      set (res := fold_left _ al _) in *.
      assert (Hfst : fst res
                     = done ++ set_min_bound b mb
                          :: skipn (length done + 1) (fst res)).
      { rewrite <- (firstn_skipn (length done + 1) (fst res)) at 1.
        rewrite E3, <- app_assoc. reflexivity. }
      split; [exact E1|]. split.
      * rewrite E2. cbn [inequality_constraints add_inequality_constraint].
        rewrite <- app_assoc. f_equal.
        rewrite Hfst at 2. rewrite skipn_app, skipn_all, Nat.sub_diag.
        cbn [app skipn filter]. rewrite has_constraint_set_min_bound, Hc.
        reflexivity.
      * rewrite Hfst. rewrite firstn_app, firstn_all, Nat.sub_diag.
        cbn. apply app_nil_r.
    + destruct (IH (done ++ [b]) o) as (E1 & E2 & E3).
      cbv zeta in *. rewrite length_app in E2, E3; cbn [length] in E2, E3.
      set (res := fold_left _ al _) in *.
      assert (Hfst : fst res = done ++ b :: skipn (length done + 1) (fst res)).
      { rewrite <- (firstn_skipn (length done + 1) (fst res)) at 1.
        rewrite E3, <- app_assoc. reflexivity. }
      split; [exact E1|]. split.
      * rewrite E2. f_equal.
        rewrite Hfst at 2. rewrite skipn_app, skipn_all, Nat.sub_diag.
        cbn [app skipn filter]. rewrite Hc. reflexivity.
      * rewrite Hfst. rewrite firstn_app, firstn_all, Nat.sub_diag.
        cbn. apply app_nil_r.
Qed.

Lemma add_range_constraints_lists tol ns :
  forall o,
    equality_constraints (add_range_constraints tol ns o)
    = equality_constraints o
    /\ inequality_constraints (add_range_constraints tol ns o)
       = inequality_constraints o
         ++ flat_map (fun n => [(urange_constraint n, tol);
                                (lrange_constraint n, tol)])
                     (filter has_range_constraint ns).
Proof.
  unfold add_range_constraints.
  induction ns as [|n ns IH]; intros o; cbn [fold_left filter].
  - cbn. rewrite app_nil_r. auto.
  - destruct (has_range_constraint n).
    + destruct (IH (add_inequality_constraint
                      (add_inequality_constraint o (urange_constraint n) tol)
                      (lrange_constraint n) tol)) as (E1 & E2).
      rewrite E1, E2. cbn. rewrite <- !app_assoc. auto.
    + apply IH.
Qed.

End Registration.

(** X8.  What [solve] registers.  With [use_constraints], one equality
    constraint per interface node that the aliasing did not reduce, in node
    order, and one inequality per alias with more than one negative term;
    without it, none of these.  With [global_shaping], whether constraints
    are in use or not, an upper and a lower range inequality per simple
    node, after the alias inequalities.  Every constraint carries
    [constraint_tol]. *)
Theorem solve_registers_constraints :
  forall st noise st' o,
    Global.solve_prepare st noise = Some (st', o) ->
    let i := Global.inp_of st in
    let c := Global.cfg_of st in
    let a' := Global.ali_of st' in
    let tol := Global.constraint_tol c in
    equality_constraints o
    = (if Global.use_constraints c
       then map (fun n => (node_callback (Global.aliasing_level a') n, tol))
                (filter (unreduced (Global.reduced a')) (Global.nodes i))
       else [])
    /\ inequality_constraints o
       = (if Global.use_constraints c
          then map (fun b => (Global.alias_constraint b, tol))
                   (filter Global.has_constraint (Global.aliases a'))
          else [])
         ++ (if Global.global_shaping c
             then flat_map (fun n => [(Global.urange_constraint n, tol);
                                      (Global.lrange_constraint n, tol)])
                           (filter Global.has_range_constraint (Global.nodes i))
             else []).
Proof.
  intros st noise st' o H i c a' tol. subst a'.
  unfold Global.solve_prepare in H. fold i c in H.
  destruct (Global.compute_aliases i (Global.ali_of st)) as [a1|] eqn:Ha;
    cbn [bind] in H; [|discriminate].
  destruct (Global.problem_bounds (Global.cdata i)) as [mn mx].
  set (o1 := configure_stopping _ _ _ _ _) in H.
  set (o2 := set_upper_bounds _ _) in H.
  assert (Ho2 : equality_constraints o2 = [] /\ inequality_constraints o2 = []).
  { subst o2 o1; cbn.
    destruct (configure_stopping_constraints (@new_opt Global.constraint
                (if Global.is_none (Global.aliasing_level a1)
                 then length (Global.nvars (Global.out_of st))
                 else length (Global.rvars a1)))
                (Global.main_ftol_rel c) (Global.max_eval c)
                (Global.max_time c) 1000) as (E1 & E2).
    rewrite E1, E2. auto. }
  destruct Ho2 as (Eq2 & In2).
  assert (Hlists :
    forall al3 o3,
      (if Global.use_constraints c
       then o3' <- Global.add_node_constraints
                     (Global.is_none (Global.aliasing_level a1)) a1
                     (Global.constraint_tol c) (Global.nodes i) o2 ;;
            Some (Global.add_alias_constraints mn (Global.constraint_tol c)
                    (Global.aliases a1) o3')
       else Some (Global.aliases a1, o2)) = Some (al3, o3) ->
      equality_constraints o3
      = (if Global.use_constraints c
         then map (fun n => (node_callback (Global.aliasing_level a1) n, tol))
                  (filter (unreduced (Global.reduced a1)) (Global.nodes i))
         else [])
      /\ inequality_constraints o3
         = (if Global.use_constraints c
            then map (fun b => (Global.alias_constraint b, tol))
                     (filter Global.has_constraint al3)
            else [])).
  { intros al3 o3 H3. destruct (Global.use_constraints c).
    - destruct (Global.add_node_constraints _ a1 _ _ o2) as [o3'|] eqn:Hn;
        cbn [bind] in H3; [|discriminate].
      destruct (add_node_constraints_spec _ _ _ _ _ _ Hn) as (E1 & E2).
      destruct (add_alias_constraints_lists mn (Global.constraint_tol c)
                  (Global.aliases a1) [] o3') as (F1 & F2 & _).
      unfold Global.add_alias_constraints in H3.
      injection H3 as H3.
      cbv zeta in F1, F2. rewrite H3 in F1, F2.
      cbn [length skipn fst snd] in F1, F2.
      rewrite F1, F2, E1, E2, Eq2, In2. cbn [app].
      unfold node_callback. auto.
    - inversion H3; subst. auto. }
  match type of H with
  | bind ?m _ = _ => destruct m as [[al3 o3]|] eqn:Hs3
  end; cbn [bind] in H; [|discriminate].
  destruct (Hlists al3 o3 eq_refl) as (Eq3 & In3).
  cbn [fst snd] in H.
  set (o4 := if Global.global_shaping c then _ else _) in H.
  assert (Ho4 : equality_constraints o4 = equality_constraints o3
                /\ inequality_constraints o4
                   = inequality_constraints o3
                     ++ (if Global.global_shaping c
                         then flat_map (fun n =>
                                [(Global.urange_constraint n, tol);
                                 (Global.lrange_constraint n, tol)])
                                (filter Global.has_range_constraint
                                   (Global.nodes i))
                         else [])).
  { subst o4. destruct (Global.global_shaping c).
    - apply add_range_constraints_lists.
    - rewrite app_nil_r. auto. }
  destruct Ho4 as (Eq4 & In4).
  destruct (Global.is_none (Global.aliasing_level a1)) eqn:Hnone;
    cbn [bind] in H.
  - inversion H; subst st' o; clear H. cbn.
    rewrite Eq4, In4, Eq3, In3. auto.
  - destruct (Global.set_reduced_from_aliases _ _ _) as [rv|];
      cbn [bind] in H; [|discriminate].
    inversion H; subst st' o; clear H. cbn.
    rewrite Eq4, In4, Eq3, In3. auto.
Qed.

Lemma solve_registers_constraints_witness :
  exists st' o,
    Global.solve_prepare global_state_2x3 no_noise = Some (st', o)
    /\ let i := Global.inp_of global_state_2x3 in
       let c := Global.cfg_of global_state_2x3 in
       let a' := Global.ali_of st' in
       let tol := Global.constraint_tol c in
       equality_constraints o
       = (if Global.use_constraints c
          then map (fun n => (node_callback (Global.aliasing_level a') n, tol))
                   (filter (unreduced (Global.reduced a')) (Global.nodes i))
          else [])
       /\ inequality_constraints o
          = (if Global.use_constraints c
             then map (fun b => (Global.alias_constraint b, tol))
                      (filter Global.has_constraint (Global.aliases a'))
             else [])
            ++ (if Global.global_shaping c
                then flat_map (fun n => [(Global.urange_constraint n, tol);
                                         (Global.lrange_constraint n, tol)])
                              (filter Global.has_range_constraint
                                 (Global.nodes i))
                else []).
Proof.
  eexists; eexists. split; [reflexivity|].
  apply (solve_registers_constraints global_state_2x3 no_noise). reflexivity.
Defined.

(** ** The bounds of the global problem *)

Lemma problem_bounds_fold_bounds :
  forall cd m M,
    let r := fold_left (fun (b : R * R) val =>
               (Rmin (fst b) (floor (val * 0.5)),
                Rmax (snd b) (ceil (val * 2.0)))) cd (m, M) in
    fst r <= m /\ M <= snd r
    /\ forall c, In c cd -> fst r <= floor (c * 0.5) /\ ceil (c * 2.0) <= snd r.
Proof.
  induction cd as [|c cd IH]; intros m M; cbn [fold_left].
  - cbn. split; [lra|]. split; [lra|]. intros c [].
  - cbn [fst snd].
    specialize (IH (Rmin m (floor (c * 0.5))) (Rmax M (ceil (c * 2.0)))).
    cbv zeta in *. destruct IH as (H1 & H2 & H3).
    pose proof (Rmin_l m (floor (c * 0.5))).
    pose proof (Rmin_r m (floor (c * 0.5))).
    pose proof (Rmax_l M (ceil (c * 2.0))).
    pose proof (Rmax_r M (ceil (c * 2.0))).
    split; [lra|]. split; [lra|].
    intros c' [<-|Hin]; [lra|]. apply H3; assumption.
Qed.

Lemma problem_bounds_ordered cd :
  cd <> [] ->
  2 <= fst (Global.problem_bounds cd) <= 1000
  /\ fst (Global.problem_bounds cd) <= snd (Global.problem_bounds cd).
Proof.
  intros Hne. unfold Global.problem_bounds.
  pose proof (problem_bounds_fold_bounds cd 1e3 2) as Hf. cbv zeta in Hf.
  destruct (fold_left _ cd (1e3, 2)) as [m M]. cbn [fst snd] in *.
  destruct Hf as (H1 & H2 & H3).
  destruct cd as [|c cd]; [congruence|].
  destruct (H3 c (or_introl eq_refl)) as (Hm & HM).
  destruct (floor_spec (c * 0.5)) as (Hfl & _).
  destruct (ceil_spec (c * 2.0)) as (_ & Hce).
  unfold Rmax. destruct (Rle_dec 2.0 m); split; lra.
Qed.

Lemma initial_guess_in_bounds c cd lo hi noise :
  Global.gaussian_start c = true ->
  lo <= hi ->
  Forall (fun x => lo <= x <= hi) (Global.initial_guess c cd lo hi noise).
Proof.
  intros Hg Hle. unfold Global.initial_guess. rewrite Hg.
  apply Forall_forall. intros x Hx. apply in_map_iff in Hx.
  destruct Hx as (p & <- & _).
  pose proof (Rmax_l lo (Rmin hi (snd p + noise (fst p)))).
  pose proof (Rmin_l hi (snd p + noise (fst p))).
  split; [assumption|].
  apply Rmax_lub; lra.
Qed.

(** X9.  For a non-empty [cdata] the bounds the global [solve] hands the
    optimizer are ordered, [2 <= lower <= upper] with [lower <= 1000]; and
    under [gaussian_start] every variable of the perturbed starting point
    lies within them, whatever the noise. *)
Theorem global_bounds_ordered_noisy_start_feasible :
  forall st noise st' o,
    Global.cdata (Global.inp_of st) <> [] ->
    Global.solve_prepare st noise = Some (st', o) ->
    exists lo hi,
      lower_bounds o = Some (Uniform lo)
      /\ upper_bounds o = Some (Uniform hi)
      /\ 2 <= lo <= 1000 /\ lo <= hi
      /\ (Global.gaussian_start (Global.cfg_of st) = true ->
          Forall (fun x => lo <= x <= hi) (Global.nvars (Global.out_of st'))).
Proof.
  intros st noise st' o Hne H.
  apply solve_prepare_inv in H. cbv zeta in H.
  destruct H as (_ & _ & _ & Hlow & Hup & _ & Hnv & _).
  destruct (problem_bounds_ordered _ Hne) as (H2 & Hle).
  eexists; eexists. split; [exact Hlow|]. split; [exact Hup|].
  split; [exact H2|]. split; [exact Hle|].
  intros Hg. rewrite Hnv. apply initial_guess_in_bounds; assumption.
Qed.

Lemma global_bounds_ordered_noisy_start_feasible_witness :
  exists st' o,
    Global.solve_prepare global_state_noisy (fun k => INR k) = Some (st', o)
    /\ exists lo hi,
         lower_bounds o = Some (Uniform lo)
         /\ upper_bounds o = Some (Uniform hi)
         /\ 2 <= lo <= 1000 /\ lo <= hi
         /\ (Global.gaussian_start (Global.cfg_of global_state_noisy) = true ->
             Forall (fun x => lo <= x <= hi) (Global.nvars (Global.out_of st'))).
Proof.
  eexists; eexists. split; [reflexivity|].
  apply (global_bounds_ordered_noisy_start_feasible
           global_state_noisy (fun k => INR k)); [discriminate|reflexivity].
Defined.

(** X10.  For an empty [cdata] the loop over the targets never runs and
    the global [solve] hands the optimizer the seeds of its two running
    bounds: the lower bound 1000 and the upper bound 2, an empty box. *)
Theorem global_bounds_of_empty_problem :
  forall st noise st' o,
    Global.cdata (Global.inp_of st) = [] ->
    Global.solve_prepare st noise = Some (st', o) ->
    lower_bounds o = Some (Uniform 1000)
    /\ upper_bounds o = Some (Uniform 2).
Proof.
  intros st noise st' o He H.
  apply solve_prepare_inv in H. cbv zeta in H.
  destruct H as (_ & _ & _ & Hlow & Hup & _).
  rewrite He in Hlow, Hup. unfold Global.problem_bounds in Hlow, Hup.
  cbn [fold_left fst snd] in Hlow, Hup.
  rewrite Hlow, Hup. split; [|reflexivity].
  do 2 f_equal. unfold Rmax. destruct (Rle_dec 2.0 1e3); lra.
Qed.

Lemma global_bounds_of_empty_problem_witness :
  exists st' o,
    Global.solve_prepare global_state_empty no_noise = Some (st', o)
    /\ lower_bounds o = Some (Uniform 1000)
    /\ upper_bounds o = Some (Uniform 2).
Proof.
  eexists; eexists. split; [reflexivity|].
  eapply (global_bounds_of_empty_problem global_state_empty no_noise);
    reflexivity.
Defined.

(** ** The constraints of the local problem *)

Section LocalConstraints.

Import Local.

Variable i : inputs.

Lemma rd_at (x : vec) k : (k < length x)%nat -> rd x k = Some (at_ x k).
Proof. apply nth_error_at. Qed.

Lemma get_constraints_inv uf ul cs :
  get_constraints i uf ul = Some cs ->
  (0 < length (cdata i))%nat
  /\ cs = (if uf then [mkBound 0 FirstMin; mkBound 0 FirstMax] else [])
          ++ flat_map (fun k => [mkBound k NextMin; mkBound k NextMax])
                      (seq 0 (length (cdata i) - 1))
          ++ (if ul then [mkBound (length (cdata i) - 1) LastMin;
                          mkBound (length (cdata i) - 1) LastMax]
              else []).
Proof.
  unfold get_constraints.
  destruct (length (cdata i) =? 0)%nat eqn:E; [discriminate|].
  apply Nat.eqb_neq in E. intros H; inversion H. split; [lia|reflexivity].
Qed.

Lemma in_next_bounds n b :
  In b (flat_map (fun k => [mkBound k NextMin; mkBound k NextMax]) (seq 0 n))
  <-> exists k, (k < n)%nat /\ (b = mkBound k NextMin \/ b = mkBound k NextMax).
Proof.
  rewrite in_flat_map. split.
  - intros (k & Hk & Hb). apply in_seq in Hk. exists k. split; [lia|].
    cbn in Hb. intuition.
  - intros (k & Hk & Hb). exists k. split; [apply in_seq; lia|].
    cbn. intuition.
Qed.

Lemma length_next_bounds n :
  forall s,
    length (flat_map (fun k => [mkBound k NextMin; mkBound k NextMax]) (seq s n))
    = (2 * n)%nat.
Proof.
  induction n as [|n IH]; intros s; cbn [seq flat_map].
  - reflexivity.
  - rewrite length_app, IH. cbn [length]. lia.
Qed.

Lemma next_min_value (x : vec) k :
  (k + 1 < length x)%nat ->
  local_constraint i x [] (mkBound k NextMin)
  = Some (at_ x k * iF i - at_ x (k + 1), []).
Proof.
  intros Hk. unfold local_constraint. cbn [type index length Nat.eqb negb bind].
  rewrite !rd_at by lia. reflexivity.
Qed.

Lemma next_max_value (x : vec) k :
  (k + 1 < length x)%nat ->
  local_constraint i x [] (mkBound k NextMax)
  = Some (- at_ x k * F i + at_ x (k + 1), []).
Proof.
  intros Hk. unfold local_constraint. cbn [type index length Nat.eqb negb bind].
  rewrite !rd_at by lia. reflexivity.
Qed.

End LocalConstraints.

(** X11.  The list [get_constraints(false, false)] that the local [solve]
    registers has [2 (N - 1)] entries; each of them can be evaluated on a
    vector of [N] variables, and all of them are satisfied (value at most
    0) exactly when every variable lies between [iF] times and [F] times
    the one before it. *)
Theorem next_constraints_bound_the_growth :
  forall i cs x,
    Local.get_constraints i false false = Some cs ->
    length x = length (Local.cdata i) ->
    length cs = (2 * (length (Local.cdata i) - 1))%nat
    /\ (forall b, In b cs -> exists v, Local.local_constraint i x [] b = Some (v, []))
    /\ ((forall b v, In b cs -> Local.local_constraint i x [] b = Some (v, []) ->
                     v <= 0)
        <-> (forall k, (k + 1 < length x)%nat ->
               at_ x k * Local.iF i <= at_ x (k + 1) <= at_ x k * Local.F i)).
Proof.
  intros i cs x Hcs Hlen.
  apply get_constraints_inv in Hcs. destruct Hcs as (Hpos & ->).
  cbn [app]. rewrite app_nil_r.
  split; [apply length_next_bounds|]. split; [|split].
  - intros b Hb. apply in_next_bounds in Hb.
    destruct Hb as (k & Hk & [-> | ->]).
    + rewrite next_min_value by lia. eauto.
    + rewrite next_max_value by lia. eauto.
  - intros Hall k Hk. split.
    + assert (Hin : In (Local.mkBound k Local.NextMin)
                      (flat_map (fun k => [Local.mkBound k Local.NextMin;
                                           Local.mkBound k Local.NextMax])
                         (seq 0 (length (Local.cdata i) - 1)))).
      { apply in_next_bounds. exists k. split; [lia|auto]. }
      pose proof (Hall _ _ Hin (next_min_value i x k Hk)). lra.
    + assert (Hin : In (Local.mkBound k Local.NextMax)
                      (flat_map (fun k => [Local.mkBound k Local.NextMin;
                                           Local.mkBound k Local.NextMax])
                         (seq 0 (length (Local.cdata i) - 1)))).
      { apply in_next_bounds. exists k. split; [lia|auto]. }
      pose proof (Hall _ _ Hin (next_max_value i x k Hk)). lra.
  - intros Hall b v Hb Hv. apply in_next_bounds in Hb.
    destruct Hb as (k & Hk & [-> | ->]).
    + rewrite next_min_value in Hv by lia. inversion Hv; subst.
      assert (Hk1 : (k + 1 < length x)%nat) by lia.
      destruct (Hall k Hk1). lra.
    + rewrite next_max_value in Hv by lia. inversion Hv; subst.
      assert (Hk1 : (k + 1 < length x)%nat) by lia.
      destruct (Hall k Hk1). lra.
Qed.

Lemma next_constraints_bound_the_growth_witness :
  let i := Local.inp_of local_state_nocap in
  exists cs,
    Local.get_constraints i false false = Some cs
    /\ length cs = (2 * (length (Local.cdata i) - 1))%nat
    /\ (forall b, In b cs ->
          exists v, Local.local_constraint i [4; 8] [] b = Some (v, []))
    /\ ((forall b v, In b cs ->
           Local.local_constraint i [4; 8] [] b = Some (v, []) -> v <= 0)
        <-> (forall k, (k + 1 < length [4; 8])%nat ->
               at_ [4; 8] k * Local.iF i <= at_ [4; 8] (k + 1)
               <= at_ [4; 8] k * Local.F i)).
Proof.
  eexists. split; [reflexivity|].
  apply (next_constraints_bound_the_growth
           (Local.inp_of local_state_nocap) _ [4; 8]); reflexivity.
Defined.



(** ** The starting point lies within the bounds *)

(** A loop that rewrites each entry of a vector from its current value. *)
Lemma for_each_modify (f : nat -> R -> option R) :
  forall n s ns x,
    for_each (seq s n) (fun ns k => y <- rd ns k ;; v <- f k y ;; wr ns k v) ns
    = Some x ->
    length x = length ns
    /\ (forall k, (s <= k < s + n)%nat ->
          exists y v, nth_error ns k = Some y /\ f k y = Some v
                      /\ nth_error x k = Some v)
    /\ (forall k, (k < s \/ s + n <= k)%nat -> nth_error x k = nth_error ns k).
Proof.
  induction n as [|n IH]; intros s ns x H; cbn [seq for_each] in H.
  - inversion H; subst. repeat split; auto. intros; lia.
  - destruct (rd ns s) as [y|] eqn:Hy; cbn [bind] in H; [|discriminate].
    destruct (f s y) as [v|] eqn:Hv; cbn [bind] in H; [|discriminate].
    destruct (wr ns s v) as [ns1|] eqn:Hw; [|discriminate].
    apply wr_inv in Hw. destruct Hw as [Hlt ->].
    destruct (IH _ _ _ H) as (Hl & Hin & Hout).
    rewrite length_upd in Hl. split; [exact Hl|]. split.
    + intros k Hk. destruct (Nat.eq_dec k s) as [->|Hne].
      * exists y, v. rewrite Hout by lia.
        rewrite nth_error_upd_eq by assumption. auto.
      * destruct (Hin k ltac:(lia)) as (y' & v' & A & B & C).
        rewrite nth_error_upd_neq in A by lia. eauto.
    + intros k Hk. rewrite Hout by lia. apply nth_error_upd_neq. lia.
Qed.

Section LocalStart.

Import Local.

Lemma local_solve_prepare_start st noise st' o :
  solve_prepare st noise = Some (st', o) ->
  exists lb ub nv,
    bounds_and_init (inp_of st) (nvars (out_of st)) = Some (lb, ub, nv)
    /\ (if gaussian_start (cfg_of st) then perturb lb ub nv noise else Some nv)
       = Some (nvars (out_of st')).
Proof.
  intros H. unfold solve_prepare in H.
  destruct (bounds_and_init (inp_of st) (nvars (out_of st)))
    as [[[lb ub] nv]|]; cbn [bind] in H; [|discriminate].
  match type of H with
  | bind ?m _ = _ => destruct m as [o3|]
  end; cbn [bind] in H; [|discriminate].
  exists lb, ub, nv. split; [reflexivity|].
  destruct (if gaussian_start (cfg_of st) then _ else _) as [nv1|];
    cbn [bind] in H; [|discriminate].
  inversion H; subst. reflexivity.
Qed.

Lemma local_perturb_spec lb ub nv noise nv1 :
  perturb lb ub nv noise = Some nv1 ->
  length nv1 = length nv
  /\ forall k, (k < length nv)%nat ->
       exists lo hi y,
         nth_error lb k = Some lo /\ nth_error ub k = Some hi
         /\ nth_error nv1 k = Some (Rmax lo (Rmin hi y)).
Proof.
  unfold perturb, for_range. intros H.
  rewrite (for_each_ext _ (fun ns k =>
             y <- rd ns k ;;
             v <- (lo <- rd lb k ;; hi <- rd ub k ;;
                   Some (Rmax lo (Rmin hi (y + noise k)))) ;;
             wr ns k v)) in H.
  - apply for_each_modify in H. destruct H as (Hl & Hin & _).
    split; [exact Hl|]. intros k Hk.
    destruct (Hin k ltac:(lia)) as (y & v & _ & Hv & Hx).
    unfold rd in Hv.
    destruct (nth_error lb k) as [lo|]; cbn [bind] in Hv; [|discriminate].
    destruct (nth_error ub k) as [hi|]; cbn [bind] in Hv; [|discriminate].
    inversion Hv; subst v. exists lo, hi, (y + noise k). auto.
  - intros s k. destruct (rd s k); cbn [bind]; [|reflexivity].
    destruct (rd lb k); cbn [bind]; [|reflexivity].
    destruct (rd ub k); reflexivity.
Qed.

End LocalStart.

Lemma local_bounds_range i n k :
  2 <= local_lb i n k /\ local_ub i n k <= 10000.
Proof.
  unfold local_lb, local_ub. split.
  - eapply Rle_trans; [|apply Rmax_l].
    eapply Rle_trans; [|apply Rmax_l]. lra.
  - eapply Rle_trans; [apply Rmin_l|].
    eapply Rle_trans; [apply Rmin_l|]. lra.
Qed.

(** X13.  The local [solve] hands the optimizer per-variable bounds with
    [2 <= lb_k] and [ub_k <= 10000], and a starting point of the same
    length that lies within [[lb_k, ub_k]] at every position where that
    interval is not empty, with or without [gaussian_start] and whatever
    the noise. *)
Theorem local_start_is_feasible :
  forall st noise st' o,
    Local.solve_prepare st noise = Some (st', o) ->
    let n := length (Local.nvars (Local.out_of st)) in
    exists lb ub,
      lower_bounds o = Some (PerVariable lb)
      /\ upper_bounds o = Some (PerVariable ub)
      /\ length (Local.initial_point st') = n
      /\ forall k, (k < n)%nat ->
           2 <= at_ lb k /\ at_ ub k <= 10000
           /\ (at_ lb k <= at_ ub k ->
               at_ lb k <= at_ (Local.initial_point st') k <= at_ ub k).
Proof.
  intros st noise st' o H n.
  destruct (local_solve_prepare_start _ _ _ _ H) as (lb0 & ub0 & nv & Hb & Hs).
  apply local_solve_prepare_inv in H. cbv zeta in H. fold n in H.
  destruct H as (_ & _ & _ & lb & ub & Hl & Hu & L1 & L2 & Hk & Hng).
  unfold Local.bounds_and_init, for_range in Hb. fold n in Hb.
  apply bounds_loop in Hb. destruct Hb as ((M1 & M2 & M3) & Hin & _).
  exists lb, ub. split; [exact Hl|]. split; [exact Hu|].
  unfold Local.initial_point.
  assert (Hcase :
    length (Local.nvars (Local.out_of st')) = n
    /\ forall k, (k < n)%nat ->
         local_lb (Local.inp_of st) n k <= local_ub (Local.inp_of st) n k ->
         local_lb (Local.inp_of st) n k
         <= at_ (Local.nvars (Local.out_of st')) k
         <= local_ub (Local.inp_of st) n k).
  { destruct (Local.gaussian_start (Local.cfg_of st)) eqn:Hg.
    - apply local_perturb_spec in Hs. destruct Hs as (Hlen & Hp).
      fold n in M3. rewrite M3 in Hlen, Hp.
      split; [exact Hlen|]. intros k Hlt Hle.
      destruct (Hp k Hlt) as (lo & hi & y & A & B & C).
      destruct (Hin k ltac:(lia)) as (cw & _ & A' & B' & _).
      rewrite A in A'. rewrite B in B'. inversion A'; inversion B'; subst lo hi.
      rewrite (at_nth_error _ _ _ C).
      split; [apply Rmax_l|].
      apply Rmax_lub; [assumption|apply Rmin_l].
    - destruct (Hng eq_refl) as (Hlen & Hp). split; [exact Hlen|].
      intros k Hlt Hle. destruct (Hp k Hlt) as (cw & _ & C).
      rewrite (at_nth_error _ _ _ C).
      destruct (Rlt_dec cw _); [lra|]. destruct (Rlt_dec _ cw); lra. }
  destruct Hcase as (Hlen & Hrange). split; [exact Hlen|].
  intros k Hlt. destruct (Hk k Hlt) as (A & B).
  rewrite (at_nth_error _ _ _ A), (at_nth_error _ _ _ B).
  destruct (local_bounds_range (Local.inp_of st) n k) as (R1 & R2).
  split; [exact R1|]. split; [exact R2|]. apply Hrange; assumption.
Qed.

Lemma local_start_is_feasible_witness :
  exists st' o,
    Local.solve_prepare local_state_noisy (fun k => INR k) = Some (st', o)
    /\ exists lb ub,
         lower_bounds o = Some (PerVariable lb)
         /\ upper_bounds o = Some (PerVariable ub)
         /\ length (Local.initial_point st') = 2%nat
         /\ forall k, (k < 2)%nat ->
              2 <= at_ lb k /\ at_ ub k <= 10000
              /\ (at_ lb k <= at_ ub k ->
                  at_ lb k <= at_ (Local.initial_point st') k <= at_ ub k).
Proof.
  eexists; eexists. split; [reflexivity|].
  apply (local_start_is_feasible local_state_noisy (fun k => INR k)).
  reflexivity.
Defined.

Section ShortrowStart.

Import Shortrow.

Lemma shortrow_start st noise st' o :
  solve_prepare st noise = Some (st', o) ->
  lower_bounds o = Some (Uniform 0)
  /\ upper_bounds o = None
  /\ length (nvars (out_of st')) = length (nvars (out_of st))
  /\ forall k, (k < length (nvars (out_of st)))%nat ->
       exists y, nth_error (nvars (out_of st')) k = Some (Rmax 0.0 y).
Proof.
  intros H. unfold solve_prepare in H.
  destruct (initial_values (inp_of st) (nvars (out_of st))) as [nv|] eqn:Hnv;
    cbn [bind] in H; [|discriminate].
  set (o1 := configure_stopping _ _ _ _ _) in H.
  assert (Hup : upper_bounds o1 = None)
    by (subst o1; rewrite (proj2 (proj2 (configure_stopping_spec _ _ _ _ _)));
        reflexivity).
  unfold initial_values, for_range in Hnv.
  rewrite (for_each_ext _ (fun ns k =>
             v <- (ck <- rd (cdata (inp_of st)) k ;; Some (Rmax 0.0 ck)) ;;
             wr ns k v)) in Hnv
    by (intros s k; destruct (rd (cdata (inp_of st)) k); reflexivity).
  apply for_each_write_inv in Hnv. destruct Hnv as (Hl & Hin & _).
  destruct (gaussian_start (cfg_of st)).
  - destruct (perturb nv noise) as [nv1|] eqn:Hp; cbn [bind] in H;
      [|discriminate].
    inversion H; subst st' o; cbn. clear H.
    split; [reflexivity|]. split; [exact Hup|].
    unfold perturb, for_range in Hp.
    rewrite (for_each_ext _ (fun ns k =>
               y <- rd ns k ;;
               v <- (fun k y => Some (Rmax 0.0 (y + noise k))) k y ;;
               wr ns k v)) in Hp
      by (intros s k; destruct (rd s k); reflexivity).
    apply for_each_modify in Hp. destruct Hp as (Hl1 & Hin1 & _).
    split; [congruence|]. intros k Hk.
    destruct (Hin1 k ltac:(lia)) as (y & v & _ & Hv & Hx).
    inversion Hv; subst v. eauto.
  - cbn [bind] in H. inversion H; subst st' o; cbn. clear H.
    split; [reflexivity|]. split; [exact Hup|]. split; [exact Hl|].
    intros k Hk. destruct (Hin k ltac:(lia)) as (v & Hv & Hx).
    destruct (rd (cdata (inp_of st)) k) as [ck|]; cbn [bind] in Hv;
      [|discriminate].
    inversion Hv; subst v. eauto.
Qed.

End ShortrowStart.

(** X14.  The shortrow [solve] gives the optimizer the lower bound 0 and
    no upper bound, and a starting point of the same length as [nvars]
    with no negative entry, with or without [gaussian_start] and whatever
    the noise. *)
Theorem shortrow_start_is_feasible :
  forall st noise st' o,
    Shortrow.solve_prepare st noise = Some (st', o) ->
    lower_bounds o = Some (Uniform 0)
    /\ upper_bounds o = None
    /\ length (Shortrow.initial_point st')
       = length (Shortrow.nvars (Shortrow.out_of st))
    /\ Forall (fun x => 0 <= x) (Shortrow.initial_point st').
Proof.
  intros st noise st' o H.
  destruct (shortrow_start _ _ _ _ H) as (Hl & Hu & Hlen & Hk).
  unfold Shortrow.initial_point.
  split; [exact Hl|]. split; [exact Hu|]. split; [exact Hlen|].
  apply Forall_forall. intros x Hx.
  apply In_nth_error in Hx. destruct Hx as (k & Hx).
  assert (Hlt : (k < length (Shortrow.nvars (Shortrow.out_of st)))%nat).
  { rewrite <- Hlen. apply nth_error_Some. congruence. }
  destruct (Hk k Hlt) as (y & Hy). rewrite Hy in Hx. inversion Hx; subst x.
  eapply Rle_trans; [|apply Rmax_l]. lra.
Qed.

Lemma shortrow_start_is_feasible_witness :
  exists st' o,
    Shortrow.solve_prepare shortrow_state_noisy (fun k => - INR k) = Some (st', o)
    /\ lower_bounds o = Some (Uniform 0)
    /\ upper_bounds o = None
    /\ length (Shortrow.initial_point st')
       = length (Shortrow.nvars (Shortrow.out_of shortrow_state_noisy))
    /\ Forall (fun x => 0 <= x) (Shortrow.initial_point st').
Proof.
  eexists; eexists. split; [reflexivity|].
  apply (shortrow_start_is_feasible shortrow_state_noisy (fun k => - INR k)).
  reflexivity.
Defined.

(** ** The local objective *)

Lemma add_at_some (g : vec) k d :
  (k < length g)%nat -> add_at g k d = Some (upd g k (at_ g k + d)).
Proof.
  intros H. unfold add_at, rd. rewrite nth_error_at by assumption.
  cbn [bind]. apply wr_some; assumption.
Qed.

Lemma sub_at_some (g : vec) k d :
  (k < length g)%nat -> sub_at g k d = Some (upd g k (at_ g k - d)).
Proof.
  intros H. unfold sub_at, rd. rewrite nth_error_at by assumption.
  cbn [bind]. apply wr_some; assumption.
Qed.

Lemma for_each_cons {A S : Type} (a : A) l (body : S -> A -> option S) s s' :
  body s a = Some s' -> for_each (a :: l) body s = for_each l body s'.
Proof. intros H. cbn [for_each]. rewrite H. reflexivity. Qed.

Lemma chain_sq_skipn (x : vec) s :
  (s < length x)%nat ->
  chain_sq (skipn s x)
  = (if (s + 1 <? length x)%nat
     then (at_ x s - at_ x (s + 1)) * (at_ x s - at_ x (s + 1)) else 0)
    + chain_sq (skipn (S s) x).
Proof.
  intros Hs. rewrite (skipn_nth_cons x s (at_ x s)) by (apply nth_error_at; lia).
  destruct (Nat.ltb_spec (s + 1) (length x)) as [Hlt|Hge].
  - rewrite (skipn_nth_cons x (S s) (at_ x (s + 1))).
    + reflexivity.
    + replace (S s) with (s + 1)%nat by lia. apply nth_error_at; lia.
  - rewrite (skipn_all2 x) by lia. cbn. ring.
Qed.

Section LocalObjective.

Import Local.

Variable i : inputs.
Variable x : vec.
Hypothesis Hcd : length (cdata i) = length x.

Lemma local_step s Ec0 Es0 g0 :
  (s < length x)%nat ->
  length g0 = length x \/ g0 = [] ->
  exists Es1 g1,
    (fun (s : R * R * vec) (k : index_t) =>
         let '(Ec, Es, grad) := s in
         y <- rd x k ;;
         c <- rd (cdata i) k ;;
         let diff := y - c in
         g1 <- (if (0 <? length grad)%nat
                then add_at grad k (w_c i * 2 * diff)
                else Some grad) ;;
         if (k + 1 <? length x)%nat then
           z <- rd x (k + 1) ;;
           let d := y - z in
           g2 <- (if negb (length g1 =? 0)%nat then
                    h <- add_at g1 (k + 0) (w_s i * 2 * d) ;;
                    sub_at h (k + 1) (w_s i * 2 * d)
                  else Some g1) ;;
           Some (Ec + loss diff, Es + loss d, g2)
         else Some (Ec + loss diff, Es, g1)) (Ec0, Es0, g0) s
    = Some (Ec0 + loss (at_ x s - at_ (cdata i) s), Es1, g1)
    /\ Es1 = Es0 + (if (s + 1 <? length x)%nat
                    then loss (at_ x s - at_ x (s + 1)) else 0)
    /\ length g1 = length g0
    /\ (length g0 = length x ->
        forall k, at_ g1 k = at_ g0 k + local_step_grad i x s k).
Proof.
  intros Hs Hg. unfold local_step_grad. cbv beta iota.
  rewrite (rd_at x s) by lia. rewrite (rd_at (cdata i) s) by lia.
  cbn [bind]. cbv zeta.
  destruct Hg as [Hg | ->].
  - destruct (Nat.ltb_spec 0 (length g0)) as [_|]; [|lia].
    rewrite add_at_some by lia. cbn [bind].
    set (g1 := upd g0 s _).
    assert (L1 : length g1 = length g0) by apply length_upd.
    destruct (Nat.ltb_spec (s + 1) (length x)) as [Hlt|Hge].
    + rewrite (rd_at x (s + 1)) by lia. cbn [bind].
      destruct (Nat.eqb_spec (length g1) 0) as [|_]; [lia|]. cbn [negb].
      rewrite Nat.add_0_r. rewrite add_at_some by lia. cbn [bind].
      set (g2 := upd g1 s _).
      assert (L2 : length g2 = length g0)
        by (unfold g2; rewrite length_upd; exact L1).
      rewrite sub_at_some by lia.
      eexists; eexists. split; [reflexivity|]. split; [reflexivity|].
      split; [rewrite length_upd; exact L2|].
      intros _ k. rewrite andb_true_r.
      destruct (Nat.eqb_spec k (s + 1)) as [->|Hk1].
      * rewrite at_upd_eq by lia.
        unfold g2. rewrite at_upd_neq by lia.
        unfold g1. rewrite at_upd_neq by lia.
        destruct (Nat.eqb_spec (s + 1) s); [lia|]. ring.
      * rewrite at_upd_neq by lia.
        destruct (Nat.eqb_spec k s) as [->|Hk].
        -- unfold g2. rewrite at_upd_eq by lia.
           unfold g1. rewrite at_upd_eq by lia. ring.
        -- unfold g2. rewrite at_upd_neq by lia.
           unfold g1. rewrite at_upd_neq by lia. ring.
    + eexists; eexists. split; [reflexivity|]. split; [ring|].
      split; [exact L1|].
      intros _ k. rewrite andb_false_r.
      destruct (Nat.eqb_spec k s) as [->|Hk].
      * unfold g1. rewrite at_upd_eq by lia. ring.
      * unfold g1. rewrite at_upd_neq by lia. ring.
  - change (0 <? length (@nil R))%nat with false. cbn [bind].
    destruct (Nat.ltb_spec (s + 1) (length x)) as [Hlt|Hge].
    + rewrite (rd_at x (s + 1)) by lia. cbn [bind length Nat.eqb negb].
      eexists; eexists. split; [reflexivity|]. split; [reflexivity|].
      split; [reflexivity|]. cbn [length]. intros; lia.
    + eexists; eexists. split; [reflexivity|]. split; [ring|].
      split; [reflexivity|]. cbn [length]. intros; lia.
Qed.

Lemma contrib_step s k :
  (k < length x)%nat ->
  local_step_grad i x s k + local_tail_grad i x (S s) k = local_tail_grad i x s k.
Proof.
  intros Hk. unfold local_step_grad, local_tail_grad.
  destruct (Nat.eqb_spec k s) as [->|Hks].
  - destruct (Nat.eqb_spec s (s + 1)); [lia|]. cbn [andb].
    destruct (Nat.leb_spec (S s) s); [lia|].
    destruct (Nat.leb_spec (S s + 1) s); [lia|].
    destruct (Nat.leb_spec s s); [|lia].
    destruct (Nat.leb_spec (s + 1) s); [lia|]. ring.
  - destruct (Nat.eqb_spec k (s + 1)) as [->|Hks1].
    + destruct (Nat.ltb_spec (s + 1) (length x)); [|lia]. cbn [andb].
      destruct (Nat.leb_spec (S s) (s + 1)); [|lia].
      destruct (Nat.leb_spec (S s + 1) (s + 1)); [lia|].
      destruct (Nat.leb_spec s (s + 1)); [|lia].
      destruct (Nat.leb_spec (s + 1) (s + 1)); [|lia].
      replace (s + 1 - 1)%nat with s by lia. ring.
    + cbn [andb].
      destruct (Nat.leb_spec (S s) k), (Nat.leb_spec (S s + 1) k),
        (Nat.leb_spec s k), (Nat.leb_spec (s + 1) k); try lia; ring.
Qed.

Lemma local_loop :
  forall n s Ec0 Es0 g0,
    (s + n = length x)%nat ->
    length g0 = length x \/ g0 = [] ->
    exists Ec Es g,
      for_each (seq s n)
        (fun (s : R * R * vec) (k : index_t) =>
         let '(Ec, Es, grad) := s in
         y <- rd x k ;;
         c <- rd (cdata i) k ;;
         let diff := y - c in
         g1 <- (if (0 <? length grad)%nat
                then add_at grad k (w_c i * 2 * diff)
                else Some grad) ;;
         if (k + 1 <? length x)%nat then
           z <- rd x (k + 1) ;;
           let d := y - z in
           g2 <- (if negb (length g1 =? 0)%nat then
                    h <- add_at g1 (k + 0) (w_s i * 2 * d) ;;
                    sub_at h (k + 1) (w_s i * 2 * d)
                  else Some g1) ;;
           Some (Ec + loss diff, Es + loss d, g2)
         else Some (Ec + loss diff, Es, g1))
        (Ec0, Es0, g0) = Some (Ec, Es, g)
      /\ Ec = Ec0 + sum_sq_diff (skipn s x) (skipn s (cdata i))
      /\ Es = Es0 + chain_sq (skipn s x)
      /\ length g = length g0
      /\ (length g0 = length x ->
          forall k, (k < length x)%nat -> at_ g k = at_ g0 k + local_tail_grad i x s k).
Proof.
  induction n as [|n IH]; intros s Ec0 Es0 g0 Hs Hg.
  - exists Ec0, Es0, g0. cbn [seq for_each]. split; [reflexivity|].
    rewrite (skipn_all2 x) by lia. cbn.
    split; [ring|]. split; [ring|]. split; [reflexivity|].
    intros _ k Hk. unfold local_tail_grad.
    destruct (Nat.leb_spec s k); [lia|].
    destruct (Nat.leb_spec (s + 1) k); [lia|]. ring.
  - cbn [seq].
    destruct (local_step s Ec0 Es0 g0) as (Es1 & g1 & Hb & HEs & L1 & Hk1);
      [lia|assumption|].
    erewrite for_each_cons by exact Hb.
    destruct (IH (S s) (Ec0 + loss (at_ x s - at_ (cdata i) s)) Es1 g1)
      as (Ec & Es & g & Hloop & HEc & HEs' & L & Hk); [lia| |].
    { destruct Hg as [Hg | ->]; [left; congruence|right].
      destruct g1; [reflexivity|discriminate]. }
    exists Ec, Es, g. split; [exact Hloop|].
    split; [|split; [|split]].
    + rewrite HEc.
      rewrite (skipn_nth_cons x s (at_ x s)) by (apply nth_error_at; lia).
      rewrite (skipn_nth_cons (cdata i) s (at_ (cdata i) s))
        by (apply nth_error_at; lia).
      cbn [sum_sq_diff]. unfold loss. ring.
    + rewrite HEs', HEs, (chain_sq_skipn x s) by lia.
      unfold loss. ring.
    + congruence.
    + intros Hl k Hlt. rewrite Hk by (congruence || assumption).
      rewrite Hk1 by assumption. rewrite <- (contrib_step s k Hlt). ring.
Qed.

Lemma local_sampling_spec g :
  (0 < length x)%nat ->
  length g = length x \/ g = [] ->
  exists E g',
    local_sampling i x g = Some (E, g')
    /\ E = sum_sq_diff x (cdata i) * w_c i + local_Es_spec i x * w_s i
    /\ length g' = length g
    /\ (length g = length x ->
        forall k, (k < length x)%nat ->
          at_ g' k = at_ g k + local_grad_spec i x k).
Proof.
  intros Hpos Hg. unfold local_sampling, for_range.
  rewrite (rd_at x 0) by lia. cbn [bind]. cbv zeta.
  assert (H0 : exists g0,
             (if negb (length g =? 0)%nat
              then add_at g 0 (w_s i * 2 * (at_ x 0 - ns_start i))
              else Some g) = Some g0
             /\ length g0 = length g
             /\ (length g = length x ->
                 forall k, at_ g0 k
                   = at_ g k + (if (k =? 0)%nat
                                then w_s i * 2 * (at_ x 0 - ns_start i)
                                else 0))).
  { destruct Hg as [Hg | ->].
    - destruct (Nat.eqb_spec (length g) 0); [lia|]. cbn [negb].
      rewrite add_at_some by lia. eexists. split; [reflexivity|].
      split; [apply length_upd|]. intros _ k.
      destruct (Nat.eqb_spec k 0) as [->|Hk].
      + rewrite at_upd_eq by lia. reflexivity.
      + rewrite at_upd_neq by lia. ring.
    - cbn. eexists. split; [reflexivity|]. split; [reflexivity|].
      intros; lia. }
  destruct H0 as (g0 & Hg0 & L0 & Hk0). bind_with Hg0.
  destruct (local_loop (length x) 0 0
              (0 + loss (at_ x 0 - ns_start i)) g0)
    as (Ec & Es & g1 & Hloop & HEc & HEs & L1 & Hk1); [lia| |].
  { destruct Hg as [Hg | ->]; [left; congruence|right].
    destruct g0; [reflexivity|discriminate]. }
  bind_with Hloop.
  rewrite (rd_at x (length x - 1)) by lia. cbn [bind].
  assert (H2 : exists g2,
             (if negb (length g1 =? 0)%nat
              then add_at g1 (length x - 1)
                     (w_s i * 2 * (at_ x (length x - 1) - ns_end i))
              else Some g1) = Some g2
             /\ length g2 = length g1
             /\ (length g = length x ->
                 forall k, at_ g2 k
                   = at_ g1 k + (if (k + 1 =? length x)%nat
                                 then w_s i * 2
                                      * (at_ x (length x - 1) - ns_end i)
                                 else 0))).
  { destruct Hg as [Hg | ->].
    - destruct (Nat.eqb_spec (length g1) 0); [lia|]. cbn [negb].
      rewrite add_at_some by lia. eexists. split; [reflexivity|].
      split; [apply length_upd|]. intros _ k.
      destruct (Nat.eqb_spec (k + 1) (length x)) as [Hk|Hk].
      + replace k with (length x - 1)%nat by lia.
        rewrite at_upd_eq by lia. reflexivity.
      + rewrite at_upd_neq by lia. ring.
    - cbn [length] in L0, L1.
      destruct g1; [|cbn [length] in L1; lia].
      cbn. eexists. split; [reflexivity|]. split; [reflexivity|].
      intros; lia. }
  destruct H2 as (g2 & Hg2 & L2 & Hk2). bind_with Hg2.
  exists (Ec * w_c i
          + (Es + loss (at_ x (length x - 1) - ns_end i)) * w_s i), g2.
  split; [reflexivity|]. split; [|split].
  - rewrite HEc, HEs. cbn [skipn]. unfold local_Es_spec, loss. ring.
  - congruence.
  - intros Hl k Hk. rewrite Hk2, Hk1, Hk0 by (congruence || assumption).
    unfold local_tail_grad, local_grad_spec. cbv zeta.
    destruct (Nat.leb_spec 0 k); [|lia].
    destruct (Nat.leb_spec (0 + 1) k), (Nat.eqb_spec k 0); try lia;
      destruct (Nat.eqb_spec (k + 1) (length x)) as [He|He];
      destruct (Nat.ltb_spec (k + 1) (length x)); try lia;
      try (replace (length x - 1)%nat with k by lia);
      subst; ring.
Qed.

End LocalObjective.

(** X15.  For [N >= 1] variables and as many targets, [local_sampling]
    returns [w_c] times the sum of the [(x_k - c_k)^2] plus [w_s] times
    the sum of the squared steps of the chain
    [ns_start, x_0, ..., x_(N-1), ns_end].  A gradient buffer of length [N]
    receives, added to what it held, the derivative of that value:
    [2 w_c (x_k - c_k) + 2 w_s (x_k - before) + 2 w_s (x_k - after)] with
    the chain neighbours of [x_k]; an empty buffer is left empty. *)
Theorem local_sampling_value_and_gradient :
  forall (i : Local.inputs) (x g : vec),
    (0 < length x)%nat ->
    length (Local.cdata i) = length x ->
    length g = length x \/ g = [] ->
    exists E g',
      Local.local_sampling i x g = Some (E, g')
      /\ E = sum_sq_diff x (Local.cdata i) * Local.w_c i
             + local_Es_spec i x * Local.w_s i
      /\ length g' = length g
      /\ (length g = length x ->
          forall k, (k < length x)%nat ->
            at_ g' k = at_ g k + local_grad_spec i x k).
Proof.
  intros i x g Hpos Hcd Hg. apply local_sampling_spec; assumption.
Qed.

Lemma local_sampling_value_and_gradient_witness :
  let i := Local.inp_of local_state_nocap in
  exists E g',
    Local.local_sampling i [5; 7] [1; 1] = Some (E, g')
    /\ E = sum_sq_diff [5; 7] (Local.cdata i) * Local.w_c i
           + local_Es_spec i [5; 7] * Local.w_s i
    /\ length g' = length [1; 1]
    /\ (length [1; 1] = length [5; 7] ->
        forall k, (k < length [5; 7])%nat ->
          at_ g' k = at_ [1; 1] k + local_grad_spec i [5; 7] k).
Proof.
  apply (local_sampling_value_and_gradient
           (Local.inp_of local_state_nocap) [5; 7] [1; 1]).
  - cbn; lia.
  - reflexivity.
  - left; reflexivity.
Defined.

(** ** The shortrow objective *)

Lemma chain_cost_skipn phi (x : vec) s :
  (s < length x)%nat ->
  chain_cost phi (skipn (s - 1) x)
  = (if (0 <? s)%nat then phi (at_ x s - at_ x (s - 1)) else 0)
    + chain_cost phi (skipn s x).
Proof.
  intros Hs. destruct s as [|s].
  - cbn. ring.
  - replace (S s - 1)%nat with s by lia. cbn [Nat.ltb Nat.leb].
    rewrite (skipn_nth_cons x s (at_ x s)) by (apply nth_error_at; lia).
    rewrite (skipn_nth_cons x (S s) (at_ x (S s))) by (apply nth_error_at; lia).
    reflexivity.
Qed.

Section ShortrowObjective.

Import Shortrow.

Variable i : inputs.
Variable x : vec.
Hypothesis Hcd : length (cdata i) = length x.

Lemma simplicity_spec g i0 i1 :
  (i0 < length x)%nat -> (i1 < length x)%nat ->
  length g = length x \/ g = [] ->
  exists g',
    simplicity i x g i0 i1 = Some (simp_term i (at_ x i0 - at_ x i1), g')
    /\ length g' = length g
    /\ (simp_L2 i = true -> length g = length x ->
        forall k, at_ g' k
          = at_ g k
            + (if (k =? i0)%nat then w_s i * 2 * (at_ x i0 - at_ x i1) else 0)
            - (if (k =? i1)%nat then w_s i * 2 * (at_ x i0 - at_ x i1) else 0)).
Proof.
  intros H0 H1 Hg. unfold simplicity, simp_term.
  rewrite (rd_at x i0), (rd_at x i1) by assumption. cbn [bind]. cbv zeta.
  destruct (simp_L2 i).
  - destruct Hg as [Hg | ->].
    + destruct (Nat.eqb_spec (length g) 0); [lia|]. cbn [negb].
      rewrite add_at_some by lia. cbn [bind].
      rewrite sub_at_some by (rewrite length_upd; lia). cbn [bind].
      eexists. split; [reflexivity|].
      split; [rewrite !length_upd; reflexivity|].
      intros _ _ k.
      destruct (Nat.eqb_spec k i1) as [->|Hk1].
      * rewrite at_upd_eq by (rewrite length_upd; lia).
        destruct (Nat.eqb_spec i1 i0) as [->|Hk0].
        -- rewrite at_upd_eq by lia. ring.
        -- rewrite at_upd_neq by lia. ring.
      * rewrite at_upd_neq by lia.
        destruct (Nat.eqb_spec k i0) as [->|Hk0].
        -- rewrite at_upd_eq by lia. ring.
        -- rewrite at_upd_neq by lia. ring.
    + cbn. eexists. split; [reflexivity|]. split; [reflexivity|].
      intros; lia.
  - assert (Habs : (if Rge_dec (at_ x i0 - at_ x i1) 0 then 1 else -1)
                   * (at_ x i0 - at_ x i1) = Rabs (at_ x i0 - at_ x i1)).
    { unfold Rabs.
      destruct (Rge_dec (at_ x i0 - at_ x i1) 0),
        (Rcase_abs (at_ x i0 - at_ x i1)); lra. }
    rewrite Habs.
    destruct Hg as [Hg | ->].
    + destruct (Nat.eqb_spec (length g) 0); [lia|]. cbn [negb].
      rewrite wr_some by lia. cbn [bind].
      rewrite wr_some by (rewrite length_upd; lia).
      eexists. split; [reflexivity|].
      split; [rewrite !length_upd; reflexivity|]. discriminate.
    + cbn. eexists. split; [reflexivity|]. split; [reflexivity|].
      discriminate.
Qed.

Lemma sr_step s Ew0 Es0 g0 :
  (s < length x)%nat ->
  length g0 = length x \/ g0 = [] ->
  exists Es1 g1,
    (fun (s : R * R * vec) (k : index_t) =>
       let '(Ew, Es, grad) := s in
       y <- rd x k ;;
       c <- rd (cdata i) k ;;
       let diff := y - c in
       g1 <- (if (0 <? length grad)%nat then add_at grad k (w_w i * 2 * diff)
              else Some grad) ;;
       if (0 <? k)%nat then
         r <- simplicity i x g1 k (k - 1) ;;
         Some (Ew + loss diff, Es + fst r, snd r)
       else Some (Ew + loss diff, Es, g1)) (Ew0, Es0, g0) s
    = Some (Ew0 + loss (at_ x s - at_ (cdata i) s), Es1, g1)
    /\ Es1 = Es0 + (if (0 <? s)%nat
                    then simp_term i (at_ x s - at_ x (s - 1)) else 0)
    /\ length g1 = length g0
    /\ (simp_L2 i = true -> length g0 = length x ->
        forall k, at_ g1 k = at_ g0 k + sr_step_grad i x s k).
Proof.
  intros Hs Hg. unfold sr_step_grad. cbv beta iota.
  rewrite (rd_at x s) by lia. rewrite (rd_at (cdata i) s) by lia.
  cbn [bind]. cbv zeta.
  assert (Hfirst : exists ga,
            (if (0 <? length g0)%nat
             then add_at g0 s (w_w i * 2 * (at_ x s - at_ (cdata i) s))
             else Some g0) = Some ga
            /\ length ga = length g0
            /\ (length g0 = length x ->
                forall k, at_ ga k
                  = at_ g0 k
                    + (if (k =? s)%nat
                       then w_w i * 2 * (at_ x s - at_ (cdata i) s) else 0))).
  { destruct Hg as [Hg | ->].
    - destruct (Nat.ltb_spec 0 (length g0)); [|lia].
      rewrite add_at_some by lia. eexists. split; [reflexivity|].
      split; [apply length_upd|]. intros _ k.
      destruct (Nat.eqb_spec k s) as [->|Hk].
      + rewrite at_upd_eq by lia. reflexivity.
      + rewrite at_upd_neq by lia. ring.
    - cbn. eexists. split; [reflexivity|]. split; [reflexivity|].
      intros; lia. }
  destruct Hfirst as (ga & Hga & La & Hka). bind_with Hga.
  destruct (Nat.ltb_spec 0 s) as [Hpos|Hz].
  - destruct (simplicity_spec ga s (s - 1)) as (gb & Hgb & Lb & Hkb);
      [lia|lia| |].
    { destruct Hg as [Hg | ->]; [left; congruence|right].
      destruct ga; [reflexivity|discriminate]. }
    rewrite Hgb. cbn [bind fst snd].
    eexists; eexists. split; [reflexivity|]. split; [reflexivity|].
    split; [congruence|].
    intros HL2 Hl k. rewrite Hkb by congruence. rewrite Hka by assumption.
    destruct (Nat.eqb_spec k s) as [->|Hk].
    + destruct (Nat.eqb_spec s (s - 1)); [lia|].
      destruct (Nat.eqb_spec (s + 1) s); [lia|]. ring.
    + destruct (Nat.eqb_spec k (s - 1)), (Nat.eqb_spec (k + 1) s);
        try lia; ring.
  - eexists; eexists. split; [reflexivity|]. split; [ring|].
    split; [exact La|].
    intros _ Hl k. rewrite Hka by assumption.
    destruct (Nat.eqb_spec (k + 1) s); [lia|].
    destruct (Nat.eqb_spec k s); ring.
Qed.

Lemma sr_grad_step s k :
  (k < length x)%nat -> (s < length x)%nat ->
  sr_step_grad i x s k + sr_tail_grad i x (S s) k = sr_tail_grad i x s k.
Proof.
  intros Hk Hs. unfold sr_step_grad, sr_tail_grad.
  destruct (Nat.ltb_spec (k + 1) (length x)) as [Hk1|Hk1];
    rewrite ?andb_true_r, ?andb_false_r.
  - destruct (Nat.eqb_spec k s) as [->|Hks].
    + destruct (Nat.eqb_spec (s + 1) s); [lia|].
      destruct (Nat.leb_spec (S s) s); [lia|].
      destruct (Nat.leb_spec (S s) (s + 1)); [|lia].
      destruct (Nat.leb_spec s s); [|lia].
      destruct (Nat.leb_spec s (s + 1)); [|lia]. ring.
    + destruct (Nat.eqb_spec (k + 1) s) as [<-|Hks1].
      * destruct (Nat.leb_spec (S (k + 1)) k); [lia|].
        destruct (Nat.leb_spec (S (k + 1)) (k + 1)); [lia|].
        destruct (Nat.leb_spec (k + 1) k); [lia|].
        destruct (Nat.leb_spec (k + 1) (k + 1)); [|lia].
        replace (k + 1 - 1)%nat with k by lia. ring.
      * destruct (Nat.leb_spec (S s) k), (Nat.leb_spec (S s) (k + 1)),
          (Nat.leb_spec s k), (Nat.leb_spec s (k + 1)); try lia; ring.
  - destruct (Nat.eqb_spec k s) as [->|Hks].
    + destruct (Nat.eqb_spec (s + 1) s); [lia|].
      destruct (Nat.leb_spec (S s) s); [lia|].
      destruct (Nat.leb_spec s s); [|lia]. ring.
    + destruct (Nat.eqb_spec (k + 1) s); [lia|].
      destruct (Nat.leb_spec (S s) k), (Nat.leb_spec s k); try lia; ring.
Qed.

Lemma sr_loop :
  forall n s Ew0 Es0 g0,
    (s + n = length x)%nat ->
    length g0 = length x \/ g0 = [] ->
    exists Ew Es g,
      for_each (seq s n)
        (fun (s : R * R * vec) (k : index_t) =>
           let '(Ew, Es, grad) := s in
           y <- rd x k ;;
           c <- rd (cdata i) k ;;
           let diff := y - c in
           g1 <- (if (0 <? length grad)%nat
                  then add_at grad k (w_w i * 2 * diff)
                  else Some grad) ;;
           if (0 <? k)%nat then
             r <- simplicity i x g1 k (k - 1) ;;
             Some (Ew + loss diff, Es + fst r, snd r)
           else Some (Ew + loss diff, Es, g1))
        (Ew0, Es0, g0) = Some (Ew, Es, g)
      /\ Ew = Ew0 + sum_sq_diff (skipn s x) (skipn s (cdata i))
      /\ Es = Es0 + chain_cost (simp_term i) (skipn (s - 1) x)
      /\ length g = length g0
      /\ (simp_L2 i = true -> length g0 = length x ->
          forall k, (k < length x)%nat ->
            at_ g k = at_ g0 k + sr_tail_grad i x s k).
Proof.
  induction n as [|n IH]; intros s Ew0 Es0 g0 Hs Hg.
  - exists Ew0, Es0, g0. cbn [seq for_each]. split; [reflexivity|].
    rewrite (skipn_all2 x (n:=s)) by lia.
    assert (Hc : chain_cost (simp_term i) (skipn (s - 1) x) = 0).
    { destruct (Nat.eq_dec (length x) 0) as [Hz|Hz].
      - destruct x; [|cbn [length] in Hz; lia].
        rewrite skipn_nil. reflexivity.
      - rewrite (skipn_nth_cons x (s - 1) (at_ x (s - 1)))
          by (apply nth_error_at; lia).
        replace (S (s - 1)) with s by lia.
        rewrite (skipn_all2 x (n:=s)) by lia. reflexivity. }
    rewrite Hc. cbn [sum_sq_diff].
    split; [ring|]. split; [ring|].
    split; [reflexivity|].
    intros _ _ k Hk. unfold sr_tail_grad.
    destruct (Nat.leb_spec s k); [lia|].
    destruct (Nat.leb_spec s (k + 1)), (Nat.ltb_spec (k + 1) (length x));
      try lia; cbn [andb]; ring.
  - cbn [seq].
    destruct (sr_step s Ew0 Es0 g0) as (Es1 & g1 & Hb & HEs & L1 & Hk1);
      [lia|assumption|].
    erewrite for_each_cons by exact Hb.
    destruct (IH (S s) (Ew0 + loss (at_ x s - at_ (cdata i) s)) Es1 g1)
      as (Ew & Es & g & Hloop & HEw & HEs' & L & Hk); [lia| |].
    { destruct Hg as [Hg | ->]; [left; congruence|right].
      destruct g1; [reflexivity|discriminate]. }
    exists Ew, Es, g. split; [exact Hloop|].
    split; [|split; [|split]].
    + rewrite HEw.
      rewrite (skipn_nth_cons x s (at_ x s)) by (apply nth_error_at; lia).
      rewrite (skipn_nth_cons (cdata i) s (at_ (cdata i) s))
        by (apply nth_error_at; lia).
      cbn [sum_sq_diff]. unfold loss. ring.
    + rewrite HEs', HEs.
      replace (S s - 1)%nat with s by lia.
      rewrite (chain_cost_skipn (simp_term i) x s) by lia. ring.
    + congruence.
    + intros HL2 Hl k Hlt. rewrite Hk by (congruence || assumption).
      rewrite Hk1 by assumption.
      rewrite <- (sr_grad_step s k Hlt) by lia. ring.
Qed.

Lemma rs_sampling_spec g :
  (0 < length x)%nat ->
  length g = length x \/ g = [] ->
  exists E g',
    rs_sampling i x g = Some (E, g')
    /\ E = sum_sq_diff x (cdata i) * w_w i + sr_Es_spec i x * w_s i
    /\ length g' = length g
    /\ (simp_L2 i = true -> length g = length x ->
        forall k, (k < length x)%nat ->
          at_ g' k = at_ g k + sr_grad_spec i x k).
Proof.
  intros Hpos Hg. unfold rs_sampling, for_range. cbv zeta.
  destruct (sr_loop (length x) 0 0 0 g)
    as (Ew & Es & g1 & Hloop & HEw & HEs & L1 & Hk1); [lia|assumption|].
  bind_with Hloop. cbn [Nat.sub skipn] in HEw, HEs.
  unfold sr_Es_spec, sr_grad_spec.
  destruct (circular i).
  - destruct (simplicity_spec g1 0 (length x - 1)) as (g2 & Hg2 & L2 & Hk2);
      [lia|lia| |].
    { destruct Hg as [Hg | ->]; [left; congruence|right].
      destruct g1; [reflexivity|discriminate]. }
    bind_with Hg2. cbn [fst snd].
    eexists; eexists. split; [reflexivity|]. split; [|split].
    + rewrite HEw, HEs. ring.
    + congruence.
    + intros HL2 Hl k Hk. rewrite Hk2 by congruence.
      rewrite Hk1 by assumption. unfold sr_tail_grad.
      destruct (Nat.leb_spec 0 k); [|lia].
      destruct (Nat.leb_spec 0 (k + 1)); [|lia]. cbn [andb]. ring.
  - cbn [bind fst snd].
    eexists; eexists. split; [reflexivity|]. split; [|split].
    + rewrite HEw, HEs. ring.
    + exact L1.
    + intros HL2 Hl k Hk. rewrite Hk1 by assumption. unfold sr_tail_grad.
      destruct (Nat.leb_spec 0 k); [|lia].
      destruct (Nat.leb_spec 0 (k + 1)); [|lia]. cbn [andb]. ring.
Qed.

End ShortrowObjective.

(** X16.  For [N >= 1] samples and as many targets, [rs_sampling] returns
    [w_w] times the sum of the [(x_k - c_k)^2] plus [w_s] times the
    simplicity cost of the steps [x_k - x_(k-1)], squared with [simp_L2]
    and absolute without, including the step [x_0 - x_(N-1)] that closes
    the circle when [circular] is set.  With [simp_L2], a gradient buffer
    of length [N] receives, added to what it held, the derivative of that
    value; an empty buffer is left empty. *)
Theorem rs_sampling_value_and_L2_gradient :
  forall (i : Shortrow.inputs) (x g : vec),
    (0 < length x)%nat ->
    length (Shortrow.cdata i) = length x ->
    length g = length x \/ g = [] ->
    exists E g',
      Shortrow.rs_sampling i x g = Some (E, g')
      /\ E = sum_sq_diff x (Shortrow.cdata i) * Shortrow.w_w i
             + sr_Es_spec i x * Shortrow.w_s i
      /\ length g' = length g
      /\ (Shortrow.simp_L2 i = true -> length g = length x ->
          forall k, (k < length x)%nat ->
            at_ g' k = at_ g k + sr_grad_spec i x k).
Proof.
  intros i x g Hpos Hcd Hg. apply rs_sampling_spec; assumption.
Qed.

Lemma rs_sampling_value_and_L2_gradient_witness :
  exists E g',
    Shortrow.rs_sampling inputs_L2 [2; 5] [1; 1] = Some (E, g')
    /\ E = sum_sq_diff [2; 5] (Shortrow.cdata inputs_L2) * Shortrow.w_w inputs_L2
           + sr_Es_spec inputs_L2 [2; 5] * Shortrow.w_s inputs_L2
    /\ length g' = length [1; 1]
    /\ (Shortrow.simp_L2 inputs_L2 = true -> length [1; 1] = length [2; 5] ->
        forall k, (k < length [2; 5])%nat ->
          at_ g' k = at_ [1; 1] k + sr_grad_spec inputs_L2 [2; 5] k).
Proof.
  apply (rs_sampling_value_and_L2_gradient inputs_L2 [2; 5] [1; 1]).
  - cbn; lia.
  - reflexivity.
  - left; reflexivity.
Defined.

(** ** The constraint errors of the global problem *)

Section GlobalErrors.

Import Global.

Variable i : inputs.
Variable c : config.
Variable x : vec.

Lemma error_loops :
  forall ns e0 m0 (n0 : nat) e,
    0 <= m0 -> m0 <= e0 -> e0 <= INR n0 * m0 ->
    for_each ns (fun err node =>
      if has_interface_constraint node then
        r <- global_interface_constraint x [] node ;;
        Some (err + Rabs (fst r))
      else if global_shaping c && has_range_constraint node then
        u <- global_urange_constraint i x [] node ;;
        l <- global_lrange_constraint i x [] node ;;
        Some (err + (Rabs (fst u) + Rabs (fst l)))
      else Some err) e0 = Some e ->
    exists m,
      for_each ns (fun max_err node =>
        if has_interface_constraint node then
          r <- global_interface_constraint x [] node ;;
          Some (Rmax max_err (Rabs (fst r)))
        else if global_shaping c && has_range_constraint node then
          u <- global_urange_constraint i x [] node ;;
          let max_err := Rmax max_err (Rabs (fst u)) in
          l <- global_lrange_constraint i x [] node ;;
          Some (Rmax max_err (Rabs (fst l)))
        else Some max_err) m0 = Some m
      /\ 0 <= m /\ m <= e
      /\ e <= INR (fold_left (fun num_constraints node =>
                     if has_interface_constraint node
                     then (num_constraints + 1)%nat
                     else if global_shaping c && has_range_constraint node
                          then (num_constraints + 2)%nat
                          else num_constraints) ns n0) * m.
Proof.
  induction ns as [|node ns IH]; intros e0 m0 n0 e Hm0 Hme Hen H;
    cbn [for_each fold_left] in *.
  - inversion H; subst. exists m0. auto.
  - destruct (has_interface_constraint node).
    + destruct (global_interface_constraint x [] node) as [r|];
        cbn [bind] in *; [|discriminate].
      pose proof (Rabs_pos (fst r)) as Hr.
      pose proof (Rmax_l m0 (Rabs (fst r))) as Hl.
      pose proof (Rmax_r m0 (Rabs (fst r))) as Hr'.
      pose proof (pos_INR n0) as Hn.
      apply (IH _ (Rmax m0 (Rabs (fst r))) (n0 + 1)%nat) in H.
      * exact H.
      * lra.
      * apply Rmax_lub; lra.
      * rewrite plus_INR. cbn [INR].
        assert (INR n0 * m0 <= INR n0 * Rmax m0 (Rabs (fst r)))
          by (apply Rmult_le_compat_l; assumption).
        lra.
    + destruct (global_shaping c && has_range_constraint node).
      * destruct (global_urange_constraint i x [] node) as [u|];
          cbn [bind] in *; [|discriminate].
        destruct (global_lrange_constraint i x [] node) as [l|];
          cbn [bind] in *; [|discriminate].
        pose proof (Rabs_pos (fst u)) as Hu.
        pose proof (Rabs_pos (fst l)) as Hlp.
        set (m1 := Rmax m0 (Rabs (fst u))).
        pose proof (Rmax_l m0 (Rabs (fst u))) as H1; fold m1 in H1.
        pose proof (Rmax_r m0 (Rabs (fst u))) as H2; fold m1 in H2.
        pose proof (Rmax_l m1 (Rabs (fst l))) as H3.
        pose proof (Rmax_r m1 (Rabs (fst l))) as H4.
        pose proof (pos_INR n0) as Hn.
        apply (IH _ (Rmax m1 (Rabs (fst l))) (n0 + 2)%nat) in H.
        -- exact H.
        -- lra.
        -- apply Rmax_lub; [apply Rmax_lub|]; lra.
        -- rewrite plus_INR. change (INR 2) with (1 + 1).
           assert (INR n0 * m0 <= INR n0 * Rmax m1 (Rabs (fst l)))
             by (apply Rmult_le_compat_l; lra).
           lra.
      * apply (IH _ m0 n0) in H; assumption.
Qed.

End GlobalErrors.

(** X17.  Whenever [get_constraint_error] can be evaluated, so can
    [get_constraint_max_error] and [get_constraint_mean_error], and the
    three agree: the maximum is not negative and not above the total, the
    total is at most the maximum times [get_num_constraints], so the mean
    is between 0 and the maximum, and the total is 0 exactly when the
    maximum is. *)
Theorem constraint_error_aggregates :
  forall st e,
    Global.get_constraint_error st = Some e ->
    exists m mean,
      Global.get_constraint_max_error st = Some m
      /\ Global.get_constraint_mean_error st = Some mean
      /\ 0 <= m /\ m <= e
      /\ e <= INR (Global.get_num_constraints st) * m
      /\ 0 <= mean <= m
      /\ (e = 0 <-> m = 0).
Proof.
  intros st e H. pose proof H as He.
  unfold Global.get_constraint_error, Global.global_constraint_error in H.
  apply (error_loops _ _ _ _ 0 0 0%nat) in H;
    [|lra|lra|cbn [INR]; lra].
  destruct H as (m & Hm & H0 & Hme & Hen).
  fold (Global.get_num_constraints st) in Hen.
  unfold Global.get_constraint_max_error, Global.global_constraint_max_error.
  unfold Global.get_constraint_mean_error.
  exists m.
  destruct (Nat.eqb_spec (Global.get_num_constraints st) 0) as [Hz|Hnz].
  - exists 0. split; [exact Hm|]. split; [reflexivity|].
    split; [exact H0|]. split; [exact Hme|]. split; [exact Hen|].
    rewrite Hz in Hen. cbn [INR] in Hen.
    repeat split; intros; lra.
  - rewrite He. cbn [bind].
    exists (e / INR (Global.get_num_constraints st)).
    split; [exact Hm|]. split; [reflexivity|].
    assert (Hpos : 0 < INR (Global.get_num_constraints st))
      by (apply lt_0_INR; lia).
    split; [exact H0|]. split; [exact Hme|]. split; [exact Hen|].
    split; [split|].
    + apply Rmult_le_pos; [lra|].
      apply Rlt_le, Rinv_0_lt_compat; assumption.
    + apply (Rmult_le_reg_r (INR (Global.get_num_constraints st)));
        [assumption|].
      unfold Rdiv. rewrite Rmult_assoc, Rinv_l by lra. lra.
    + split; intros; nra.
Qed.

Lemma constraint_error_aggregates_witness :
  exists e,
    Global.get_constraint_error global_state_at_targets = Some e
    /\ exists m mean,
         Global.get_constraint_max_error global_state_at_targets = Some m
         /\ Global.get_constraint_mean_error global_state_at_targets = Some mean
         /\ 0 <= m /\ m <= e
         /\ e <= INR (Global.get_num_constraints global_state_at_targets) * m
         /\ 0 <= mean <= m
         /\ (e = 0 <-> m = 0).
Proof.
  eexists. split; [reflexivity|].
  apply (constraint_error_aggregates global_state_at_targets). reflexivity.
Defined.

(** ** The interface constraint *)

Lemma interface_loop (x : vec) (op : R -> R -> R) (sigma c : R) :
  (forall a b, op a b = a + sigma * b) ->
  forall (idxs : list index_t) v0 g,
    (forall j, In j idxs -> (j < length x)%nat) ->
    length g = length x \/ g = [] ->
    exists g',
      for_each idxs (fun (s : R * vec) idx =>
        let '(value, grad) := s in
        y <- rd x idx ;;
        g1 <- (if (0 <? length grad)%nat then wr grad idx c else Some grad) ;;
        Some (op value y, g1)) (v0, g)
      = Some (v0 + sigma * sum_at x idxs, g')
      /\ length g' = length g
      /\ (length g = length x ->
          forall k, at_ g' k
                    = if existsb (Nat.eqb k) idxs then c else at_ g k).
Proof.
  intros Hop. induction idxs as [|j idxs IH]; intros v0 g Hin Hg.
  - exists g. cbn. split; [do 2 f_equal; ring|]. auto.
  - assert (Hw : exists g1,
              (if (0 <? length g)%nat then wr g j c else Some g) = Some g1
              /\ length g1 = length g
              /\ (length g = length x ->
                  forall k, at_ g1 k = if (k =? j)%nat then c else at_ g k)).
    { destruct Hg as [Hg | ->].
      - assert (Hj : (j < length g)%nat)
          by (rewrite Hg; apply Hin; left; reflexivity).
        destruct (Nat.ltb_spec 0 (length g)); [|lia].
        rewrite wr_some by assumption. eexists. split; [reflexivity|].
        split; [apply length_upd|]. intros _ k.
        destruct (Nat.eqb_spec k j) as [->|Hk].
        + apply at_upd_eq; assumption.
        + apply at_upd_neq; lia.
      - cbn. eexists. split; [reflexivity|]. split; [reflexivity|].
        intros Hl. pose proof (Hin j (or_introl eq_refl)). lia. }
    destruct Hw as (g1 & Hg1 & L1 & Hk1).
    erewrite for_each_cons
      by (cbv beta iota; rewrite (rd_at x j) by (apply Hin; left; reflexivity);
          cbn [bind]; bind_with Hg1; reflexivity).
    destruct (IH (op v0 (at_ x j)) g1) as (g' & Hloop & L & Hk).
    { intros j' Hj'. apply Hin. right; assumption. }
    { destruct Hg as [Hg | ->]; [left; congruence|right].
      destruct g1; [reflexivity|discriminate]. }
    exists g'. split; [|split].
    + rewrite Hloop. do 2 f_equal. rewrite Hop.
      unfold sum_at. cbn [map sum_list]. ring.
    + congruence.
    + intros Hl k. rewrite Hk by congruence. rewrite Hk1 by assumption.
      cbn [existsb]. destruct (Nat.eqb_spec k j); cbn [orb].
      * destruct (existsb (Nat.eqb k) idxs); reflexivity.
      * reflexivity.
Qed.

Lemma interface_constraint_gradient :
  forall (x g : vec) (node : Global.Node),
    forallb (fun j => (j <? length x)%nat)
            (Global.inp_edges node ++ Global.out_edges node) = true ->
    length g = length x \/ g = [] ->
    exists g',
      Global.global_interface_constraint x g node = Some (node_diff x node, g')
      /\ length g' = length g
      /\ (length g = length x ->
          forall k, at_ g' k = interface_grad_spec node g k).
Proof.
  intros x g node Hb Hg.
  rewrite forallb_forall in Hb.
  assert (Hin : forall j, In j (Global.inp_edges node ++ Global.out_edges node)
                          -> (j < length x)%nat).
  { intros j Hj. apply Nat.ltb_lt. apply Hb; assumption. }
  unfold Global.global_interface_constraint.
  destruct (interface_loop x Rplus 1 1 ltac:(intros; ring)
              (Global.inp_edges node) 0 g) as (g1 & H1 & L1 & Hk1).
  { intros j Hj. apply Hin. apply in_or_app; left; assumption. }
  { assumption. }
  bind_with H1.
  destruct (interface_loop x Rminus (-1) (-1) ltac:(intros; ring)
              (Global.out_edges node) (0 + 1 * sum_at x (Global.inp_edges node))
              g1) as (g2 & H2 & L2 & Hk2).
  { intros j Hj. apply Hin. apply in_or_app; right; assumption. }
  { destruct Hg as [Hg | ->]; [left; congruence|right].
    destruct g1; [reflexivity|discriminate]. }
  exists g2. split; [|split].
  - etransitivity; [exact H2|]. do 2 f_equal. unfold node_diff. ring.
  - congruence.
  - intros Hl k. unfold interface_grad_spec.
    rewrite Hk2 by congruence. rewrite Hk1 by assumption. reflexivity.
Qed.

(** X18.  For a node whose edge indices are all below the length of [x],
    [global_interface_constraint] returns the sum of [x] over the in-edges
    minus the sum over the out-edges.  In a gradient buffer as long as [x]
    it stores [-1] at every out-edge and [1] at every in-edge that is not
    also an out-edge, and leaves every other entry as it was; an empty
    buffer is left empty. *)
Theorem interface_constraint_value_and_gradient :
  forall (x g : vec) (node : Global.Node),
    forallb (fun j => (j <? length x)%nat)
            (Global.inp_edges node ++ Global.out_edges node) = true ->
    length g = length x \/ g = [] ->
    exists g',
      Global.global_interface_constraint x g node = Some (node_diff x node, g')
      /\ length g' = length g
      /\ (length g = length x ->
          forall k, at_ g' k = interface_grad_spec node g k).
Proof.
  intros x g node Hb Hg. apply interface_constraint_gradient; assumption.
Qed.

Lemma interface_constraint_value_and_gradient_witness :
  exists g',
    Global.global_interface_constraint [3; 4; 2; 5; 6] [7; 7; 7; 7; 7] node_2x3
    = Some (node_diff [3; 4; 2; 5; 6] node_2x3, g')
    /\ length g' = length [7; 7; 7; 7; 7]
    /\ (length [7; 7; 7; 7; 7] = length [3; 4; 2; 5; 6] ->
        forall k, at_ g' k = interface_grad_spec node_2x3 [7; 7; 7; 7; 7] k).
Proof.
  apply (interface_constraint_value_and_gradient
           [3; 4; 2; 5; 6] [7; 7; 7; 7; 7] node_2x3).
  - reflexivity.
  - left; reflexivity.
Defined.

(** ** The constraint errors of the local problem *)

Lemma fold_max_spec :
  forall (l : vec) m0,
    let m := fold_left (fun max e => Rmax max e) l m0 in
    m0 <= m
    /\ (forall v, In v l -> v <= m)
    /\ (m = m0 <-> forall v, In v l -> v <= m0).
Proof.
  induction l as [|v l IH]; intros m0; cbn [fold_left].
  - cbn. split; [lra|]. split; [intros v []|]. split; [intros _ v []|auto].
  - specialize (IH (Rmax m0 v)). cbv zeta in *.
    destruct IH as (H1 & H2 & H3).
    set (m := fold_left _ l (Rmax m0 v)) in *.
    pose proof (Rmax_l m0 v) as Hl. pose proof (Rmax_r m0 v) as Hr.
    split; [lra|]. split.
    + intros w [<-|Hw]; [lra|]. apply H2; assumption.
    + split.
      * intros Hm w Hw.
        assert (Hv : v <= m0) by lra.
        assert (Hmax : Rmax m0 v = m0) by (apply Rmax_left; assumption).
        destruct Hw as [<-|Hw]; [assumption|].
        rewrite <- Hmax. apply H3; [lra|assumption].
      * intros Hall.
        assert (Hv : v <= m0) by (apply Hall; left; reflexivity).
        assert (Hmax : Rmax m0 v = m0) by (apply Rmax_left; assumption).
        transitivity (Rmax m0 v); [|exact Hmax].
        apply H3. intros w Hw. rewrite Hmax.
        apply Hall; right; assumption.
Qed.

Section LocalErrors.

Import Local.

Variable i : inputs.
Variable x : vec.
Hypothesis Hpos : (0 < length x)%nat.
Hypothesis Hcd : length (cdata i) = length x.

Lemma all_constraints_inv cs :
  get_constraints i true true = Some cs ->
  length cs = (length x * 2 + 2)%nat
  /\ forall b, In b cs <->
       (b = mkBound 0 FirstMin \/ b = mkBound 0 FirstMax
        \/ (exists k, (k + 1 < length x)%nat
                      /\ (b = mkBound k NextMin \/ b = mkBound k NextMax))
        \/ b = mkBound (length x - 1) LastMin
        \/ b = mkBound (length x - 1) LastMax).
Proof.
  intros H. apply get_constraints_inv in H. destruct H as (_ & ->).
  rewrite Hcd. split.
  - rewrite !length_app, length_next_bounds. cbn [length]. lia.
  - intros b. rewrite !in_app_iff, in_next_bounds. cbn [In]. split.
    + intros [[H|[H|[]]] | [(k & Hk & H) | [H|[H|[]]]]]; auto.
      right; right; left. exists k. split; [lia|assumption].
    + intros [H|[H|[(k & Hk & H)|[H|H]]]]; auto.
      right; left. exists k. split; [lia|assumption].
Qed.

Lemma local_constraint_eval cs b :
  get_constraints i true true = Some cs -> In b cs ->
  local_constraint i x [] b = Some (local_constraint_value i x b, []).
Proof.
  intros Hcs Hb. apply (proj2 (all_constraints_inv cs Hcs)) in Hb.
  unfold local_constraint, local_constraint_value.
  destruct Hb as [->|[->|[(k & Hk & [->| ->])|[->| ->]]]];
    cbn [type index length Nat.eqb negb bind];
    rewrite ?(rd_at x 0), ?(rd_at x k), ?(rd_at x (k + 1)),
      ?(rd_at x (length x - 1)) by lia;
    reflexivity.
Qed.

Lemma local_feasible_spec cs :
  get_constraints i true true = Some cs ->
  (forall b, In b cs -> local_constraint_value i x b <= 0)
  <-> local_feasible i x.
Proof.
  intros Hcs. pose proof (proj2 (all_constraints_inv cs Hcs)) as Hin.
  unfold local_feasible. split.
  - intros Hall.
    assert (H1 := Hall (mkBound 0 FirstMin)
                    (proj2 (Hin _) (or_introl eq_refl))).
    assert (H2 := Hall (mkBound 0 FirstMax)
                    (proj2 (Hin _) (or_intror (or_introl eq_refl)))).
    assert (H3 := Hall (mkBound (length x - 1) LastMin)
                    (proj2 (Hin _)
                       (or_intror (or_intror (or_intror (or_introl eq_refl)))))).
    assert (H4 := Hall (mkBound (length x - 1) LastMax)
                    (proj2 (Hin _)
                       (or_intror (or_intror (or_intror (or_intror eq_refl)))))).
    unfold local_constraint_value in H1, H2, H3, H4.
    cbn [type index] in H1, H2, H3, H4.
    split; [lra|]. split; [|lra].
    intros k Hk.
    assert (H5 := Hall (mkBound k NextMin)
                    (proj2 (Hin _)
                       (or_intror (or_intror (or_introl
                          (ex_intro _ k (conj Hk (or_introl eq_refl)))))))).
    assert (H6 := Hall (mkBound k NextMax)
                    (proj2 (Hin _)
                       (or_intror (or_intror (or_introl
                          (ex_intro _ k (conj Hk (or_intror eq_refl)))))))).
    unfold local_constraint_value in H5, H6. cbn [type index] in H5, H6.
    lra.
  - intros (H1 & H2 & H3) b Hb. apply Hin in Hb.
    unfold local_constraint_value.
    destruct Hb as [->|[->|[(k & Hk & [->| ->])|[->| ->]]]];
      cbn [type index]; try lra; destruct (H2 k Hk); lra.
Qed.

Lemma local_errors_spec :
  exists cs,
    get_constraints i true true = Some cs
    /\ local_constraint_errors i x
       = Some (map (local_constraint_value i x) cs).
Proof.
  destruct (get_constraints i true true) as [cs|] eqn:Hcs.
  2:{ unfold get_constraints in Hcs. rewrite Hcd in Hcs.
      destruct (Nat.eqb_spec (length x) 0); [lia|discriminate]. }
  exists cs. split; [reflexivity|].
  destruct (all_constraints_inv cs Hcs) as (Hlen & _).
  unfold local_constraint_errors, for_range. rewrite Hcs. cbn [bind].
  rewrite (for_each_ext _ (fun err k =>
             v <- (b <- nth_error cs k ;;
                   r <- local_constraint i x [] b ;; Some (fst r)) ;;
             wr err k v)).
  2:{ intros s k. destruct (nth_error cs k); cbn [bind]; [|reflexivity].
      destruct (local_constraint i x [] d); reflexivity. }
  assert (Hf : forall k, (k < length cs)%nat ->
            (b <- nth_error cs k ;;
             r <- local_constraint i x [] b ;; Some (fst r))
            = nth_error (map (local_constraint_value i x) cs) k).
  { intros k Hk. destruct (nth_error cs k) as [b|] eqn:Hb.
    - cbn [bind].
      rewrite (local_constraint_eval cs b Hcs (nth_error_In _ _ Hb)).
      cbn [bind fst]. symmetry. apply map_nth_error. assumption.
    - apply nth_error_None in Hb. lia. }
  destruct (for_each_write
              (fun k => b <- nth_error cs k ;;
                        r <- local_constraint i x [] b ;; Some (fst r))
              (length x * 2 + 2) 0 (repeat 0 (length x * 2 + 2)))
    as (errs & Hloop & Hl & Hin & _).
  { rewrite repeat_length. lia. }
  { intros k Hk. rewrite Hf by lia.
    destruct (nth_error (map (local_constraint_value i x) cs) k) eqn:E;
      [eauto|].
    apply nth_error_None in E. rewrite length_map in E. lia. }
  rewrite Hloop. f_equal.
  rewrite repeat_length in Hl.
  apply nth_error_ext. intros k.
  destruct (Nat.lt_ge_cases k (length x * 2 + 2)) as [Hk|Hk].
  - rewrite Hin by lia. apply Hf. lia.
  - transitivity (@None R).
    + apply nth_error_None. lia.
    + symmetry. apply nth_error_None. rewrite length_map. lia.
Qed.

End LocalErrors.

(** X19.  For [N >= 1] variables and as many targets,
    [local_constraint_max_error] is defined and not negative, and it is 0
    exactly on the vectors that satisfy all [2N + 2] constraints: the
    first entry within a factor [F] of [ns_start], every entry within a
    factor [F] of its predecessor, and the last within a factor [F] of
    [ns_end]. *)
Theorem local_max_error_zero_iff_feasible :
  forall (i : Local.inputs) (x : vec),
    (0 < length x)%nat ->
    length (Local.cdata i) = length x ->
    exists m,
      Local.local_constraint_max_error i x = Some m
      /\ 0 <= m
      /\ (m = 0 <-> local_feasible i x).
Proof.
  intros i x Hpos Hcd.
  destruct (local_errors_spec i x Hpos Hcd) as (cs & Hcs & Herr).
  unfold Local.local_constraint_max_error. rewrite Herr. cbn [bind].
  eexists. split; [reflexivity|].
  pose proof (fold_max_spec (map (local_constraint_value i x) cs) 0.0) as Hm.
  cbv zeta in Hm. destruct Hm as (H0 & _ & Hz).
  assert (E0 : 0.0 = 0) by lra. rewrite E0 in H0, Hz.
  rewrite E0. split; [exact H0|].
  rewrite Hz. rewrite <- (local_feasible_spec i x Hpos Hcd cs Hcs).
  split.
  - intros Hall b Hb. apply Hall. apply in_map; assumption.
  - intros Hall v Hv. apply in_map_iff in Hv. destruct Hv as (b & <- & Hb).
    apply Hall; assumption.
Qed.

Lemma local_max_error_zero_iff_feasible_witness :
  let i := Local.inp_of local_state_nocap in
  exists m,
    Local.local_constraint_max_error i [4; 8] = Some m
    /\ 0 <= m
    /\ (m = 0 <-> local_feasible i [4; 8]).
Proof.
  apply (local_max_error_zero_iff_feasible
           (Local.inp_of local_state_nocap) [4; 8]).
  - cbn; lia.
  - reflexivity.
Defined.

Lemma fold_plus_sum :
  forall (l : vec) a, fold_left (fun sum e => sum + e) l a = a + sum_list l.
Proof.
  induction l as [|v l IH]; intros a; cbn [fold_left sum_list].
  - ring.
  - rewrite IH. ring.
Qed.

Lemma sum_list_app (a b : vec) : sum_list (a ++ b) = sum_list a + sum_list b.
Proof.
  induction a as [|v a IH]; cbn [app sum_list]; [ring|]. rewrite IH. ring.
Qed.

Lemma next_bounds_sum (i : Local.inputs) (x : vec) :
  forall n s,
    sum_list (map (local_constraint_value i x)
                (flat_map (fun k => [Local.mkBound k Local.NextMin;
                                     Local.mkBound k Local.NextMax])
                   (seq s n)))
    = (Local.iF i - Local.F i) * sum_at x (seq s n).
Proof.
  induction n as [|n IH]; intros s; cbn [seq flat_map].
  - unfold sum_at. cbn. ring.
  - rewrite map_app, sum_list_app, IH.
    unfold sum_at. cbn [map sum_list app].
    unfold local_constraint_value. cbn [Local.type Local.index]. ring.
Qed.

(** X20.  [local_constraint_error] adds the [2N + 2] constraint values
    with their signs, and each Min value cancels against its Max partner
    up to the factor [iF - F]: for [N >= 1] variables and as many targets
    the result is [(iF - F) (ns_start + ns_end + x_0 + ... + x_(N-2))],
    whether or not the constraints hold, and it does not depend on the
    last variable. *)
Theorem local_constraint_error_is_signed_sum :
  forall (i : Local.inputs) (x : vec),
    (0 < length x)%nat ->
    length (Local.cdata i) = length x ->
    Local.local_constraint_error i x
    = Some ((Local.iF i - Local.F i)
            * (Local.ns_start i + Local.ns_end i
               + sum_at x (seq 0 (length x - 1)))).
Proof.
  intros i x Hpos Hcd.
  destruct (local_errors_spec i x Hpos Hcd) as (cs & Hcs & Herr).
  unfold Local.local_constraint_error. rewrite Herr. cbn [bind].
  f_equal. rewrite fold_plus_sum.
  apply get_constraints_inv in Hcs. destruct Hcs as (_ & ->).
  rewrite Hcd, !map_app, !sum_list_app, next_bounds_sum.
  cbn [map sum_list]. unfold local_constraint_value.
  cbn [Local.type Local.index]. lra.
Qed.

Lemma local_constraint_error_is_signed_sum_witness :
  let i := Local.inp_of local_state_nocap in
  Local.local_constraint_error i [4; 8]
  = Some ((Local.iF i - Local.F i)
          * (Local.ns_start i + Local.ns_end i
             + sum_at [4; 8] (seq 0 (length [4; 8] - 1)))).
Proof.
  apply (local_constraint_error_is_signed_sum
           (Local.inp_of local_state_nocap) [4; 8]).
  - cbn; lia.
  - reflexivity.
Defined.

(** ** The reduced objective and the reduced constraint *)

(** [global_sampling] on a gradient buffer with arbitrary content: the
    first loop assigns every entry, so nothing of the old content is left. *)
Lemma global_sampling_any_buffer (i : Global.inputs) (x g0 : vec) :
  length x = length (Global.cdata i) ->
  edges_below (length (Global.cdata i)) (Global.nodes i) = true ->
  (0 < length (Global.cdata i))%nat ->
  length g0 = length (Global.cdata i) ->
  exists E grad,
    Global.global_sampling i x g0 = Some (E, grad)
    /\ E = sum_sq_diff x (Global.cdata i) * Global.w_c i
           + Es_spec x (Global.nodes i) * Global.w_s i
    /\ length grad = length (Global.cdata i)
    /\ forall k, (k < length (Global.cdata i))%nat ->
                 at_ grad k = global_grad_spec i x k.
Proof.
  intros Hx Hedges Hpos Hg0. unfold Global.global_sampling, for_range.
  rewrite Hg0.
  destruct (Nat.ltb_spec 0 (length (Global.cdata i))) as [_|Hz]; [|lia].
  destruct (course_loop_grad i x Hx (length (Global.cdata i)) 0 0 g0)
    as (Ec & g & Hloop & HEc & Hlen & Hin & _); [lia|assumption|].
  bind_with Hloop.
  destruct (node_loop i x Hx Hedges) with (ns := Global.nodes i) (Es0 := 0)
    (g0 := g) as (Es & g' & Hloop' & HEs & Hlen' & Hk); auto.
  bind_with Hloop'.
  exists (Ec * Global.w_c i + Es * Global.w_s i), g'.
  split; [reflexivity|]. split.
  - rewrite HEc, HEs; simpl; ring.
  - split; [assumption|]. intros k Hlt.
    rewrite Hk, Hin by lia. reflexivity.
Qed.

(** [from_aliases_to_reduced] applies the transpose of the linear map
    [from_reduced_to_aliases]. *)
Lemma scatter_total (a : Global.aliasing) (g rgrad : vec) :
  mappings_built a ->
  alias_refs_ok (Global.aliases a) = true ->
  length g = length (Global.aliases a) ->
  length rgrad = length (Global.redToAlias a) ->
  exists rg,
    Global.from_aliases_to_reduced a g rgrad false = Some rg
    /\ length rg = length (Global.redToAlias a)
    /\ forall d ns,
         length d = length (Global.redToAlias a) ->
         length ns = length (Global.aliases a) ->
         exists xd,
           Global.from_reduced_to_aliases a d ns = Some xd
           /\ dot rg d = dot g xd.
Proof.
  intros Hb Hrefs Hg Hrg.
  assert (Hloop : forall d ns,
    length d = length (Global.redToAlias a) ->
    length ns = length (Global.aliases a) ->
    exists xd rg,
      Global.from_reduced_to_aliases a d ns = Some xd
      /\ Global.from_aliases_to_reduced a g rgrad false = Some rg
      /\ length rg = length (Global.redToAlias a)
      /\ dot rg d = dot g xd).
  { intros d ns Hd Hns.
    destruct (gather_spec a d Hb Hrefs Hd ns Hns) as (xd & Hxd & Hlx & Hval).
    destruct (scatter_loop a d Hb Hrefs Hd g xd Hg) with
      (n := length g) (s := 0%nat) (rns := repeat 0 (length rgrad))
      as (rg & Hrg' & Hlrg & Hdot).
    - lia.
    - intros k Hk; apply Hval; lia.
    - lia.
    - rewrite repeat_length; assumption.
    - exists xd, rg. split; [assumption|]. split; [exact Hrg'|].
      split; [assumption|].
      rewrite Hdot, dot_zeros; simpl; ring. }
  destruct (Hloop (repeat 0 (length (Global.redToAlias a)))
              (repeat 0 (length (Global.aliases a))))
    as (_ & rg & _ & Hrg0 & Hl & _); [apply repeat_length..|].
  exists rg. split; [exact Hrg0|]. split; [exact Hl|].
  intros d ns Hd Hns.
  destruct (Hloop d ns Hd Hns) as (xd & rg' & Hxd & Hrg1 & _ & Hdot).
  rewrite Hrg0 in Hrg1. inversion Hrg1; subst rg'.
  exists xd. auto.
Qed.

(** X21.  [global_reduced_sampling] with a gradient composes the three
    steps correctly: it expands the reduced variables [r] into [nvars],
    evaluates the full objective there, and returns in [rgrad] the
    transpose of the expansion applied to the full gradient, so that
    [rgrad . d] equals the full gradient times the expansion of [d] for
    every reduced direction [d].  Neither the old content of the static
    [ngrad] buffer nor that of [rgrad] influences the result. *)
Theorem reduced_sampling_chain_rule :
  forall (i : Global.inputs) (a : Global.aliasing) (o : Global.outputs)
         (r rgrad : vec),
    mappings_built a ->
    alias_refs_ok (Global.aliases a) = true ->
    length (Global.aliases a) = length (Global.cdata i) ->
    (0 < length (Global.cdata i))%nat ->
    edges_below (length (Global.cdata i)) (Global.nodes i) = true ->
    length r = length (Global.redToAlias a) ->
    length rgrad = length (Global.redToAlias a) ->
    isnil rgrad = false ->
    length (Global.nvars o) = length (Global.cdata i) ->
    length (Global.ngrad o) = length (Global.cdata i) ->
    exists x E rg o',
      Global.from_reduced_to_aliases a r (Global.nvars o) = Some x
      /\ Global.global_reduced_sampling i a o r rgrad = Some (E, rg, o')
      /\ E = sum_sq_diff x (Global.cdata i) * Global.w_c i
             + Es_spec x (Global.nodes i) * Global.w_s i
      /\ Global.nvars o' = x
      /\ (forall k, (k < length (Global.cdata i))%nat ->
            at_ (Global.ngrad o') k = global_grad_spec i x k)
      /\ length rg = length rgrad
      /\ forall d, length d = length (Global.redToAlias a) ->
           exists xd,
             Global.from_reduced_to_aliases a d x = Some xd
             /\ dot rg d = dot (Global.ngrad o') xd.
Proof.
  intros i a o r rgrad Hb Hrefs Hal Hpos Hedges Hr Hrg Hnil Hnv Hng.
  destruct (gather_spec a r Hb Hrefs Hr (Global.nvars o))
    as (x & Hx & Hlx & _); [congruence|].
  destruct (global_sampling_any_buffer i x (Global.ngrad o))
    as (E & g & Hs & HE & Hlg & Hk); [congruence|assumption..|].
  destruct (scatter_total a g rgrad Hb Hrefs) as (rg & Hsc & Hlrg & Hdot);
    [congruence|assumption|].
  exists x, E, rg, (Global.set_ngrad (Global.set_nvars o x) g).
  split; [exact Hx|]. split.
  - unfold Global.global_reduced_sampling. rewrite Hx. cbn [bind].
    rewrite Hnil. cbn [Global.set_nvars Global.ngrad].
    rewrite Hs. cbn [bind]. rewrite Hsc. reflexivity.
  - split; [exact HE|]. split; [reflexivity|]. split; [exact Hk|].
    split; [congruence|].
    intros d Hd. apply Hdot; [assumption|congruence].
Qed.

Lemma reduced_sampling_chain_rule_witness :
  exists x E rg o',
    Global.from_reduced_to_aliases aliasing_2x2 [3; 4; 5] [0; 0; 0; 0] = Some x
    /\ Global.global_reduced_sampling inputs_2x2 aliasing_2x2
         (Global.mkOutputs [0; 0; 0; 0] [9; 9; 9; 9] 0) [3; 4; 5] [7; 7; 7]
       = Some (E, rg, o')
    /\ E = sum_sq_diff x (Global.cdata inputs_2x2) * Global.w_c inputs_2x2
           + Es_spec x (Global.nodes inputs_2x2) * Global.w_s inputs_2x2
    /\ Global.nvars o' = x
    /\ (forall k, (k < length (Global.cdata inputs_2x2))%nat ->
          at_ (Global.ngrad o') k = global_grad_spec inputs_2x2 x k)
    /\ length rg = length [7; 7; 7]
    /\ forall d, length d = length (Global.redToAlias aliasing_2x2) ->
         exists xd,
           Global.from_reduced_to_aliases aliasing_2x2 d x = Some xd
           /\ dot rg d = dot (Global.ngrad o') xd.
Proof.
  apply (reduced_sampling_chain_rule inputs_2x2 aliasing_2x2
           (Global.mkOutputs [0; 0; 0; 0] [9; 9; 9; 9] 0) [3; 4; 5] [7; 7; 7]);
    try reflexivity.
  cbn; lia.
Defined.

(** X22.  [global_reduced_constraint] with a gradient returns the
    interface constraint of the node at the expansion of [r].  Its
    gradient goes through the static buffer [ngrad], which is not cleared:
    the node's own edges are set to [1] and [-1], every other entry keeps
    what an earlier evaluation left there, and [rgrad] is the transpose of
    the expansion applied to that whole buffer. *)
Theorem reduced_constraint_maps_whole_buffer :
  forall (a : Global.aliasing) (o : Global.outputs) (r rgrad : vec)
         (node : Global.Node),
    mappings_built a ->
    alias_refs_ok (Global.aliases a) = true ->
    forallb (fun j => (j <? length (Global.aliases a))%nat)
            (Global.inp_edges node ++ Global.out_edges node) = true ->
    length r = length (Global.redToAlias a) ->
    length rgrad = length (Global.redToAlias a) ->
    isnil rgrad = false ->
    length (Global.nvars o) = length (Global.aliases a) ->
    length (Global.ngrad o) = length (Global.aliases a) ->
    exists x rg o',
      Global.from_reduced_to_aliases a r (Global.nvars o) = Some x
      /\ Global.global_reduced_constraint a o r rgrad node
         = Some (node_diff x node, rg, o')
      /\ Global.nvars o' = x
      /\ length (Global.ngrad o') = length (Global.ngrad o)
      /\ (forall k, at_ (Global.ngrad o') k
                    = interface_grad_spec node (Global.ngrad o) k)
      /\ length rg = length rgrad
      /\ forall d, length d = length (Global.redToAlias a) ->
           exists xd,
             Global.from_reduced_to_aliases a d x = Some xd
             /\ dot rg d = dot (Global.ngrad o') xd.
Proof.
  intros a o r rgrad node Hb Hrefs Hedges Hr Hrg Hnil Hnv Hng.
  destruct (gather_spec a r Hb Hrefs Hr (Global.nvars o))
    as (x & Hx & Hlx & _); [assumption|].
  destruct (interface_constraint_gradient x (Global.ngrad o) node)
    as (g & Hc & Hlg & Hk).
  { rewrite Hlx, Hnv. exact Hedges. }
  { left. congruence. }
  destruct (scatter_total a g rgrad Hb Hrefs) as (rg & Hsc & Hlrg & Hdot);
    [congruence|assumption|].
  exists x, rg, (Global.set_ngrad (Global.set_nvars o x) g).
  split; [exact Hx|]. split.
  - unfold Global.global_reduced_constraint. rewrite Hx. cbn [bind].
    rewrite Hnil. cbn [Global.set_nvars Global.ngrad].
    rewrite Hc. cbn [bind]. rewrite Hsc. reflexivity.
  - split; [reflexivity|]. split; [exact Hlg|]. split.
    + apply Hk. congruence.
    + split; [congruence|].
      intros d Hd. apply Hdot; [assumption|congruence].
Qed.

Lemma reduced_constraint_maps_whole_buffer_witness :
  exists x rg o',
    Global.from_reduced_to_aliases aliasing_2x2 [3; 4; 5] [0; 0; 0; 0] = Some x
    /\ Global.global_reduced_constraint aliasing_2x2
         (Global.mkOutputs [0; 0; 0; 0] [9; 9; 9; 9] 0) [3; 4; 5] [7; 7; 7]
         node_2x2
       = Some (node_diff x node_2x2, rg, o')
    /\ Global.nvars o' = x
    /\ length (Global.ngrad o') = length [9; 9; 9; 9]
    /\ (forall k, at_ (Global.ngrad o') k
                  = interface_grad_spec node_2x2 [9; 9; 9; 9] k)
    /\ length rg = length [7; 7; 7]
    /\ forall d, length d = length (Global.redToAlias aliasing_2x2) ->
         exists xd,
           Global.from_reduced_to_aliases aliasing_2x2 d x = Some xd
           /\ dot rg d = dot (Global.ngrad o') xd.
Proof.
  apply (reduced_constraint_maps_whole_buffer aliasing_2x2
           (Global.mkOutputs [0; 0; 0; 0] [9; 9; 9; 9] 0) [3; 4; 5] [7; 7; 7]
           node_2x2);
    reflexivity.
Defined.

(** ** When the local and the shortrow [solve] stay within their vectors *)


Section LocalTotal.

Import Local.

Variable i : inputs.
Variable n : nat.


End LocalTotal.




